(** * Sudoku-Canvas: the puzzle engine of [sudoku.tsx]

    A shallow embedding of the solver, the solution counter, the puzzle
    generator and the board mutations of [src/sudoku-web/src/sudoku.tsx],
    followed by the properties of the specification checked against it. *)

From Stdlib Require Import ZArith.
From stdpp Require Import base list gmap strings pretty.

(** ** Data model *)

(** [type Cell = number | Set<number> | null]. *)
Inductive Cell : Type :=
  | Null
  | Num (n : nat)
  | Marks (s : gset nat).

#[global] Instance Cell_eq_dec : EqDecision Cell.
Proof. solve_decision. Defined.

(** [type Board = Cell[][]]: an array of rows. *)
Abbreviation Board := (list (list Cell)).

(** [type Coords = { r; c }]. *)
Definition Coords : Type := (nat * nat)%type.

(** The result of running a piece of code whose recursion or loop is
    bounded by fuel in the model. *)
Inductive outcome (A : Type) : Type :=
  | OutOfFuel
  | Done (a : A).
Arguments OutOfFuel {A}.
Arguments Done {A} a.

(** [b[r][c]]. [None] stands for [undefined], what a read outside a row
    gives. A read in a row that the board does not have throws in the
    source and is [None] here as well; the boards of the program are 9×9
    and its loops stay inside them. *)
Definition get (b : Board) (r c : nat) : option Cell :=
  match b !! r with
  | Some row => row !! c
  | None => None
  end.

(** [b[r][c] = v], for a cell that the board has (the program writes no
    other). *)
Definition put (b : Board) (r c : nat) (v : Cell) : Board :=
  match b !! r with
  | Some row => <[r := <[c := v]> row]> b
  | None => b
  end.

(** [cell === null] *)
Definition is_null (o : option Cell) : bool :=
  match o with Some Null => true | _ => false end.

(** [cell === num] *)
Definition is_num (o : option Cell) (num : nat) : bool :=
  match o with Some (Num n) => n =? num | _ => false end.

(** [cloneBoard]: a fresh array of fresh rows, every [Set] copied. *)
Definition cloneBoard (b : Board) : Board :=
  map (fun row => map (fun cell =>
    match cell with Marks s => Marks s | _ => cell end) row) b.

(** [Array.from({ length: 9 }, () => Array(9).fill(null))] *)
Definition emptyBoard : Board := replicate 9 (replicate 9 Null).

(** The coordinates in the order of the two nested [for] loops
    ([r] from 0 to 8, and [c] from 0 to 8 inside). *)
Definition all_coords : list Coords :=
  r ← seq 0 9; c ← seq 0 9; [(r, c)].

(** [Math.floor(r / 3) * 3] *)
Definition boxStart (r : nat) : nat := r / 3 * 3.

(** [findEmpty]: the first [null] cell in row-major order. *)
Definition findEmpty (b : Board) : option Coords :=
  List.find (fun '(r, c) => is_null (get b r c)) all_coords.

(** ** The solver *)

Module Solve.

(** [isValid] of [solve]: the scans skip the position itself. *)
Definition isValid (board : Board) (num : nat) (pos : Coords) : bool :=
  let '(r, c) := pos in
  forallb (fun i =>
    negb (is_num (get board r i) num && negb (i =? c)) &&
    negb (is_num (get board i c) num && negb (i =? r))) (seq 0 9)
  &&
  forallb (fun i =>
    forallb (fun j =>
      negb (is_num (get board i j) num && (negb (i =? r) || negb (j =? c))))
      (seq (boxStart c) 3)) (seq (boxStart r) 3).

End Solve.

(** ** The solution counter *)

Module Count.

(** [isValid] of [countSolutions]: the scans do not skip the position. *)
Definition isValid (b : Board) (num : nat) (pos : Coords) : bool :=
  let '(r, c) := pos in
  forallb (fun i =>
    negb (is_num (get b r i) num) && negb (is_num (get b i c) num)) (seq 0 9)
  &&
  forallb (fun i =>
    forallb (fun j => negb (is_num (get b i j) num))
      (seq (boxStart c) 3)) (seq (boxStart r) 3).

(** The [for (let num = 1; num <= 9; num++)] loop of [backtrack], from
    [num] on; the state is the board and the counter [solutions], and
    [rec] is the recursive call. *)
Fixpoint try_from (rec : Board -> Z -> outcome (Board * Z))
    (r c : nat) (nums : list nat) (board : Board) (solutions : Z)
    : outcome (Board * Z) :=
  match nums with
  | [] => Done (board, solutions)
  | num :: rest =>
      if isValid board num (r, c) then
        match rec (put board r c (Num num)) solutions with
        | OutOfFuel => OutOfFuel
        | Done (board', solutions') =>
            if (1 <? solutions')%Z then Done (board', solutions')
            else try_from rec r c rest (put board' r c Null) solutions'
        end
      else try_from rec r c rest board solutions
  end.

(** [backtrack]; [fuel] bounds the depth of the recursion. *)
Fixpoint backtrack (fuel : nat) (board : Board) (solutions : Z)
    : outcome (Board * Z) :=
  match fuel with
  | 0 => OutOfFuel
  | S fuel' =>
      match findEmpty board with
      | None => Done (board, (solutions + 1)%Z)
      | Some (r, c) => try_from (backtrack fuel') r c (seq 1 9) board solutions
      end
  end.

End Count.

(** [countSolutions]: the board as the call leaves it, and the count.
    A grid has at most 81 empty cells, so 82 nested calls of [backtrack]
    are always enough. *)
Definition countSolutions (b : Board) : outcome (Board * Z) :=
  Count.backtrack 82 b 0.

Section Randomness.

(** The state of [Math.random]. *)
Context {rng : Type}.

(** [Array.from({ length: 9 }, (_, i) => i + 1).sort(() => Math.random() - 0.5)]:
    the nine digits in an order that depends on the random draws. *)
Variable shuffle : rng -> list nat * rng.

(** [Math.floor(Math.random() * n)]: some number below [n]. What holds
    for every [random_int] holds for the draws of the source. *)
Variable random_int : nat -> rng -> nat * rng.

(** The [for (const num of numbers)] loop of [solve]; [rec] is the
    recursive call. *)
Fixpoint try_numbers (rec : rng -> Board -> outcome (option Board * rng))
    (r c : nat) (numbers : list nat) (g : rng) (board : Board)
    : outcome (option Board * rng) :=
  match numbers with
  | [] => Done (None, g)
  | num :: rest =>
      let board1 := put board r c (Num num) in
      if Solve.isValid board1 num (r, c) then
        match rec g board1 with
        | OutOfFuel => OutOfFuel
        | Done (Some solved, g') => Done (Some solved, g')
        | Done (None, g') => try_numbers rec r c rest g' (put board1 r c Null)
        end
      else try_numbers rec r c rest g (put board1 r c Null)
  end.

(** [solve]; [fuel] bounds the depth of the recursion. *)
Fixpoint solve (fuel : nat) (g : rng) (b : Board)
    : outcome (option Board * rng) :=
  match fuel with
  | 0 => OutOfFuel
  | S fuel' =>
      let board := cloneBoard b in
      match findEmpty board with
      | None => Done (Some board, g)
      | Some (r, c) =>
          let '(numbers, g1) := shuffle g in
          try_numbers (solve fuel') r c numbers g1 board
      end
  end.

(** ** The generator *)

(** The [while (cellsToRemove > 0)] loop of [generateNewPuzzle]; [fuel]
    bounds the number of iterations, which the source does not. *)
Fixpoint carve (fuel : nat) (g : rng) (puzzle : Board) (cellsToRemove : nat)
    : outcome (Board * rng) :=
  if cellsToRemove =? 0 then Done (puzzle, g)
  else
    match fuel with
    | 0 => OutOfFuel
    | S fuel' =>
        let '(r, g1) := random_int 9 g in
        let '(c, g2) := random_int 9 g1 in
        if negb (is_null (get puzzle r c)) then
          let backup := default Null (get puzzle r c) in
          let puzzle1 := put puzzle r c Null in
          match countSolutions (cloneBoard puzzle1) with
          | OutOfFuel => OutOfFuel
          | Done (_, k) =>
              if (k =? 1)%Z then carve fuel' g2 puzzle1 (cellsToRemove - 1)
              else carve fuel' g2 (put puzzle1 r c backup) cellsToRemove
          end
        else carve fuel' g2 puzzle cellsToRemove
    end.

(** What [generateNewPuzzle] does: it throws, or returns the pair
    [{ puzzle, solution }]. *)
Inductive generated : Type :=
  | Throws
  | Returns (puzzle solution : Board).

(** [generateNewPuzzle]; [fuel] bounds the iterations of its loop. *)
Definition generateNewPuzzle (fuel : nat) (g : rng) : outcome (generated * rng) :=
  match solve 82 g (cloneBoard emptyBoard) with
  | OutOfFuel => OutOfFuel
  | Done (None, g1) => Done (Throws, g1)
  | Done (Some solution, g1) =>
      let puzzle := cloneBoard solution in
      let '(x, g2) := random_int (50 - 40 + 1) g1 in
      match carve fuel g2 puzzle (x + 46) with
      | OutOfFuel => OutOfFuel
      | Done (puzzle', g3) => Done (Returns puzzle' solution, g3)
      end
  end.

End Randomness.


(** ** The board during play *)

(** [cell.has(digit)] on a cell that is a [Set]. *)
Definition has_mark (o : option Cell) (digit : nat) : bool :=
  match o with Some (Marks s) => bool_decide (digit ∈ s) | _ => false end.

(** [if (b[r][c] instanceof Set) b[r][c].delete(value)]: the [Set] is
    changed in place, the cell stays a [Set]. *)
Definition delete_mark (b : Board) (r c value : nat) : Board :=
  match get b r c with
  | Some (Marks s) => put b r c (Marks (s ∖ {[value]}))
  | _ => b
  end.

(** [removeCandidates]. *)
Definition removeCandidates (b : Board) (row col value : nat) : Board :=
  let b1 :=
    fold_left (fun b i => delete_mark (delete_mark b row i value) i col value)
      (seq 0 9) b in
  fold_left (fun b r =>
    fold_left (fun b c => delete_mark b r c value) (seq (boxStart col) 3) b)
    (seq (boxStart row) 3) b1.

(** [hasConflict]. *)
Definition hasConflict (b : Board) (row col : nat) : bool :=
  match get b row col with
  | Some (Num val) =>
      existsb (fun i =>
        (negb (i =? col) && is_num (get b row i) val) ||
        (negb (i =? row) && is_num (get b i col) val)) (seq 0 9)
      ||
      existsb (fun r =>
        existsb (fun c =>
          (negb (r =? row) || negb (c =? col)) && is_num (get b r c) val)
          (seq (boxStart col) 3)) (seq (boxStart row) 3)
  | _ => false
  end.

(** [pencilConflict]. *)
Definition pencilConflict (b : Board) (row col num : nat) : bool :=
  existsb (fun i => is_num (get b row i) num || is_num (get b i col) num)
    (seq 0 9)
  ||
  existsb (fun r =>
    existsb (fun c => is_num (get b r c) num) (seq (boxStart col) 3))
    (seq (boxStart row) 3).

(** [x === y] on what two boards hold: numbers and [null] compare by
    value, two [Set]s are never the same object. *)
Definition strict_eq (x y : option Cell) : bool :=
  match x, y with
  | None, None => true
  | Some Null, Some Null => true
  | Some (Num n), Some (Num m) => n =? m
  | _, _ => false
  end.

(** [e.key], with [parseInt(key, 10)] for the keys that are neither
    Backspace nor Delete ([None] is [NaN]). *)
Inductive Key : Type :=
  | Backspace
  | Delete
  | OtherKey (digit : option nat).

Record KeyboardEvent : Type := {
  key : Key;
  ctrlKey : bool;
  metaKey : bool;
}.

(** The state variables of the component that the keyboard handler reads
    and writes. *)
Record State : Type := {
  board : Board;
  pencilMode : bool;
  selectedCells : list Coords;
  highlightNum : option nat;
  completed : bool;
}.

Section Play.

(** [puzzleAndSolution]. *)
Variables puzzle solution : Board.

(** [isGiven]. *)
Definition isGiven (r c : nat) : bool := negb (is_null (get puzzle r c)).

(** [isPuzzleCompleted]. *)
Definition isPuzzleCompleted (b : Board) : bool :=
  forallb (fun '(r, c) => strict_eq (get b r c) (get solution r c)) all_coords.

(** The Backspace/Delete branch of [onBoardKeyDown]. *)
Definition clear_cells (nextBoard : Board) (selected : list Coords) : Board :=
  fold_left (fun b '(r, c) => if negb (isGiven r c) then put b r c Null else b)
    selected nextBoard.

(** The pencil branch of [onBoardKeyDown]. *)
Definition toggle_candidate (nextBoard : Board) (selected : list Coords)
    (digit : nat) : Board :=
  let pencilMarkExistsInAll :=
    forallb (fun '(r, c) => has_mark (get nextBoard r c) digit) selected in
  fold_left (fun b '(r, c) =>
    if isGiven r c then b
    else
      let candidates : gset nat :=
        match get b r c with Some (Marks s) => s | _ => ∅ end in
      let candidates :=
        if pencilMarkExistsInAll then candidates ∖ {[digit]}
        else candidates ∪ {[digit]} in
      put b r c (if decide (candidates = ∅) then Null else Marks candidates))
    selected nextBoard.

(** The digit branch of [onBoardKeyDown]. *)
Definition place_digit (nextBoard : Board) (selected : list Coords)
    (digit : nat) : Board :=
  let numberExistsInAll :=
    forallb (fun '(r, c) => is_num (get nextBoard r c) digit) selected in
  fold_left (fun b '(r, c) =>
    if isGiven r c then b
    else if numberExistsInAll then put b r c Null
    else removeCandidates (put b r c (Num digit)) r c digit)
    selected nextBoard.

(** [onBoardKeyDown]. *)
Definition onBoardKeyDown (st : State) (e : KeyboardEvent) : State :=
  if completed st then st
  else
    let nextBoard := cloneBoard (board st) in
    if length (selectedCells st) =? 0 then st
    else
      match key e with
      | Backspace | Delete =>
          {| board := clear_cells nextBoard (selectedCells st);
             pencilMode := pencilMode st;
             selectedCells := selectedCells st;
             highlightNum := highlightNum st;
             completed := completed st |}
      | OtherKey None => st
      | OtherKey (Some digit) =>
          if (digit <? 1) || (9 <? digit) then st
          else
            let isPencilInput := pencilMode st || ctrlKey e || metaKey e in
            let nextBoard :=
              if isPencilInput
              then toggle_candidate nextBoard (selectedCells st) digit
              else place_digit nextBoard (selectedCells st) digit in
            if isPuzzleCompleted nextBoard then
              {| board := nextBoard;
                 pencilMode := pencilMode st;
                 selectedCells := [];
                 highlightNum := None;
                 completed := true |}
            else
              {| board := nextBoard;
                 pencilMode := pencilMode st;
                 selectedCells := selectedCells st;
                 highlightNum := Some digit;
                 completed := completed st |}
      end.

(** The state of a fresh session:
    [useState<Board>(cloneBoard(puzzleAndSolution.puzzle))]. *)
Definition initial : State :=
  {| board := cloneBoard puzzle;
     pencilMode := false;
     selectedCells := [];
     highlightNum := None;
     completed := false |}.

(** What the player does between two key presses is outside the engine:
    the pointer handlers leave some list of cells selected, and the
    pencil button flips the mode. *)
Inductive Action : Type :=
  | Select (cells : list Coords)
  | TogglePencil
  | KeyDown (e : KeyboardEvent).

Definition step (st : State) (a : Action) : State :=
  match a with
  | Select cells =>
      {| board := board st;
         pencilMode := pencilMode st;
         selectedCells := cells;
         highlightNum := highlightNum st;
         completed := completed st |}
  | TogglePencil =>
      {| board := board st;
         pencilMode := negb (pencilMode st);
         selectedCells := selectedCells st;
         highlightNum := highlightNum st;
         completed := completed st |}
  | KeyDown e => onBoardKeyDown st e
  end.

(** The states a session can be in. *)
Inductive reachable : State -> Prop :=
  | reachable_initial : reachable initial
  | reachable_step st a : reachable st -> reachable (step st a).

End Play.

(** ** Notions used to state the properties *)

(** The number of [null] cells among the 81 cells of the grid. *)
Definition count_empty (b : Board) : nat :=
  length (filter (fun rc : Coords => is_null (get b rc.1 rc.2) = true) all_coords).

(** Two cells lie in the same row, the same column or the same 3×3 box. *)
Definition same_unit (p q : Coords) : Prop :=
  p.1 = q.1 ∨ p.2 = q.2 ∨ (p.1 / 3 = q.1 / 3 ∧ p.2 / 3 = q.2 / 3).

(** A peer of a cell: another cell of one of its three units. *)
Definition peer (p q : Coords) : Prop := same_unit p q ∧ p ≠ q.

#[global] Instance same_unit_dec p q : Decision (same_unit p q).
Proof. unfold same_unit. apply _. Defined.

#[global] Instance peer_dec p q : Decision (peer p q).
Proof. unfold peer. apply _. Defined.

(** [b'] is [b] with every [null] cell of the grid replaced by a digit. *)
Definition fills (b b' : Board) : Prop :=
  ∀ r c,
    if decide (get b r c = Some Null ∧ r < 9 ∧ c < 9)
    then ∃ n, 1 ≤ n ≤ 9 ∧ get b' r c = Some (Num n)
    else get b' r c = get b r c.

(** What a call of [backtrack] on [board] with the counter at [s] leaves
    behind. *)
Definition backtrack_post (board : Board) (s : Z) (res : Board * Z) : Prop :=
  (s ≤ res.2 ≤ 2)%Z ∧
  ((res.2 ≤ 1)%Z → res.1 = board) ∧
  ((1 < res.2)%Z → fills board res.1).

(** Every cell of [puzzle] that is not [null] holds what [solution] holds
    there. *)
Definition agrees (puzzle solution : Board) : Prop :=
  ∀ r c v, get puzzle r c = Some v → v ≠ Null → get solution r c = Some v.

(** [countSolutions(puzzle) === 1] *)
Definition unique (puzzle : Board) : Prop :=
  ∃ b', countSolutions puzzle = Done (b', 1%Z).

(** What the cell at a coordinate holds. *)
Definition cell_at (b : Board) (p : Coords) : option Cell := get b p.1 p.2.

(** The nine cells of row [k], of column [k] and of box [k] (the boxes are
    numbered row by row). *)
Definition row_cells (k : nat) : list Coords := (λ c, (k, c)) <$> seq 0 9.

Definition col_cells (k : nat) : list Coords := (λ r, (r, k)) <$> seq 0 9.

Definition box_cells (k : nat) : list Coords :=
  r ← seq (k / 3 * 3) 3; c ← seq (k mod 3 * 3) 3; [(r, c)].

(** The nine cells hold each of the nine digits exactly once: what they
    hold, listed cell by cell, is a rearrangement of 1, ..., 9. *)
Definition complete_unit (b : Board) (cells : list Coords) : Prop :=
  cell_at b <$> cells ≡ₚ (λ d, Some (Num d)) <$> seq 1 9.

(** Every row, every column and every box holds each digit exactly once. *)
Definition solved_grid (b : Board) : Prop :=
  ∀ k, k < 9 →
    complete_unit b (row_cells k) ∧ complete_unit b (col_cells k) ∧
    complete_unit b (box_cells k).

(** Every cell of the grid is [null] or a digit from 1 to 9. *)
Definition plain (b : Board) : Prop :=
  ∀ p, p ∈ all_coords →
    cell_at b p = Some Null ∨ ∃ d, 1 ≤ d ≤ 9 ∧ cell_at b p = Some (Num d).

(** No two peers hold the same digit. *)
Definition consistent (b : Board) : Prop :=
  ∀ p q d, p ∈ all_coords → q ∈ all_coords → peer p q →
    cell_at b p = Some (Num d) → cell_at b q ≠ Some (Num d).

(** A grid that [solve] may return: no [null] cell is left, every cell is
    a digit, and no two peers hold the same digit. *)
Definition finished (b : Board) : Prop :=
  plain b ∧ consistent b ∧ findEmpty b = None.


(** The lengths of the rows of a board. *)
Definition shape (b : Board) : list nat := length <$> b.

(** What [Set.delete(value)] leaves in a cell, when the cell is a [Set]. *)
Definition prune (value : nat) (o : option Cell) : option Cell :=
  match o with
  | Some (Marks s) => Some (Marks (s ∖ {[value]}))
  | _ => o
  end.

(** [b'] is [b] with [value] deleted from some of its [Set]s. *)
Definition pruned (value : nat) (b b' : Board) : Prop :=
  shape b' = shape b ∧
  ∀ r c, get b' r c = get b r c ∨ get b' r c = prune value (get b r c).

(** Writing [v] into every selected cell that is not given. *)
Definition write_cells (puzzle : Board) (v : Cell) (b : Board)
    (selected : list Coords) : Board :=
  fold_left (fun b '(r, c) => if isGiven puzzle r c then b else put b r c v)
    selected b.

(** Every cell that holds a digit in the puzzle holds the same digit on
    the board. *)
Definition givens_kept (puzzle b : Board) : Prop :=
  ∀ r c d, get puzzle r c = Some (Num d) → get b r c = Some (Num d).

(** No cell in the row, the column or the box of a selected cell that is
    not given holds [digit] as a candidate mark. *)
Definition unmarked (puzzle b : Board) (selected : list Coords) (digit : nat)
    : Prop :=
  ∀ p q, p ∈ selected → isGiven puzzle p.1 p.2 = false → same_unit p q →
    has_mark (cell_at b q) digit = false.

(** One round of the [forEach] of the digit branch when the digit is
    placed. *)
Definition place_step (puzzle : Board) (digit : nat) (b : Board) (rc : Coords)
    : Board :=
  let '(r, c) := rc in
  if isGiven puzzle r c then b
  else removeCandidates (put b r c (Num digit)) r c digit.

(** A source of randomness for which the sort leaves the digits in
    ascending order. *)
Definition fixed_shuffle (g : list nat) : list nat * list nat := (seq 1 9, g).

(** A source of randomness that reads its draws from a list. *)
Definition scripted_random (n : nat) (g : list nat) : nat * list nat :=
  match g with
  | [] => (0, [])
  | x :: g' => (x mod n, g')
  end.

(** The draws of one run of [generateNewPuzzle]: the number of cells to
    remove (46), then the row and the column of each pick. *)
Definition script : list nat :=
  [0;
   2; 3; 8; 5; 2; 2; 6; 8; 5; 4; 0; 4; 2; 4; 7; 8; 3; 4; 1; 8; 2; 8; 3; 5;
   5; 7; 8; 7; 4; 2; 3; 0; 4; 5; 2; 7; 6; 3; 4; 1; 4; 8; 7; 6; 0; 6; 0; 8;
   4; 4; 6; 2; 2; 0; 1; 6; 3; 6; 2; 1; 8; 3; 7; 7; 0; 1; 4; 3; 1; 0; 6; 1;
   0; 3; 6; 7; 5; 2; 6; 5; 5; 0; 8; 2; 7; 3; 1; 2; 3; 1; 8; 4].

(** The solution that this run builds. *)
Definition sample_solution : Board :=
  [[Num 1; Num 2; Num 3; Num 4; Num 5; Num 6; Num 7; Num 8; Num 9];
   [Num 4; Num 5; Num 6; Num 7; Num 8; Num 9; Num 1; Num 2; Num 3];
   [Num 7; Num 8; Num 9; Num 1; Num 2; Num 3; Num 4; Num 5; Num 6];
   [Num 2; Num 1; Num 4; Num 3; Num 6; Num 5; Num 8; Num 9; Num 7];
   [Num 3; Num 6; Num 5; Num 8; Num 9; Num 7; Num 2; Num 1; Num 4];
   [Num 8; Num 9; Num 7; Num 2; Num 1; Num 4; Num 3; Num 6; Num 5];
   [Num 5; Num 3; Num 1; Num 6; Num 4; Num 2; Num 9; Num 7; Num 8];
   [Num 6; Num 4; Num 2; Num 9; Num 7; Num 8; Num 5; Num 3; Num 1];
   [Num 9; Num 7; Num 8; Num 5; Num 3; Num 1; Num 6; Num 4; Num 2]].

(** The puzzle that this run carves out of it. *)
Definition sample_puzzle : Board :=
  [[Num 1; Null; Num 3; Null; Null; Num 6; Null; Num 8; Null];
   [Null; Num 5; Null; Num 7; Num 8; Num 9; Null; Num 2; Null];
   [Null; Null; Null; Null; Null; Num 3; Num 4; Null; Null];
   [Null; Null; Num 4; Num 3; Null; Null; Null; Num 9; Num 7];
   [Num 3; Null; Null; Null; Null; Null; Num 2; Num 1; Null];
   [Null; Num 9; Null; Num 2; Null; Num 4; Num 3; Null; Num 5];
   [Num 5; Null; Null; Null; Num 4; Null; Num 9; Null; Null];
   [Num 6; Num 4; Num 2; Null; Num 7; Num 8; Null; Null; Null];
   [Num 9; Num 7; Null; Null; Null; Null; Num 6; Null; Num 2]].

(** Pressing a digit key, with or without the Ctrl key held. *)
Definition press (digit : nat) (ctrl : bool) : KeyboardEvent :=
  {| key := OtherKey (Some digit); ctrlKey := ctrl; metaKey := false |}.

(** A session: the actions of the player, one after the other. *)
Definition run (puzzle solution : Board) (actions : list (Action))
    (st : State) : State :=
  fold_left (step puzzle solution) actions st.

(** A completion of [b]: a grid with a digit in every cell, no two peers
    holding the same digit, that holds what [b] holds wherever [b] is not
    empty. *)
Definition solution_of (b s : Board) : Prop := finished s ∧ agrees b s.

(** Two grids that differ in one of the 81 cells. *)
Definition differ (s1 s2 : Board) : Prop :=
  ∃ p, p ∈ all_coords ∧ cell_at s1 p ≠ cell_at s2 p.

(** The completions of [b] that hold one of the digits [nums] at [(r, c)]. *)
Definition solution_with (b : Board) (r c : nat) (nums : list nat) (s : Board)
    : Prop :=
  solution_of b s ∧ ∃ d, d ∈ nums ∧ get s r c = Some (Num d).

(** A counter that went from [s] to [k] while the search looked for the
    grids [sols], and stopped at 2: it counted one of them if there is one,
    two if there are two different ones, and none that is not there. *)
Definition counted (sols : Board → Prop) (s k : Z) : Prop :=
  (∀ sol, sols sol → (Z.min 2 (s + 1) ≤ k)%Z) ∧
  (∀ s1 s2, sols s1 → sols s2 → differ s1 s2 → k = 2%Z) ∧
  ((s < k)%Z → ∃ sol, sols sol) ∧
  ((s + 2 ≤ k)%Z → ∃ s1 s2, sols s1 ∧ sols s2 ∧ differ s1 s2).

(** [puzzle] is [solution] with some of its cells made [null]. *)
Definition carved (puzzle solution : Board) : Prop :=
  shape puzzle = shape solution ∧
  ∀ r c, get puzzle r c = get solution r c ∨ get puzzle r c = Some Null.

(** The cells that [removeCandidates] visits, in the order of its loops. *)
Definition scanned (row col : nat) : list Coords :=
  (i ← seq 0 9; [(row, i); (i, col)]) ++
  (r ← seq (boxStart row) 3; c ← seq (boxStart col) 3; [(r, c)]).

(** The candidate marks of a cell: those of its [Set], none otherwise
    ([cell instanceof Set ? new Set(cell) : new Set()]). *)
Definition marks_of (o : option Cell) : gset nat :=
  match o with Some (Marks s) => s | _ => ∅ end.

(** [candidates.size ? candidates : null] *)
Definition with_marks (s : gset nat) : Cell :=
  if decide (s = ∅) then Null else Marks s.

(** Writing [f] of its content into every selected cell that is not
    given. *)
Definition map_cells (puzzle : Board) (f : option Cell → Cell) (b : Board)
    (selected : list Coords) : Board :=
  fold_left (fun b '(r, c) =>
    if isGiven puzzle r c then b else put b r c (f (get b r c))) selected b.

(** No cell holds an empty [Set]. *)
Definition no_empty_set (b : Board) : Prop :=
  ∀ r c, get b r c ≠ Some (Marks ∅).

(** ** The component and its pointer handlers *)

(** [dragMode]: ["select"], ["deselect"] or [null] ([None]). *)
Inductive DragMode : Type :=
  | DragSelect
  | DragDeselect.

(** The modifier keys of a mouse event. *)
Record MouseEvent : Type := {
  mouseCtrlKey : bool;
  mouseMetaKey : bool;
}.

(** The state of the [Sudoku] component: [puzzleAndSolution], the state
    variables that the keyboard handler works on, and the state of a
    drag. *)
Record Component : Type := {
  puzzleAndSolution : Board * Board;
  game : State;
  isMouseDown : bool;
  dragMode : option DragMode;
}.

(** [isSelected] *)
Definition isSelected (selected : list Coords) (r c : nat) : bool :=
  existsb (fun cell : Coords => (cell.1 =? r) && (cell.2 =? c)) selected.

(** [prev.filter(cell => cell.r !== r || cell.c !== c)] *)
Definition deselect (selected : list Coords) (r c : nat) : list Coords :=
  List.filter (fun cell : Coords => negb (cell.1 =? r) || negb (cell.2 =? c))
    selected.

(** [typeof cell === "number" ? cell : null] *)
Definition number_at (b : Board) (r c : nat) : option nat :=
  match get b r c with
  | Some (Num n) => Some n
  | _ => None
  end.

(** [onCellMouseDown] *)
Definition onCellMouseDown (cmp : Component) (r c : nat) (e : MouseEvent)
    : Component :=
  let st := game cmp in
  if completed st then cmp
  else
    let isCtrlOrCmd := mouseCtrlKey e || mouseMetaKey e in
    let '(cells, drag) :=
      if isCtrlOrCmd then
        if isSelected (selectedCells st) r c
        then (deselect (selectedCells st) r c, Some DragDeselect)
        else (selectedCells st ++ [(r, c)], Some DragSelect)
      else ([(r, c)], None) in
    {| puzzleAndSolution := puzzleAndSolution cmp;
       game := {| board := board st;
                  pencilMode := pencilMode st;
                  selectedCells := cells;
                  highlightNum := number_at (board st) r c;
                  completed := completed st |};
       isMouseDown := true;
       dragMode := drag |}.

(** [onCellTouchStart] *)
Definition onCellTouchStart (cmp : Component) (r c : nat) : Component :=
  let st := game cmp in
  if completed st then cmp
  else
    {| puzzleAndSolution := puzzleAndSolution cmp;
       game := {| board := board st;
                  pencilMode := pencilMode st;
                  selectedCells := [(r, c)];
                  highlightNum := number_at (board st) r c;
                  completed := completed st |};
       isMouseDown := isMouseDown cmp;
       dragMode := dragMode cmp |}.

(** [onCellMouseEnter]; [innerWidth] is [window.innerWidth]. *)
Definition onCellMouseEnter (cmp : Component) (r c : nat) (innerWidth : nat)
    : Component :=
  let st := game cmp in
  let isMobile := innerWidth <=? 768 in
  if negb (isMouseDown cmp) || isMobile then cmp
  else
    let prev := selectedCells st in
    let isCurrentlySelected := isSelected prev r c in
    let cells :=
      match dragMode cmp with
      | Some DragDeselect => deselect prev r c
      | _ => if negb isCurrentlySelected then prev ++ [(r, c)] else prev
      end in
    {| puzzleAndSolution := puzzleAndSolution cmp;
       game := {| board := board st;
                  pencilMode := pencilMode st;
                  selectedCells := cells;
                  highlightNum := highlightNum st;
                  completed := completed st |};
       isMouseDown := isMouseDown cmp;
       dragMode := dragMode cmp |}.

(** [onBoardMouseUp] *)
Definition onBoardMouseUp (cmp : Component) : Component :=
  {| puzzleAndSolution := puzzleAndSolution cmp;
     game := game cmp;
     isMouseDown := false;
     dragMode := None |}.

(** The pencil button: [setPencilMode(p => !p)]. *)
Definition togglePencil (cmp : Component) : Component :=
  {| puzzleAndSolution := puzzleAndSolution cmp;
     game := step (puzzleAndSolution cmp).1 (puzzleAndSolution cmp).2
               (game cmp) TogglePencil;
     isMouseDown := isMouseDown cmp;
     dragMode := dragMode cmp |}.

(** [onBoardKeyDown] on the state of the component. *)
Definition keyDown (cmp : Component) (e : KeyboardEvent) : Component :=
  {| puzzleAndSolution := puzzleAndSolution cmp;
     game := onBoardKeyDown (puzzleAndSolution cmp).1 (puzzleAndSolution cmp).2
               (game cmp) e;
     isMouseDown := isMouseDown cmp;
     dragMode := dragMode cmp |}.

(** [solveGame] (its [onPuzzleComplete] callback belongs to the caller). *)
Definition solveGame (cmp : Component) : Component :=
  {| puzzleAndSolution := puzzleAndSolution cmp;
     game := {| board := cloneBoard (puzzleAndSolution cmp).2;
                pencilMode := pencilMode (game cmp);
                selectedCells := [];
                highlightNum := None;
                completed := true |};
     isMouseDown := isMouseDown cmp;
     dragMode := dragMode cmp |}.

(** [newGame], for the pair that its call of [generateNewPuzzle] returns
    (its [onNewGame] callback belongs to the caller). *)
Definition newGame (cmp : Component) (newPuzzle : Board * Board) : Component :=
  {| puzzleAndSolution := newPuzzle;
     game := {| board := cloneBoard newPuzzle.1;
                pencilMode := pencilMode (game cmp);
                selectedCells := [];
                highlightNum := None;
                completed := false |};
     isMouseDown := isMouseDown cmp;
     dragMode := dragMode cmp |}.

(** The component as it is mounted, for the pair that the call of
    [generateNewPuzzle] in its first [useState] returns. *)
Definition mount (newPuzzle : Board * Board) : Component :=
  {| puzzleAndSolution := newPuzzle;
     game := initial newPuzzle.1;
     isMouseDown := false;
     dragMode := None |}.

Section Mounted.

Context {rng : Type}.
Variable shuffle : rng -> list nat * rng.
Variable random_int : nat -> rng -> nat * rng.

(** One event of the component. The cells that carry the mouse and touch
    handlers are the 81 cells of the rendered board; each handler sees the
    state that the handler before it has left. *)
Inductive ui_step : Component -> Component -> Prop :=
  | ui_mouse_down cmp r c e :
      r < 9 -> c < 9 -> ui_step cmp (onCellMouseDown cmp r c e)
  | ui_touch_start cmp r c :
      r < 9 -> c < 9 -> ui_step cmp (onCellTouchStart cmp r c)
  | ui_mouse_enter cmp r c innerWidth :
      r < 9 -> c < 9 -> ui_step cmp (onCellMouseEnter cmp r c innerWidth)
  | ui_mouse_up cmp : ui_step cmp (onBoardMouseUp cmp)
  | ui_pencil cmp : ui_step cmp (togglePencil cmp)
  | ui_key_down cmp e : ui_step cmp (keyDown cmp e)
  | ui_solve cmp : ui_step cmp (solveGame cmp)
  | ui_new_game cmp fuel g puzzle solution g' :
      generateNewPuzzle shuffle random_int fuel g
        = Done (Returns puzzle solution, g') ->
      ui_step cmp (newGame cmp (puzzle, solution)).

(** The states of a mounted component. *)
Inductive ui_reachable : Component -> Prop :=
  | ui_mounted fuel g puzzle solution g' :
      generateNewPuzzle shuffle random_int fuel g
        = Done (Returns puzzle solution, g') ->
      ui_reachable (mount (puzzle, solution))
  | ui_next cmp cmp' :
      ui_reachable cmp -> ui_step cmp cmp' -> ui_reachable cmp'.

End Mounted.

(** A session of the component on the sample deal: a click on (0,1), a
    Ctrl-click on (0,3), a drag over (0,3) on a wide window, the button
    released, and the key 2. *)
Definition sample_session : Component :=
  let ctrl := {| mouseCtrlKey := true; mouseMetaKey := false |} in
  let plain_click := {| mouseCtrlKey := false; mouseMetaKey := false |} in
  let c0 := mount (sample_puzzle, sample_solution) in
  let c1 := onCellMouseDown c0 0 1 plain_click in
  let c2 := onCellMouseDown c1 0 3 ctrl in
  let c3 := onCellMouseEnter c2 0 3 1024 in
  let c4 := onBoardMouseUp c3 in
  keyDown c4 (press 2 false).

(** [isHighlighted], for the [highlightNum] of the state. *)
Definition isHighlighted (highlightNum : option nat) (cell : Cell) : bool :=
  match highlightNum with
  | None => false
  | Some h =>
      match cell with
      | Num n => n =? h
      | Marks s => bool_decide (h ∈ s)
      | Null => false
      end
  end.

(** ** The clock of the application *)

(** The filler of [padStart]: [padString] repeated and cut to [n]
    characters. *)
Fixpoint cycle (n : nat) (padString cur : string) : string :=
  match n with
  | 0 => ""
  | S n' =>
      match cur with
      | String a rest => String a (cycle n' padString rest)
      | EmptyString =>
          match padString with
          | String a rest => String a (cycle n' padString rest)
          | EmptyString => ""
          end
      end
  end.

(** [String.prototype.padStart]: a string that is long enough is returned
    as it is, as is any string when [padString] is empty. *)
Definition padStart (s : string) (targetLength : nat) (padString : string)
    : string :=
  if targetLength <=? String.length s then s
  else cycle (targetLength - String.length s) padString padString +:+ s.

(** [formatTime] of the application. [seconds] is the count of the timer,
    which starts at 0 and goes up by 1: a natural number, whose [toString]
    is its decimal writing [pretty]. *)
Definition formatTime (seconds : nat) : string :=
  let mins := seconds / 60 in
  let secs := seconds mod 60 in
  pretty mins +:+ ":" +:+ padStart (pretty secs) 2 "0".

(** ** The timer of the application *)

(** The state of [App]. [intervalId] is [number | null]. *)
Record App : Type := {
  started : bool;
  gameKey : nat;
  time : nat;
  intervalId : option nat;
}.

(** The interval timers of the window: the handles that are running, and
    the last handle given out. [window.setInterval] returns a handle that
    is greater than zero and was never given out before. *)
Record Timers : Type := {
  active : gset nat;
  issued : nat;
}.

(** [window.setInterval(() => setTime((t) => t + 1), 1000)] *)
Definition setInterval (w : Timers) : nat * Timers :=
  let id := S (issued w) in
  (id, {| active := active w ∪ {[id]}; issued := id |}).

(** [clearInterval(id)] *)
Definition clearInterval (id : nat) (w : Timers) : Timers :=
  {| active := active w ∖ {[id]}; issued := issued w |}.

(** [if (intervalId) clearInterval(intervalId)]: [null] and [0] are
    falsy. *)
Definition clear_if_set (o : option nat) (w : Timers) : Timers :=
  match o with
  | Some id => if id =? 0 then w else clearInterval id w
  | None => w
  end.

(** The cleanup of the effect on [[intervalId]]: it runs with the value of
    the render before, when the value has changed. *)
Definition effect_cleanup (old : option nat) (a : App) (w : Timers) : Timers :=
  if decide (intervalId a = old) then w else clear_if_set old w.

(** [newGame] of the application, with [started] as the caller has set
    it. *)
Definition app_newGame (started' : bool) (a : App) (w : Timers) : App * Timers :=
  let w1 := clear_if_set (intervalId a) w in
  let '(id, w2) := setInterval w1 in
  let a' := {| started := started';
               gameKey := gameKey a + 1;
               time := 0;
               intervalId := Some id |} in
  (a', effect_cleanup (intervalId a) a' w2).

(** [startGame] *)
Definition startGame (a : App) (w : Timers) : App * Timers :=
  app_newGame true a w.

(** [onPuzzleComplete] *)
Definition onPuzzleComplete (a : App) (w : Timers) : App * Timers :=
  let w1 := clear_if_set (intervalId a) w in
  let a' := {| started := started a;
               gameKey := gameKey a;
               time := time a;
               intervalId := None |} in
  (a', effect_cleanup (intervalId a) a' w1).

(** A second has passed for the interval [id]: its callback
    [setTime((t) => t + 1)] runs if the interval is still running. *)
Definition tick (id : nat) (a : App) (w : Timers) : App * Timers :=
  if bool_decide (id ∈ active w) then
    ({| started := started a;
        gameKey := gameKey a;
        time := time a + 1;
        intervalId := intervalId a |}, w)
  else (a, w).

(** What happens to the application: its first button, [onNewGame] and
    [onPuzzleComplete] called by the board, and the seconds that pass. *)
Inductive AppEvent : Type :=
  | StartGame
  | NewGame
  | PuzzleComplete
  | Tick (id : nat).

Definition app_step (s : App * Timers) (ev : AppEvent) : App * Timers :=
  match ev with
  | StartGame => startGame s.1 s.2
  | NewGame => app_newGame (started s.1) s.1 s.2
  | PuzzleComplete => onPuzzleComplete s.1 s.2
  | Tick id => tick id s.1 s.2
  end.

(** The application as it is mounted, in a window that has given out
    [n] handles and runs none of them. *)
Definition app_initial (n : nat) : App * Timers :=
  ({| started := false; gameKey := 0; time := 0; intervalId := None |},
   {| active := ∅; issued := n |}).

Definition app_run (n : nat) (evs : list AppEvent) : App * Timers :=
  fold_left app_step evs (app_initial n).

(** At most the interval of [intervalId] is running. *)
Definition one_timer (s : App * Timers) : Prop :=
  (∀ id, id ∈ active s.2 → intervalId s.1 = Some id) ∧
  (∀ id, id ∈ active s.2 → 0 < id ≤ issued s.2) ∧
  (∀ id, intervalId s.1 = Some id → 0 < id ≤ issued s.2).

(** ** The order of the search of [countSolutions] *)

(** [s] is a way to fill [b] by the rules of the search: the grid [b] with
    a digit from 1 to 9 in each of its [null] cells, every other cell as it
    is, such that no peer of a filled cell holds the digit of that cell. *)
Definition completes (b s : Board) : Prop :=
  shape s = shape b ∧ fills b s ∧
  ∀ p q, p ∈ all_coords → q ∈ all_coords → cell_at b p = Some Null →
         peer p q → cell_at s q ≠ cell_at s p.

(** [q] comes before [p] in the scan of [findEmpty]: row by row, and from
    left to right in a row. *)
Definition before (q p : Coords) : Prop :=
  q.1 < p.1 ∨ (q.1 = p.1 ∧ q.2 < p.2).

(** The search reaches [s1] before [s2]: it fills the [null] cells in the
    order of the scan and tries the digits from 1 up, so of two grids it
    reaches first the one with the smaller digit in the first cell of the
    scan where they differ. *)
Definition found_before (s1 s2 : Board) : Prop :=
  ∃ p d1 d2, p ∈ all_coords ∧
    (∀ q, q ∈ all_coords → before q p → cell_at s1 q = cell_at s2 q) ∧
    cell_at s1 p = Some (Num d1) ∧ cell_at s2 p = Some (Num d2) ∧ d1 < d2.

(** [b'] is the second grid that the search on [b] reaches: one way to
    fill [b] comes before it, and every other one after it. *)
Definition second_found (b b' : Board) : Prop :=
  completes b b' ∧
  ∃ s1, completes b s1 ∧ found_before s1 b' ∧
        ∀ s, completes b s → s = s1 ∨ s = b' ∨ found_before b' s.

(** All the grids that the search on [b] would reach if it never stopped,
    in the order in which it would reach them. *)
Fixpoint completions (fuel : nat) (b : Board) : list Board :=
  match fuel with
  | 0 => []
  | S fuel' =>
      match findEmpty b with
      | None => [b]
      | Some (r, c) =>
          num ← seq 1 9;
          if Count.isValid b num (r, c)
          then completions fuel' (put b r c (Num num)) else []
      end
  end.

(** What a search that started with the counter at [s], 0 or 1, leaves
    when [l] are the grids it can reach: it stops at the grid that makes
    the counter 2, and has put the board back if there is none. *)
Definition search_result (board : Board) (s : Z) (l : list Board)
    : Board * Z :=
  match drop (Z.to_nat (1 - s)) l with
  | y :: _ => (y, 2%Z)
  | [] => (board, (s + Z.of_nat (length l))%Z)
  end.

(** A list of grids in the order of the search. *)
Definition in_order (l : list Board) : Prop :=
  ∀ i j x y, i < j → l !! i = Some x → l !! j = Some y → found_before x y.

(** * Properties *)

Arguments Solve.isValid : simpl never.
Arguments Count.isValid : simpl never.
Arguments findEmpty : simpl never.
Arguments get : simpl never.
Arguments put : simpl never.
Arguments cloneBoard : simpl never.

(** ** Reading and writing cells *)

Lemma cloneBoard_id (b : Board) : cloneBoard b = b.
Proof.
  unfold cloneBoard. induction b as [|row b IH]; simpl; [done|].
  f_equal; [|done].
  clear. induction row as [|cell row IH]; simpl; [done|].
  f_equal; [by destruct cell | done].
Qed.

Lemma get_put_eq (b : Board) r c v :
  is_Some (get b r c) → get (put b r c v) r c = Some v.
Proof.
  unfold get, put. destruct (b !! r) as [row|] eqn:Hr; [|by intros [? ?]].
  intros [x Hx].
  rewrite list_lookup_insert_eq by (by eapply lookup_lt_Some).
  apply list_lookup_insert_eq. by eapply lookup_lt_Some.
Qed.

Lemma get_put_ne (b : Board) r c v r' c' :
  (r, c) ≠ (r', c') → get (put b r c v) r' c' = get b r' c'.
Proof.
  intros Hne. unfold get, put.
  destruct (b !! r) as [row|] eqn:Hr; [|done].
  destruct (decide (r = r')) as [->|Hr'].
  - rewrite list_lookup_insert_eq by (by eapply lookup_lt_Some).
    rewrite Hr. apply list_lookup_insert_ne. congruence.
  - by rewrite list_lookup_insert_ne.
Qed.

Lemma get_put (b : Board) r c v r' c' :
  get (put b r c v) r' c' =
    if decide ((r, c) = (r', c') ∧ is_Some (get b r c)) then Some v
    else get b r' c'.
Proof.
  case_decide as H.
  - destruct H as [[= <- <-] H]. by apply get_put_eq.
  - destruct (decide ((r, c) = (r', c'))) as [[= <- <-]|Hne].
    + assert (get b r c = None) as Hn.
      { destruct (get b r c) eqn:E; [|done]. destruct H. eauto. }
      rewrite Hn. unfold get, put in *.
      destruct (b !! r) as [row|] eqn:Hr; [|by rewrite Hr].
      rewrite list_lookup_insert_eq by (by eapply lookup_lt_Some).
      rewrite list_insert_ge; [done|]. by apply lookup_ge_None.
    + by apply get_put_ne.
Qed.

Lemma put_restore (b : Board) r c v v0 :
  get b r c = Some v0 → put (put b r c v) r c v0 = b.
Proof.
  unfold get, put. destruct (b !! r) as [row|] eqn:Hr; [|done].
  intros Hc.
  rewrite list_lookup_insert_eq by (by eapply lookup_lt_Some).
  rewrite list_insert_insert_eq, list_insert_insert_eq.
  rewrite (list_insert_id row c v0 Hc). by apply list_insert_id.
Qed.

Lemma put_None (b : Board) r c v : get b r c = None → put b r c v = b.
Proof.
  unfold get, put. destruct (b !! r) as [row|] eqn:Hr; [|done].
  intros Hc. rewrite (list_insert_ge row) by (by apply lookup_ge_None).
  by apply list_insert_id.
Qed.

Lemma elem_of_all_coords r c : (r, c) ∈ all_coords ↔ r < 9 ∧ c < 9.
Proof.
  unfold all_coords. rewrite list_elem_of_bind. split.
  - intros (r' & Hc & Hr). apply list_elem_of_bind in Hc as (c' & Hp & Hc).
    apply list_elem_of_singleton in Hp as [= -> ->].
    apply elem_of_seq in Hr, Hc. lia.
  - intros [Hr Hc]. exists r. split; [|apply elem_of_seq; lia].
    apply list_elem_of_bind. exists c. split; [by apply list_elem_of_singleton|].
    apply elem_of_seq; lia.
Qed.

Lemma findEmpty_Some (b : Board) r c :
  findEmpty b = Some (r, c) → get b r c = Some Null ∧ r < 9 ∧ c < 9.
Proof.
  unfold findEmpty. intros H. apply find_some in H as [Hin Hnull].
  split.
  - destruct (get b r c) as [[]|]; simpl in Hnull; congruence.
  - apply elem_of_all_coords. by apply list_elem_of_In.
Qed.

Lemma findEmpty_None (b : Board) r c :
  findEmpty b = None → r < 9 → c < 9 → get b r c ≠ Some Null.
Proof.
  unfold findEmpty. intros H Hr Hc Hg.
  assert (In (r, c) all_coords) as Hin.
  { apply list_elem_of_In, elem_of_all_coords. lia. }
  pose proof (find_none _ _ H _ Hin) as Hf. simpl in Hf.
  by rewrite Hg in Hf.
Qed.

Lemma count_empty_le (b : Board) : count_empty b ≤ 81.
Proof.
  unfold count_empty.
  etrans; [apply length_filter|]. by vm_compute.
Qed.

Lemma filter_length_le {A} (P Q : A → Prop) `{!∀ x, Decision (P x)}
    `{!∀ x, Decision (Q x)} (l : list A) :
  (∀ x, x ∈ l → P x → Q x) → length (filter P l) ≤ length (filter Q l).
Proof.
  induction l as [|y l IH]; intros Himp; [done|].
  rewrite !filter_cons.
  assert (length (filter P l) ≤ length (filter Q l)) as Hle.
  { apply IH. intros z Hz. apply Himp. by apply list_elem_of_further. }
  destruct (decide (P y)) as [Hy|Hy].
  - rewrite decide_True by (apply Himp; [apply list_elem_of_here|done]).
    simpl. lia.
  - destruct (decide (Q y)); simpl; lia.
Qed.

Lemma filter_length_lt {A} (P Q : A → Prop) `{!∀ x, Decision (P x)}
    `{!∀ x, Decision (Q x)} (l : list A) x0 :
  (∀ x, x ∈ l → P x → Q x) → x0 ∈ l → Q x0 → ¬ P x0 →
  length (filter P l) < length (filter Q l).
Proof.
  induction l as [|x l IH]; intros Himp Hin HQ HP;
    [by apply elem_of_nil in Hin|].
  assert (∀ z, z ∈ l → P z → Q z) as Himp'.
  { intros z Hz. apply Himp. by apply list_elem_of_further. }
  pose proof (filter_length_le P Q l Himp') as Hle.
  rewrite !filter_cons.
  apply elem_of_cons in Hin as [<-|Hin].
  - rewrite decide_False by done. rewrite decide_True by done. simpl. lia.
  - specialize (IH Himp' Hin HQ HP).
    destruct (decide (P x)) as [Hx|Hx].
    + rewrite decide_True by (apply Himp; [apply list_elem_of_here|done]).
      simpl. lia.
    + destruct (decide (Q x)); simpl; lia.
Qed.

Lemma count_empty_put (b : Board) r c num :
  findEmpty b = Some (r, c) →
  count_empty (put b r c (Num num)) < count_empty b.
Proof.
  intros H. apply findEmpty_Some in H as (Hg & Hr & Hc).
  unfold count_empty. apply (filter_length_lt _ _ _ (r, c)).
  - intros [r' c'] _. simpl. rewrite get_put.
    case_decide; [done|]. done.
  - by apply elem_of_all_coords.
  - simpl. by rewrite Hg.
  - simpl. rewrite get_put_eq by (rewrite Hg; eauto). done.
Qed.

(** ** Termination of the solver *)

Section SolveTermination.

Context {rng : Type} (shuffle : rng → list nat * rng).

Lemma try_numbers_done (rec : rng → Board → outcome (option Board * rng))
    (board : Board) r c :
  get board r c = Some Null →
  (∀ g num, ∃ res, rec g (put board r c (Num num)) = Done res) →
  ∀ numbers g, ∃ res, try_numbers rec r c numbers g board = Done res.
Proof.
  intros Hnull Hrec numbers.
  induction numbers as [|num rest IH]; intros g; simpl; [eauto|].
  rewrite (put_restore board r c (Num num) Null Hnull).
  destruct (Solve.isValid _ _ _); [|apply IH].
  destruct (Hrec g num) as [[[solved|] g'] ->]; [eauto|apply IH].
Qed.

Lemma solve_done fuel :
  ∀ (g : rng) (b : Board),
    count_empty b < fuel → ∃ res, solve shuffle fuel g b = Done res.
Proof.
  induction fuel as [|fuel IH]; intros g b Hlt; [lia|].
  simpl. rewrite cloneBoard_id.
  destruct (findEmpty b) as [[r c]|] eqn:Hfind; [|eauto].
  destruct (shuffle g) as [numbers g1].
  apply try_numbers_done.
  - by apply findEmpty_Some in Hfind as [? _].
  - intros g2 num. apply IH.
    pose proof (count_empty_put b r c num Hfind). lia.
Qed.

End SolveTermination.

(** ** The solution counter *)

Lemma fills_put (b b' : Board) r c n :
  get b r c = Some Null → r < 9 → c < 9 → 1 ≤ n ≤ 9 →
  fills (put b r c (Num n)) b' → fills b b'.
Proof.
  intros Hnull Hr Hc Hn Hf r' c'. specialize (Hf r' c').
  destruct (decide ((r, c) = (r', c'))) as [[= <- <-]|Hne].
  - rewrite decide_True by (by rewrite Hnull).
    rewrite get_put_eq in Hf by (rewrite Hnull; eauto).
    rewrite decide_False in Hf by (by intros [[=] _]). eauto.
  - by rewrite get_put_ne in Hf.
Qed.

Lemma fills_refl (b : Board) : findEmpty b = None → fills b b.
Proof.
  intros Hfull r c. case_decide as Hd; [|done].
  destruct Hd as (Hnull & Hr & Hc). by destruct (findEmpty_None b r c).
Qed.

Lemma fills_findEmpty (b b' : Board) : fills b b' → findEmpty b' = None.
Proof.
  intros Hf. destruct (findEmpty b') as [[r c]|] eqn:E; [|done].
  apply findEmpty_Some in E as (Hg & Hr & Hc).
  specialize (Hf r c). case_decide as Hd.
  - destruct Hf as (n & _ & Hf). congruence.
  - destruct Hd. split; [congruence|done].
Qed.

Lemma try_from_post (rec : Board → Z → outcome (Board * Z)) (board : Board) r c :
  get board r c = Some Null → r < 9 → c < 9 →
  (∀ num s, 1 ≤ num ≤ 9 → (0 ≤ s ≤ 1)%Z →
     ∃ res, rec (put board r c (Num num)) s = Done res ∧
            backtrack_post (put board r c (Num num)) s res) →
  ∀ nums s, (∀ num, num ∈ nums → 1 ≤ num ≤ 9) → (0 ≤ s ≤ 1)%Z →
    ∃ res, Count.try_from rec r c nums board s = Done res ∧
           backtrack_post board s res.
Proof.
  intros Hnull Hr Hc Hrec nums.
  induction nums as [|num rest IH]; intros s Hnums Hs; simpl.
  - eexists. split; [done|]. unfold backtrack_post; simpl.
    split; [lia|]. split; [done|lia].
  - assert (∀ n, n ∈ rest → 1 ≤ n ≤ 9) as Hrest.
    { intros n Hn. apply Hnums. by apply list_elem_of_further. }
    destruct (Count.isValid board num (r, c)); [|by apply IH].
    destruct (Hrec num s) as ([board' s'] & -> & Hs' & Hsame & Hfull);
      [apply Hnums, list_elem_of_here|done|]. simpl in *.
    destruct (1 <? s')%Z eqn:Hcmp.
    + apply Z.ltb_lt in Hcmp. eexists. split; [done|].
      unfold backtrack_post; simpl. split; [lia|]. split; [lia|].
      intros _. eapply fills_put; eauto using list_elem_of_here.
    + apply Z.ltb_ge in Hcmp. rewrite (Hsame Hcmp).
      rewrite (put_restore board r c (Num num) Null Hnull).
      destruct (IH s') as (res & -> & Hs'' & Hsame' & Hfull'); [done|lia|].
      eexists. split; [done|]. unfold backtrack_post. split; [lia|]. done.
Qed.

Lemma backtrack_post_holds fuel :
  ∀ (board : Board) s, count_empty board < fuel → (0 ≤ s ≤ 1)%Z →
    ∃ res, Count.backtrack fuel board s = Done res ∧ backtrack_post board s res.
Proof.
  induction fuel as [|fuel IH]; intros board s Hlt Hs; [lia|].
  cbn [Count.backtrack].
  destruct (findEmpty board) as [[r c]|] eqn:Hfind.
  - pose proof (findEmpty_Some _ _ _ Hfind) as (Hnull & Hr & Hc).
    apply try_from_post; try done.
    + intros num s0 Hnum Hs0. apply IH; [|done].
      pose proof (count_empty_put board r c num Hfind). lia.
    + intros num Hnum. apply elem_of_seq in Hnum. lia.
  - eexists. split; [done|]. unfold backtrack_post; simpl.
    split; [lia|]. split; [done|]. intros _. by apply fills_refl.
Qed.

Lemma backtrack_full fuel (b : Board) s :
  findEmpty b = None → Count.backtrack (S fuel) b s = Done (b, (s + 1)%Z).
Proof. intros H. cbn [Count.backtrack]. by rewrite H. Qed.

(** C3: for every grid, [countSolutions] returns, and the count it
    returns is an integer from 0 to 2: never negative, never above the
    cap of 2. *)
Theorem countSolutions_range (b : Board) :
  ∃ b' k, countSolutions b = Done (b', k) ∧ (0 ≤ k ≤ 2)%Z.
Proof.
  destruct (backtrack_post_holds 82 b 0) as ([b' k] & Hrun & Hk & _).
  - pose proof (count_empty_le b). lia.
  - lia.
  - exists b', k. split; [done|]. cbn [fst snd] in Hk. lia.
Qed.

(** C9: [solve] terminates on every grid. The grid has at most 81 empty
    cells, the grid passed to a recursive call has strictly fewer empty
    cells than the grid of the call that makes it, and so a recursion depth
    of 81 calls below the first one (fuel 82) is always enough for [solve]
    to return. *)
Theorem solve_terminates {rng : Type} (shuffle : rng → list nat * rng)
    (g : rng) (b : Board) :
  count_empty b ≤ 81 ∧
  (∀ r c num, findEmpty (cloneBoard b) = Some (r, c) →
     count_empty (put (cloneBoard b) r c (Num num)) < count_empty b) ∧
  (∀ fuel, count_empty b < fuel → ∃ res, solve shuffle fuel g b = Done res) ∧
  ∃ res, solve shuffle 82 g b = Done res.
Proof.
  pose proof (count_empty_le b) as Hle.
  split; [done|]. split; [|split].
  - intros r c num. rewrite cloneBoard_id. apply count_empty_put.
  - intros fuel. apply solve_done.
  - apply solve_done. lia.
Qed.

(** ** The generator *)

Section Generator.

Context {rng : Type} (shuffle : rng → list nat * rng).
Context (random_int : nat → rng → nat * rng).

Lemma agrees_put_Null (puzzle solution : Board) r c :
  agrees puzzle solution → agrees (put puzzle r c Null) solution.
Proof.
  intros Hag r' c' v. rewrite get_put. case_decide; [congruence|apply Hag].
Qed.

Lemma put_Null_undo (puzzle : Board) r c :
  put (put puzzle r c Null) r c (default Null (get puzzle r c)) = puzzle.
Proof.
  destruct (get puzzle r c) as [v|] eqn:E; simpl.
  - by apply put_restore.
  - by rewrite !put_None by (by rewrite ?put_None).
Qed.

Lemma carve_sound (solution : Board) fuel :
  ∀ g (puzzle : Board) cellsToRemove puzzle' g',
    carve random_int fuel g puzzle cellsToRemove = Done (puzzle', g') →
    agrees puzzle solution →
    unique puzzle ∨ 0 < cellsToRemove →
    agrees puzzle' solution ∧ unique puzzle'.
Proof.
  induction fuel as [|fuel IH]; intros g puzzle n puzzle' g' Hrun Hag Hn.
  - simpl in Hrun. destruct (n =? 0) eqn:E; [|done].
    apply Nat.eqb_eq in E. injection Hrun as <- <-.
    split; [done|]. destruct Hn; [done|lia].
  - cbn [carve] in Hrun. destruct (n =? 0) eqn:E.
    { apply Nat.eqb_eq in E. injection Hrun as <- <-.
      split; [done|]. destruct Hn; [done|lia]. }
    apply Nat.eqb_neq in E.
    destruct (random_int 9 g) as [r g1].
    destruct (random_int 9 g1) as [c g2].
    destruct (negb (is_null (get puzzle r c))).
    + rewrite cloneBoard_id in Hrun.
      destruct (countSolutions (put puzzle r c Null)) as [|[b' k]] eqn:Hcount;
        [done|].
      destruct (k =? 1)%Z eqn:Hk.
      * apply Z.eqb_eq in Hk as ->.
        eapply IH; [done|by apply agrees_put_Null|].
        left. by exists b'.
      * rewrite put_Null_undo in Hrun.
        eapply IH; [done|done|]. right. lia.
    + eapply IH; [done|done|]. right. lia.
Qed.

(** C1: for every pair [{ puzzle, solution }] that [generateNewPuzzle]
    returns, each cell of the puzzle that is not empty holds the digit the
    solution holds at that coordinate, and [countSolutions] on the puzzle
    returns exactly 1. *)
Theorem generateNewPuzzle_sound fuel (g g' : rng) (puzzle solution : Board) :
  generateNewPuzzle shuffle random_int fuel g = Done (Returns puzzle solution, g') →
  agrees puzzle solution ∧ unique puzzle.
Proof.
  unfold generateNewPuzzle. intros Hrun.
  destruct (solve shuffle 82 g (cloneBoard emptyBoard))
    as [|[[sol|] g1]]; [done| |done].
  destruct (random_int (50 - 40 + 1) g1) as [x g2].
  destruct (carve random_int fuel g2 (cloneBoard sol) (x + 46))
    as [|[puzzle' g3]] eqn:Hcarve; [done|].
  injection Hrun as -> -> ->.
  rewrite cloneBoard_id in Hcarve.
  eapply carve_sound; [done| |right; lia].
  by intros r c v Hv _.
Qed.

End Generator.

(** ** The grids that [solve] builds *)

Lemma is_num_true o d : is_num o d = true ↔ o = Some (Num d).
Proof.
  destruct o as [[]|]; simpl; try (split; congruence).
  rewrite Nat.eqb_eq. split; congruence.
Qed.

Lemma is_num_false o d : is_num o d = false ↔ o ≠ Some (Num d).
Proof. rewrite <-is_num_true. by destruct (is_num o d). Qed.

Lemma boxStart_range i r : In i (seq (boxStart r) 3) ↔ i / 3 = r / 3.
Proof.
  rewrite in_seq. unfold boxStart.
  pose proof (Nat.div_mod_eq i 3). pose proof (Nat.div_mod_eq r 3).
  pose proof (Nat.mod_upper_bound i 3). pose proof (Nat.mod_upper_bound r 3).
  lia.
Qed.

Lemma in_seq_9 i : In i (seq 0 9) ↔ i < 9.
Proof. rewrite in_seq. lia. Qed.

Lemma peer_sym p q : peer p q → peer q p.
Proof. unfold peer, same_unit. intros [H Hne]. split; [|done]. intuition. Qed.

Lemma Solve_isValid_spec (b : Board) d r c :
  r < 9 → c < 9 →
  Solve.isValid b d (r, c) = true ↔
  ∀ q, q ∈ all_coords → peer (r, c) q → cell_at b q ≠ Some (Num d).
Proof.
  intros Hr Hc.
  unfold Solve.isValid. rewrite andb_true_iff, !forallb_forall. split.
  - intros [Hline Hbox] [r' c'] Hq [Hunit Hne].
    unfold cell_at, same_unit in *. cbn [fst snd] in *.
    apply elem_of_all_coords in Hq as [Hr' Hc'].
    apply is_num_false.
    destruct (is_num (get b r' c') d) eqn:E; [exfalso|done].
    destruct Hunit as [<-|[<-|[Hbr Hbc]]].
    + specialize (Hline c' (proj2 (in_seq_9 c') Hc')).
      rewrite E in Hline.
      rewrite (proj2 (Nat.eqb_neq c' c)) in Hline by congruence.
      done.
    + specialize (Hline r' (proj2 (in_seq_9 r') Hr')).
      rewrite E in Hline.
      rewrite (proj2 (Nat.eqb_neq r' r)) in Hline by congruence.
      by rewrite andb_comm in Hline.
    + specialize (Hbox r' (proj2 (boxStart_range r' r) (eq_sym Hbr))).
      rewrite forallb_forall in Hbox.
      specialize (Hbox c' (proj2 (boxStart_range c' c) (eq_sym Hbc))).
      rewrite E in Hbox.
      destruct (r' =? r) eqn:Er, (c' =? c) eqn:Ec; try done.
      apply Nat.eqb_eq in Er, Ec. congruence.
  - intros H. split.
    + intros i Hi. apply in_seq_9 in Hi. apply andb_true_iff. split.
      * destruct (i =? c) eqn:Ei; [by rewrite andb_comm|].
        apply Nat.eqb_neq in Ei.
        rewrite (proj2 (is_num_false _ _)); [done|].
        apply (H (r, i)); [by apply elem_of_all_coords|].
        split; [by left|congruence].
      * destruct (i =? r) eqn:Ei; [by rewrite andb_comm|].
        apply Nat.eqb_neq in Ei.
        rewrite (proj2 (is_num_false _ _)); [done|].
        apply (H (i, c)); [by apply elem_of_all_coords|].
        split; [by right; left|congruence].
    + intros i Hi. apply forallb_forall. intros j Hj.
      apply boxStart_range in Hi, Hj.
      destruct (decide ((i, j) = (r, c))) as [[= -> ->]|Hne].
      { rewrite !Nat.eqb_refl. by rewrite andb_comm. }
      rewrite (proj2 (is_num_false _ _)); [done|].
      apply (H (i, j)).
      * apply elem_of_all_coords.
        pose proof (Nat.div_mod_eq i 3). pose proof (Nat.div_mod_eq r 3).
        pose proof (Nat.mod_upper_bound i 3).
        pose proof (Nat.div_mod_eq j 3). pose proof (Nat.div_mod_eq c 3).
        pose proof (Nat.mod_upper_bound j 3).
        lia.
      * split; [right; right; cbn [fst snd]; split; congruence|congruence].
Qed.

Lemma plain_put (b : Board) r c d :
  plain b → 1 ≤ d ≤ 9 → plain (put b r c (Num d)).
Proof.
  intros Hp Hd [r' c'] Hin. unfold cell_at; simpl. rewrite get_put.
  case_decide; [right; eauto|]. by apply (Hp (r', c')).
Qed.

Lemma consistent_put (b : Board) r c d :
  consistent b → get b r c = Some Null → r < 9 → c < 9 →
  Solve.isValid (put b r c (Num d)) d (r, c) = true →
  consistent (put b r c (Num d)).
Proof.
  intros Hcons Hnull Hr Hc Hvalid.
  rewrite Solve_isValid_spec in Hvalid by done.
  assert (is_Some (get b r c)) as Hsome by (rewrite Hnull; eauto).
  intros p q d' Hp Hq Hpeer Hpd Hqd.
  destruct (decide (p = (r, c))) as [->|Hpne].
  - unfold cell_at in Hpd; simpl in Hpd. rewrite get_put_eq in Hpd by done.
    injection Hpd as <-. by apply (Hvalid q).
  - destruct (decide (q = (r, c))) as [->|Hqne].
    + unfold cell_at in Hqd; simpl in Hqd. rewrite get_put_eq in Hqd by done.
      injection Hqd as <-. by apply (Hvalid p); [|apply peer_sym|].
    + destruct p as [pr pc], q as [qr qc]. unfold cell_at in *; simpl in *.
      rewrite get_put_ne in Hpd, Hqd by done.
      by apply (Hcons (pr, pc) (qr, qc) d').
Qed.

Lemma finished_digit (b : Board) p :
  finished b → p ∈ all_coords →
  ∃ d, 1 ≤ d ≤ 9 ∧ cell_at b p = Some (Num d).
Proof.
  intros (Hplain & _ & Hfull) Hp.
  destruct (Hplain p Hp) as [Hnull|?]; [|done].
  destruct p as [r c]. apply elem_of_all_coords in Hp as [Hr Hc].
  by destruct (findEmpty_None b r c).
Qed.

Section SolveSound.

Context {rng : Type} (shuffle : rng → list nat * rng).

(** Whatever the random comparisons, sorting the array of the nine
    digits leaves the nine digits, in some order. *)
Hypothesis shuffle_perm : ∀ g, (shuffle g).1 ≡ₚ seq 1 9.

Lemma try_numbers_sound (rec : rng → Board → outcome (option Board * rng))
    (board : Board) r c :
  (∀ g (b res : Board) g',
     plain b → consistent b → rec g b = Done (Some res, g') → finished res) →
  get board r c = Some Null → r < 9 → c < 9 →
  plain board → consistent board →
  ∀ numbers g (res : Board) g',
    (∀ n, n ∈ numbers → 1 ≤ n ≤ 9) →
    try_numbers rec r c numbers g board = Done (Some res, g') →
    finished res.
Proof.
  intros Hrec Hnull Hr Hc Hplain Hcons numbers.
  induction numbers as [|num rest IH]; intros g res g' Hnums Hrun;
    simpl in Hrun; [done|].
  assert (∀ n, n ∈ rest → 1 ≤ n ≤ 9) as Hrest.
  { intros n Hn. apply Hnums. by apply list_elem_of_further. }
  rewrite (put_restore board r c (Num num) Null Hnull) in Hrun.
  destruct (Solve.isValid (put board r c (Num num)) num (r, c)) eqn:Hvalid;
    [|by eapply IH].
  destruct (rec g (put board r c (Num num))) as [|[[solved|] g1]] eqn:Hcall;
    [done| |by eapply IH].
  injection Hrun as -> ->.
  eapply Hrec; [| |done].
  - apply plain_put; [done|]. apply Hnums, list_elem_of_here.
  - by apply consistent_put.
Qed.

Lemma solve_sound fuel :
  ∀ g (b res : Board) g',
    plain b → consistent b → solve shuffle fuel g b = Done (Some res, g') →
    finished res.
Proof.
  induction fuel as [|fuel IH]; intros g b res g' Hplain Hcons Hrun; [done|].
  simpl in Hrun. rewrite cloneBoard_id in Hrun.
  destruct (findEmpty b) as [[r c]|] eqn:Hfind.
  - pose proof (findEmpty_Some _ _ _ Hfind) as (Hnull & Hr & Hc).
    pose proof (shuffle_perm g) as Hperm.
    destruct (shuffle g) as [numbers g1]. cbn [fst] in Hperm.
    eapply (try_numbers_sound (solve shuffle fuel)); try done.
    intros n Hn. rewrite Hperm in Hn. apply elem_of_seq in Hn. lia.
  - injection Hrun as <- <-. done.
Qed.

Lemma agrees_put (b s : Board) r c d :
  agrees b s → get s r c = Some (Num d) → agrees (put b r c (Num d)) s.
Proof.
  intros Hag Hs r' c' v. rewrite get_put. case_decide as Hd; [|apply Hag].
  destruct Hd as [[= <- <-] _]. by intros [= <-] _.
Qed.

Lemma valid_towards (b s : Board) r c d :
  agrees b s → consistent s → r < 9 → c < 9 → get b r c = Some Null →
  get s r c = Some (Num d) →
  Solve.isValid (put b r c (Num d)) d (r, c) = true.
Proof.
  intros Hag Hcons Hr Hc Hnull Hs. apply Solve_isValid_spec; [done|done|].
  intros [r' c'] Hq Hpeer Hd. unfold cell_at in Hd; cbn [fst snd] in Hd.
  rewrite get_put_ne in Hd by (by destruct Hpeer).
  apply (Hcons (r, c) (r', c') d); try done.
  - by apply elem_of_all_coords.
  - unfold cell_at; cbn [fst snd]. by apply (Hag r' c').
Qed.

Lemma try_numbers_complete (rec : rng → Board → outcome (option Board * rng))
    (board s : Board) r c d :
  (∀ g num, ∃ res, rec g (put board r c (Num num)) = Done res) →
  (∀ g, ∃ res g', rec g (put board r c (Num d)) = Done (Some res, g')) →
  agrees board s → consistent s → r < 9 → c < 9 →
  get board r c = Some Null → get s r c = Some (Num d) →
  ∀ numbers g, d ∈ numbers →
    ∃ res g', try_numbers rec r c numbers g board = Done (Some res, g').
Proof.
  intros Hdone Hrec Hag Hcons Hr Hc Hnull Hs numbers.
  induction numbers as [|num rest IH]; intros g Hin; simpl.
  { by apply elem_of_nil in Hin. }
  rewrite (put_restore board r c (Num num) Null Hnull).
  destruct (decide (num = d)) as [->|Hne].
  - rewrite (valid_towards board s) by done.
    destruct (Hrec g) as (res & g' & ->). eauto.
  - apply elem_of_cons in Hin as [?|Hin]; [done|].
    destruct (Solve.isValid _ _ _); [|by apply IH].
    destruct (Hdone g num) as [[[res|] g'] ->]; [eauto|by apply IH].
Qed.

Lemma solve_complete (s : Board) fuel :
  finished s →
  ∀ g (b : Board), count_empty b < fuel → agrees b s →
    ∃ res g', solve shuffle fuel g b = Done (Some res, g').
Proof.
  intros Hfin. induction fuel as [|fuel IH]; intros g b Hlt Hag; [lia|].
  simpl. rewrite cloneBoard_id.
  destruct (findEmpty b) as [[r c]|] eqn:Hfind; [|eauto].
  pose proof (findEmpty_Some _ _ _ Hfind) as (Hnull & Hr & Hc).
  pose proof (shuffle_perm g) as Hperm.
  destruct (shuffle g) as [numbers g1]. cbn [fst] in Hperm.
  destruct (finished_digit s (r, c) Hfin) as (d & Hd & Hs);
    [by apply elem_of_all_coords|].
  unfold cell_at in Hs; cbn [fst snd] in Hs.
  pose proof (count_empty_put b r c) as Hless.
  apply (try_numbers_complete _ b s r c d); try done.
  - intros g2 num. apply solve_done. specialize (Hless num Hfind). lia.
  - intros g2. apply IH; [specialize (Hless d Hfind); lia|].
    by apply agrees_put.
  - by destruct Hfin as (_ & ? & _).
  - rewrite Hperm. apply elem_of_seq. lia.
Qed.

End SolveSound.

Lemma unit_complete (b : Board) (cells : list Coords) :
  finished b → NoDup cells → length cells = 9 →
  (∀ p, p ∈ cells → p ∈ all_coords) →
  (∀ p q, p ∈ cells → q ∈ cells → same_unit p q) →
  complete_unit b cells.
Proof.
  intros Hfin Hnodup Hlen Hin Hunit. unfold complete_unit.
  apply submseteq_length_Permutation.
  - apply NoDup_submseteq.
    + apply NoDup_fmap_2_strong; [|done].
      intros p q Hp Hq Heq.
      destruct (decide (p = q)) as [|Hne]; [done|exfalso].
      destruct (finished_digit b p Hfin (Hin p Hp)) as (d & _ & Hd).
      destruct Hfin as (_ & Hcons & _).
      apply (Hcons p q d); auto. { by split; auto. } congruence.
    + intros x Hx. apply list_elem_of_fmap in Hx as (p & -> & Hp).
      destruct (finished_digit b p Hfin (Hin p Hp)) as (d & Hd & ->).
      apply list_elem_of_fmap. exists d. split; [done|].
      apply elem_of_seq. lia.
  - rewrite !length_fmap, Hlen. done.
Qed.

Lemma row_cells_unit k : k < 9 →
  NoDup (row_cells k) ∧ length (row_cells k) = 9 ∧
  (∀ p, p ∈ row_cells k → p ∈ all_coords) ∧
  (∀ p q, p ∈ row_cells k → q ∈ row_cells k → same_unit p q).
Proof.
  intros Hk. unfold row_cells. split; [|split; [|split]].
  - apply NoDup_fmap_2; [|apply NoDup_seq]. intros ?? [=]. done.
  - by rewrite length_fmap, length_seq.
  - intros p (c & -> & Hc)%list_elem_of_fmap. apply elem_of_seq in Hc.
    apply elem_of_all_coords. lia.
  - intros p q (c & -> & _)%list_elem_of_fmap (c' & -> & _)%list_elem_of_fmap.
    by left.
Qed.

Lemma col_cells_unit k : k < 9 →
  NoDup (col_cells k) ∧ length (col_cells k) = 9 ∧
  (∀ p, p ∈ col_cells k → p ∈ all_coords) ∧
  (∀ p q, p ∈ col_cells k → q ∈ col_cells k → same_unit p q).
Proof.
  intros Hk. unfold col_cells. split; [|split; [|split]].
  - apply NoDup_fmap_2; [|apply NoDup_seq]. intros ?? [=]. done.
  - by rewrite length_fmap, length_seq.
  - intros p (c & -> & Hc)%list_elem_of_fmap. apply elem_of_seq in Hc.
    apply elem_of_all_coords. lia.
  - intros p q (c & -> & _)%list_elem_of_fmap (c' & -> & _)%list_elem_of_fmap.
    by right; left.
Qed.

Lemma box_cells_unit k : k < 9 →
  NoDup (box_cells k) ∧ length (box_cells k) = 9 ∧
  (∀ p, p ∈ box_cells k → p ∈ all_coords) ∧
  (∀ p q, p ∈ box_cells k → q ∈ box_cells k → same_unit p q).
Proof.
  intros Hk.
  assert (Forall (λ k, NoDup (box_cells k) ∧ length (box_cells k) = 9 ∧
    Forall (λ p, p ∈ all_coords) (box_cells k) ∧
    Forall (λ p, Forall (λ q, same_unit p q) (box_cells k)) (box_cells k))
    (seq 0 9)) as Hall.
  { apply (bool_decide_unpack _). by vm_compute. }
  rewrite Forall_forall in Hall.
  destruct (Hall k) as (H1 & H2 & H3 & H4); [apply elem_of_seq; lia|].
  rewrite Forall_forall in H3, H4.
  split; [done|]. split; [done|]. split; [done|].
  intros p q Hp Hq. specialize (H4 p Hp). rewrite Forall_forall in H4. auto.
Qed.

Lemma get_emptyBoard r c : r < 9 → c < 9 → get emptyBoard r c = Some Null.
Proof.
  intros Hr Hc. unfold get, emptyBoard.
  rewrite lookup_replicate_2 by done. by rewrite lookup_replicate_2.
Qed.

Lemma get_emptyBoard_inv r c v : get emptyBoard r c = Some v → v = Null.
Proof.
  unfold get, emptyBoard. intros H.
  destruct (replicate 9 (replicate 9 Null) !! r) as [row|] eqn:Hrow; [|done].
  apply lookup_replicate in Hrow as [-> _].
  by apply lookup_replicate in H as [-> _].
Qed.

Lemma plain_emptyBoard : plain emptyBoard.
Proof.
  intros [r c] Hp. left. apply elem_of_all_coords in Hp as [Hr Hc].
  by apply get_emptyBoard.
Qed.

Lemma consistent_emptyBoard : consistent emptyBoard.
Proof.
  intros [r c] q d Hp _ _. apply elem_of_all_coords in Hp as [Hr Hc].
  unfold cell_at; cbn [fst snd]. by rewrite get_emptyBoard.
Qed.

Lemma agrees_emptyBoard (s : Board) : agrees emptyBoard s.
Proof. intros r c v Hv Hne. by apply get_emptyBoard_inv in Hv. Qed.

(** One grid that satisfies the rules is enough to know that the empty
    grid can be completed. *)
Lemma sample_solution_finished : finished sample_solution.
Proof.
  apply (solve_sound fixed_shuffle (λ g, reflexivity _) 82 [] emptyBoard
           sample_solution []).
  - apply plain_emptyBoard.
  - apply consistent_emptyBoard.
  - by vm_compute.
Qed.

(** C2: whatever the random digit orders, [solve] on the empty 9×9 grid
    returns a grid as soon as it may nest 82 calls, and every grid that it
    returns for the empty grid holds each of the nine digits exactly once in
    every row, in every column and in every 3×3 box. *)
Theorem solve_empty_solved {rng : Type} (shuffle : rng → list nat * rng)
    (shuffle_perm : ∀ g, (shuffle g).1 ≡ₚ seq 1 9) fuel (g : rng) :
  (81 < fuel →
     ∃ res g', solve shuffle fuel g emptyBoard = Done (Some res, g')) ∧
  (∀ (res : Board) g',
     solve shuffle fuel g emptyBoard = Done (Some res, g') → solved_grid res).
Proof.
  split.
  - intros Hfuel.
    apply (solve_complete shuffle shuffle_perm sample_solution).
    + apply sample_solution_finished.
    + pose proof (count_empty_le emptyBoard). lia.
    + apply agrees_emptyBoard.
  - intros res g' Hrun.
    assert (finished res) as Hfin.
    { eapply (solve_sound shuffle shuffle_perm); [| |done].
      - apply plain_emptyBoard.
      - apply consistent_emptyBoard. }
    intros k Hk.
    destruct (row_cells_unit k Hk) as (? & ? & ? & ?).
    destruct (col_cells_unit k Hk) as (? & ? & ? & ?).
    destruct (box_cells_unit k Hk) as (? & ? & ? & ?).
    split; [|split]; by apply unit_complete.
Qed.

(** ** Candidate marks against placed digits *)


Lemma pencilConflict_scan (b : Board) row col num :
  row < 9 → col < 9 →
  pencilConflict b row col num = true ↔
  ∃ q, q ∈ all_coords ∧ same_unit (row, col) q ∧ cell_at b q = Some (Num num).
Proof.
  intros Hrow Hcol. unfold pencilConflict.
  rewrite orb_true_iff, !existsb_exists. split.
  - intros [(i & Hi & H)|(r & Hr & H)].
    + apply in_seq_9 in Hi. apply orb_true_iff in H as [H|H];
        apply is_num_true in H.
      * exists (row, i). split; [by apply elem_of_all_coords|]. by split; [left|].
      * exists (i, col). split; [by apply elem_of_all_coords|].
        by split; [right; left|].
    + apply existsb_exists in H as (c & Hc & H). apply is_num_true in H.
      apply boxStart_range in Hr, Hc.
      exists (r, c). split; [|by split; [right; right|]].
      apply elem_of_all_coords.
      pose proof (Nat.div_mod_eq r 3). pose proof (Nat.div_mod_eq row 3).
      pose proof (Nat.mod_upper_bound r 3).
      pose proof (Nat.div_mod_eq c 3). pose proof (Nat.div_mod_eq col 3).
      pose proof (Nat.mod_upper_bound c 3). lia.
  - intros ([r c] & Hin & Hunit & H). apply elem_of_all_coords in Hin as [Hr Hc].
    unfold cell_at in H; cbn [fst snd] in H. apply is_num_true in H.
    destruct Hunit as [Hu|[Hu|[Hu1 Hu2]]]; cbn [fst snd] in *.
    + subst r. left. exists c. split; [by apply in_seq_9|]. by rewrite H.
    + subst c. left. exists r. split; [by apply in_seq_9|].
      rewrite H. by rewrite orb_comm.
    + right. exists r. split; [by apply boxStart_range|].
      apply existsb_exists. exists c. split; [by apply boxStart_range|done].
Qed.


(** ** The board during play: reading the mutations cell by cell *)

Lemma shape_put (b : Board) r c v : shape (put b r c v) = shape b.
Proof.
  unfold shape, put. destruct (b !! r) as [row|] eqn:Hr; [|done].
  rewrite list_fmap_insert, length_insert.
  apply list_insert_id. by rewrite list_lookup_fmap, Hr.
Qed.

Lemma board_ext (b1 b2 : Board) :
  shape b1 = shape b2 → (∀ r c, get b1 r c = get b2 r c) → b1 = b2.
Proof.
  intros Hshape Hget. apply list_eq. intros r.
  assert (length <$> b1 !! r = length <$> b2 !! r) as Hlen.
  { by rewrite <-!list_lookup_fmap; fold (shape b1) (shape b2); rewrite Hshape. }
  pose proof (Hget r) as Hrow. unfold get in Hrow.
  destruct (b1 !! r) as [row1|], (b2 !! r) as [row2|]; try done.
  f_equal. by apply list_eq.
Qed.

Lemma put_same (b : Board) r c v : get b r c = Some v → put b r c v = b.
Proof.
  intros H. apply board_ext; [apply shape_put|].
  intros r' c'. rewrite get_put. case_decide as Hd; [|done].
  by destruct Hd as [[= <- <-] _].
Qed.

Lemma get_put_is_Some (b : Board) r c v r' c' :
  is_Some (get (put b r c v) r' c') ↔ is_Some (get b r' c').
Proof.
  rewrite get_put. case_decide as Hd; [|done].
  destruct Hd as [[= <- <-] H]. split; eauto.
Qed.

Lemma prune_idemp v o : prune v (prune v o) = prune v o.
Proof.
  destruct o as [[| |s]|]; simpl; try done. do 2 f_equal.
  apply set_eq. intros x. rewrite !elem_of_difference. tauto.
Qed.

Lemma prune_Num v o d : o = Some (Num d) → prune v o = Some (Num d).
Proof. by intros ->. Qed.

Lemma pruned_refl v (b : Board) : pruned v b b.
Proof. split; [done|]. by left. Qed.

Lemma pruned_trans v (b1 b2 b3 : Board) :
  pruned v b1 b2 → pruned v b2 b3 → pruned v b1 b3.
Proof.
  intros [Hs1 H1] [Hs2 H2]. split; [congruence|].
  intros r c. destruct (H1 r c) as [E1|E1], (H2 r c) as [E2|E2];
    rewrite E2, E1, ?prune_idemp; auto.
Qed.

Lemma get_delete_mark (b : Board) r c v r' c' :
  get (delete_mark b r c v) r' c' =
    if decide ((r, c) = (r', c')) then prune v (get b r' c') else get b r' c'.
Proof.
  unfold delete_mark.
  destruct (get b r c) as [[| |s]|] eqn:E;
    try (case_decide as Hd; [injection Hd as <- <-; by rewrite E|done]).
  rewrite get_put. rewrite E.
  destruct (decide ((r, c) = (r', c'))) as [[= <- <-]|Hne].
  - rewrite decide_True by eauto. by rewrite E.
  - by rewrite decide_False by (by intros [? _]).
Qed.

Lemma pruned_delete_mark v (b : Board) r c : pruned v b (delete_mark b r c v).
Proof.
  split.
  - unfold delete_mark. destruct (get b r c) as [[| |s]|]; try done.
    apply shape_put.
  - intros r' c'. rewrite get_delete_mark. case_decide; auto.
Qed.

Lemma fold_left_pruned {A} v (f : Board → A → Board) (l : list A) :
  (∀ b x, pruned v b (f b x)) → ∀ b, pruned v b (fold_left f l b).
Proof.
  intros Hf. induction l as [|x l IH]; intros b; simpl; [apply pruned_refl|].
  eapply pruned_trans; [apply Hf|apply IH].
Qed.

Lemma pruned_removeCandidates (b : Board) row col v :
  pruned v b (removeCandidates b row col v).
Proof.
  unfold removeCandidates. eapply pruned_trans.
  - apply (fold_left_pruned (A := nat)). intros b' i.
    eapply pruned_trans; apply pruned_delete_mark.
  - apply (fold_left_pruned (A := nat)). intros b' r.
    apply (fold_left_pruned (A := nat)). intros b'' c. apply pruned_delete_mark.
Qed.

Lemma delete_mark_unmarked (b : Board) r c v :
  has_mark (get b r c) v = false → delete_mark b r c v = b.
Proof.
  unfold delete_mark. destruct (get b r c) as [[| |s]|] eqn:E; try done.
  simpl. intros Hm. apply bool_decide_eq_false in Hm.
  apply put_same. rewrite E. do 2 f_equal.
  apply set_eq. intros x. rewrite elem_of_difference, elem_of_singleton.
  split; [|tauto]. intros Hx. split; [done|]. by intros ->.
Qed.

Lemma fold_left_fixed {A B} (f : A → B → A) (l : list B) (a : A) :
  (∀ x, x ∈ l → f a x = a) → fold_left f l a = a.
Proof.
  induction l as [|x l IH]; intros Hf; simpl; [done|].
  rewrite Hf by apply list_elem_of_here.
  apply IH. intros y Hy. apply Hf. by apply list_elem_of_further.
Qed.

Lemma removeCandidates_unmarked (b : Board) row col v :
  (∀ q, same_unit (row, col) q → has_mark (cell_at b q) v = false) →
  removeCandidates b row col v = b.
Proof.
  intros Hun. unfold removeCandidates.
  rewrite (fold_left_fixed _ (seq 0 9) b).
  - apply fold_left_fixed. intros r Hr. apply fold_left_fixed. intros c Hc.
    apply list_elem_of_In, boxStart_range in Hr, Hc.
    apply delete_mark_unmarked. apply (Hun (r, c)).
    right; right. by split.
  - intros i _.
    rewrite (delete_mark_unmarked b row i) by (apply (Hun (row, i)); by left).
    apply delete_mark_unmarked. apply (Hun (i, col)). by right; left.
Qed.

Section PlayLemmas.

Variable puzzle : Board.

Lemma shape_write_cells v (selected : list Coords) :
  ∀ b : Board, shape (write_cells puzzle v b selected) = shape b.
Proof.
  unfold write_cells.
  induction selected as [|[r c] sel IH]; intros b; simpl; [done|].
  rewrite IH. destruct (isGiven puzzle r c); [done|apply shape_put].
Qed.

Lemma get_write_cells v (selected : list Coords) :
  ∀ (b : Board) p,
    cell_at (write_cells puzzle v b selected) p =
      if decide (p ∈ selected ∧ isGiven puzzle p.1 p.2 = false ∧
                 is_Some (cell_at b p))
      then Some v else cell_at b p.
Proof.
  unfold write_cells.
  induction selected as [|[r c] sel IH]; intros b [r' c']; cbn [fold_left].
  { rewrite decide_False; [done|]. intros [H _]. by apply elem_of_nil in H. }
  rewrite IH. unfold cell_at; cbn [fst snd].
  destruct (isGiven puzzle r c) eqn:Hg.
  - apply decide_ext. split.
    + intros (Hin & ? & ?). split; [by apply list_elem_of_further|done].
    + intros (Hin & ? & ?).
      apply elem_of_cons in Hin as [[= -> ->]|Hin]; [congruence|done].
  - destruct (decide _) as [Hd|Hd]; destruct (decide _) as [Hd'|Hd'];
      [done| | |].
    + destruct Hd', Hd as (? & ? & ?%get_put_is_Some).
      split; [by apply list_elem_of_further|done].
    + destruct Hd' as (Hin & ? & Hs).
      apply elem_of_cons in Hin as [[= -> ->]|Hin]; [by apply get_put_eq|].
      destruct Hd. split; [done|]. split; [done|]. by apply get_put_is_Some.
    + rewrite get_put. case_decide as He; [|done].
      destruct He as [[= <- <-] Hs]. destruct Hd'.
      split; [apply list_elem_of_here|done].
Qed.

Lemma clear_cells_write (selected : list Coords) :
  ∀ b : Board, clear_cells puzzle b selected = write_cells puzzle Null b selected.
Proof.
  unfold clear_cells, write_cells.
  induction selected as [|[r c] sel IH]; intros b; simpl; [done|].
  rewrite IH. by destruct (isGiven puzzle r c).
Qed.

Lemma numberExistsInAll_spec (b : Board) (selected : list Coords) digit :
  forallb (fun '(r, c) => is_num (get b r c) digit) selected = true ↔
  ∀ p, p ∈ selected → cell_at b p = Some (Num digit).
Proof.
  rewrite forallb_forall. split.
  - intros H [r c] Hp. apply is_num_true. apply (H (r, c)).
    by apply list_elem_of_In.
  - intros H [r c] Hp. apply is_num_true. apply (H (r, c)).
    by apply list_elem_of_In.
Qed.

Lemma place_digit_off (b : Board) (selected : list Coords) digit :
  (∀ p, p ∈ selected → cell_at b p = Some (Num digit)) →
  place_digit puzzle b selected digit = write_cells puzzle Null b selected.
Proof.
  intros Hall. apply numberExistsInAll_spec in Hall.
  unfold place_digit. rewrite Hall. done.
Qed.

Lemma place_digit_on (b : Board) (selected : list Coords) digit :
  ¬ (∀ p, p ∈ selected → cell_at b p = Some (Num digit)) →
  place_digit puzzle b selected digit =
    fold_left (fun b '(r, c) =>
      if isGiven puzzle r c then b
      else removeCandidates (put b r c (Num digit)) r c digit) selected b.
Proof.
  intros Hall. rewrite <-numberExistsInAll_spec in Hall.
  apply not_true_is_false in Hall.
  unfold place_digit. rewrite Hall. done.
Qed.

End PlayLemmas.

(** ** Given cells *)

Lemma fold_left_preserves {A B} (P : A → Prop) (f : A → B → A) (l : list B) :
  (∀ a x, P a → P (f a x)) → ∀ a, P a → P (fold_left f l a).
Proof.
  intros Hf. induction l as [|x l IH]; intros a Ha; simpl; [done|].
  by apply IH, Hf.
Qed.

Lemma pruned_Num v (b b' : Board) r c d :
  pruned v b b' → get b r c = Some (Num d) → get b' r c = Some (Num d).
Proof. intros [_ H] Hg. destruct (H r c) as [->| ->]; by rewrite Hg. Qed.

Lemma pruned_is_Some v (b b' : Board) r c :
  pruned v b b' → is_Some (get b' r c) ↔ is_Some (get b r c).
Proof.
  intros [_ H]. destruct (H r c) as [->| ->]; [done|].
  by destruct (get b r c) as [[| |s]|].
Qed.

Section GivenCells.

Variables puzzle solution : Board.

Lemma isGiven_Num r c d : get puzzle r c = Some (Num d) → isGiven puzzle r c = true.
Proof. unfold isGiven. by intros ->. Qed.

Lemma givens_kept_put (b : Board) r c v :
  isGiven puzzle r c = false → givens_kept puzzle b →
  givens_kept puzzle (put b r c v).
Proof.
  intros Hg Hk r' c' d Hp. rewrite get_put_ne; [by apply Hk|].
  intros [= -> ->]. apply isGiven_Num in Hp. congruence.
Qed.

Lemma givens_kept_clear_cells (b : Board) selected :
  givens_kept puzzle b → givens_kept puzzle (clear_cells puzzle b selected).
Proof.
  apply fold_left_preserves. intros b' [r c] Hk.
  destruct (isGiven puzzle r c) eqn:Hg; simpl; [done|].
  by apply givens_kept_put.
Qed.

Lemma givens_kept_toggle_candidate (b : Board) selected digit :
  givens_kept puzzle b →
  givens_kept puzzle (toggle_candidate puzzle b selected digit).
Proof.
  apply fold_left_preserves. intros b' [r c] Hk.
  destruct (isGiven puzzle r c) eqn:Hg; [done|].
  by apply givens_kept_put.
Qed.

Lemma givens_kept_place_digit (b : Board) selected digit :
  givens_kept puzzle b →
  givens_kept puzzle (place_digit puzzle b selected digit).
Proof.
  unfold place_digit.
  generalize (forallb (fun '(r, c) => is_num (get b r c) digit) selected).
  intros numberExistsInAll.
  apply fold_left_preserves. intros b' [r c] Hk.
  destruct (isGiven puzzle r c) eqn:Hg; [done|].
  destruct numberExistsInAll; [by apply givens_kept_put|].
  intros r' c' d Hp.
  eapply pruned_Num; [apply pruned_removeCandidates|].
  by apply givens_kept_put.
Qed.

Lemma givens_kept_onBoardKeyDown st e :
  givens_kept puzzle (board st) →
  givens_kept puzzle (board (onBoardKeyDown puzzle solution st e)).
Proof.
  intros Hk. unfold onBoardKeyDown.
  destruct (completed st); [done|].
  destruct (length (selectedCells st) =? 0); [done|].
  rewrite cloneBoard_id.
  destruct (key e) as [| |[digit|]]; simpl;
    try by apply givens_kept_clear_cells.
  - destruct ((digit <? 1) || (9 <? digit)); [done|].
    assert (givens_kept puzzle
      (if pencilMode st || ctrlKey e || metaKey e
       then toggle_candidate puzzle (board st) (selectedCells st) digit
       else place_digit puzzle (board st) (selectedCells st) digit)) as Hk'.
    { destruct (pencilMode st || ctrlKey e || metaKey e);
        [by apply givens_kept_toggle_candidate|by apply givens_kept_place_digit]. }
    by destruct (isPuzzleCompleted solution _).
  - done.
Qed.

(** C8: in every state that a session reaches from its start by the
    player's actions (selecting cells, switching the pencil mode, and the
    key presses that place a digit, toggle a candidate mark or clear),
    every cell that holds a digit in the puzzle still holds that digit on
    the board. *)
Theorem given_cells_immutable st :
  reachable puzzle solution st →
  ∀ r c d, get puzzle r c = Some (Num d) → get (board st) r c = Some (Num d).
Proof.
  induction 1 as [|st a Hreach IH].
  - simpl. by rewrite cloneBoard_id.
  - destruct a as [cells| |e]; simpl; try done.
    by apply givens_kept_onBoardKeyDown.
Qed.

End GivenCells.

(** ** Placing a digit *)

Section PlaceDigit.

Variable puzzle : Board.

Lemma place_step_is_Some digit (b : Board) rc p :
  is_Some (cell_at (place_step puzzle digit b rc) p) ↔ is_Some (cell_at b p).
Proof.
  destruct rc as [r c], p as [r' c']. unfold place_step, cell_at; simpl.
  destruct (isGiven puzzle r c); [done|].
  rewrite (pruned_is_Some digit (put b r c (Num digit)))
    by apply pruned_removeCandidates.
  apply get_put_is_Some.
Qed.

Lemma place_step_keeps digit (b : Board) rc p :
  cell_at b p = Some (Num digit) →
  cell_at (place_step puzzle digit b rc) p = Some (Num digit).
Proof.
  destruct rc as [r c], p as [r' c']. unfold place_step, cell_at; simpl.
  intros Hp. destruct (isGiven puzzle r c); [done|].
  eapply pruned_Num; [apply pruned_removeCandidates|].
  rewrite get_put. by case_decide.
Qed.

Lemma place_step_sets digit (b : Board) p :
  isGiven puzzle p.1 p.2 = false → is_Some (cell_at b p) →
  cell_at (place_step puzzle digit b p) p = Some (Num digit).
Proof.
  destruct p as [r c]. unfold place_step, cell_at; simpl.
  intros -> Hs.
  eapply pruned_Num; [apply pruned_removeCandidates|].
  by apply get_put_eq.
Qed.

Lemma place_steps_selected digit (selected : list Coords) :
  ∀ (b : Board) p,
    p ∈ selected → isGiven puzzle p.1 p.2 = false → is_Some (cell_at b p) →
    cell_at (fold_left (place_step puzzle digit) selected b) p = Some (Num digit).
Proof.
  induction selected as [|x sel IH]; intros b p Hin Hg Hs; simpl.
  { by apply elem_of_nil in Hin. }
  destruct (decide (p = x)) as [<-|Hne].
  - apply (fold_left_preserves (λ b, cell_at b p = Some (Num digit))).
    + intros b' y. apply place_step_keeps.
    + by apply place_step_sets.
  - apply elem_of_cons in Hin as [?|Hin]; [done|].
    apply IH; [done|done|]. by apply place_step_is_Some.
Qed.

Lemma place_digit_steps (b : Board) (selected : list Coords) digit :
  ¬ (∀ p, p ∈ selected → cell_at b p = Some (Num digit)) →
  place_digit puzzle b selected digit = fold_left (place_step puzzle digit) selected b.
Proof.
  intros H. rewrite place_digit_on by done.
  generalize b. clear. induction selected as [|[r c] sel IH]; intros b;
    simpl; [done|]. by rewrite IH.
Qed.

(** C7, as the code has it: the toggle-off is decided over every
    selected cell, given cells included. When every selected cell holds
    the digit, the digit branch does what the clear does: each selected
    cell that is not given becomes empty. Otherwise each selected cell
    that is not given holds the digit afterwards. *)
Theorem place_digit_toggle_off (b : Board) (selected : list Coords) digit :
  ((∀ p, p ∈ selected → cell_at b p = Some (Num digit)) →
     place_digit puzzle b selected digit = clear_cells puzzle b selected ∧
     ∀ p, p ∈ selected → isGiven puzzle p.1 p.2 = false →
       cell_at (place_digit puzzle b selected digit) p = Some Null) ∧
  (¬ (∀ p, p ∈ selected → cell_at b p = Some (Num digit)) →
     ∀ p, p ∈ selected → isGiven puzzle p.1 p.2 = false →
       is_Some (cell_at b p) →
       cell_at (place_digit puzzle b selected digit) p = Some (Num digit)).
Proof.
  split.
  - intros Hall. rewrite clear_cells_write, place_digit_off by done.
    split; [done|]. intros p Hin Hg. rewrite get_write_cells.
    rewrite decide_True; [done|]. rewrite (Hall p Hin). eauto.
  - intros Hnot p Hin Hg Hs. rewrite place_digit_steps by done.
    by apply place_steps_selected.
Qed.

Lemma write_cells_is_Some v (b : Board) (selected : list Coords) p :
  is_Some (cell_at (write_cells puzzle v b selected) p) ↔ is_Some (cell_at b p).
Proof.
  rewrite get_write_cells. case_decide as Hd; [|done].
  destruct Hd as (_ & _ & Hs). split; eauto.
Qed.

Lemma unmarked_write_cells (b : Board) (selected sel : list Coords) digit v :
  (∀ s, v ≠ Marks s) → unmarked puzzle b selected digit →
  unmarked puzzle (write_cells puzzle v b sel) selected digit.
Proof.
  intros Hv Hun p q Hin Hg Hu. rewrite get_write_cells.
  case_decide; [|by eapply Hun]. destruct v; try done. by destruct (Hv s).
Qed.

Lemma place_steps_unmarked digit (selected : list Coords) :
  ∀ b : Board,
    unmarked puzzle b selected digit →
    fold_left (place_step puzzle digit) selected b =
      write_cells puzzle (Num digit) b selected.
Proof.
  unfold write_cells.
  induction selected as [|[r c] sel IH]; intros b Hun; simpl; [done|].
  assert ((if isGiven puzzle r c then b
           else removeCandidates (put b r c (Num digit)) r c digit) =
          (if isGiven puzzle r c then b else put b r c (Num digit))) as ->.
  { destruct (isGiven puzzle r c) eqn:Hg; [done|].
    apply removeCandidates_unmarked. intros q Hq.
    unfold cell_at. rewrite get_put. case_decide; [done|].
    apply (Hun (r, c) q); [apply list_elem_of_here|done|done]. }
  apply IH. intros p q Hin Hg Hu.
  assert (has_mark (cell_at b q) digit = false) as Hb.
  { apply (Hun p q); [by apply list_elem_of_further|done|done]. }
  destruct (isGiven puzzle r c); [done|].
  unfold cell_at. rewrite get_put. by case_decide.
Qed.

(** C5, as the code has it: placing the same digit on the same selection
    twice in a row gives back the board from before the first call when,
    before the first call, every selected given cell holds the digit, the
    selected cells that are not given are all empty or all hold the digit,
    and no cell in the row, the column or the box of a selected cell that
    is not given holds the digit as a candidate mark. *)
Theorem place_digit_twice (b : Board) (selected : list Coords) digit :
  (∀ p, p ∈ selected → isGiven puzzle p.1 p.2 = true →
     cell_at b p = Some (Num digit)) →
  (∀ p, p ∈ selected → isGiven puzzle p.1 p.2 = false →
     cell_at b p = Some Null) ∨
  (∀ p, p ∈ selected → isGiven puzzle p.1 p.2 = false →
     cell_at b p = Some (Num digit)) →
  unmarked puzzle b selected digit →
  place_digit puzzle (place_digit puzzle b selected digit) selected digit = b.
Proof.
  intros Hgiven Hfree Hun.
  destruct (forallb (fun '(r, c) => is_num (get b r c) digit) selected)
    eqn:Hall.
  - (* the first call clears *)
    pose proof (proj1 (numberExistsInAll_spec _ _ _) Hall) as Hall'.
    clear Hall; rename Hall' into Hall.
    rewrite (place_digit_off puzzle b) by done.
    set (b1 := write_cells puzzle Null b selected).
    assert (unmarked puzzle b1 selected digit) as Hun1.
    { by apply unmarked_write_cells. }
    assert (∀ p, cell_at b1 p =
      if decide (p ∈ selected ∧ isGiven puzzle p.1 p.2 = false ∧
                 is_Some (cell_at b p)) then Some Null else cell_at b p) as Hb1.
    { intros p. apply get_write_cells. }
    destruct (forallb (fun '(r, c) => is_num (get b1 r c) digit) selected)
      eqn:Hall1.
    + pose proof (proj1 (numberExistsInAll_spec _ _ _) Hall1) as Hall1'.
      clear Hall1; rename Hall1' into Hall1.
      rewrite (place_digit_off puzzle b1) by done.
      apply board_ext; [unfold b1; by rewrite !shape_write_cells|].
      intros r c. change (cell_at (write_cells puzzle Null b1 selected) (r, c)
                          = cell_at b (r, c)).
      rewrite get_write_cells.
      case_decide as Hd.
      * destruct Hd as (Hin & Hg & _). pose proof (Hb1 (r, c)) as E.
        rewrite decide_True in E
          by (split; [done|split; [done|rewrite (Hall _ Hin); eauto]]).
        by rewrite (Hall1 _ Hin) in E.
      * rewrite Hb1. case_decide as Hd'; [|done].
        destruct Hd. destruct Hd' as (? & ? & ?).
        split; [done|]. split; [done|]. by apply write_cells_is_Some.
    + assert (¬ (∀ p, p ∈ selected → cell_at b1 p = Some (Num digit))) as Hnot.
      { rewrite <-numberExistsInAll_spec. by rewrite Hall1. }
      rewrite place_digit_steps, place_steps_unmarked by done.
      apply board_ext; [unfold b1; by rewrite !shape_write_cells|].
      intros r c. change (cell_at (write_cells puzzle (Num digit) b1 selected)
                            (r, c) = cell_at b (r, c)).
      rewrite get_write_cells.
      case_decide as Hd.
      * destruct Hd as (Hin & _ & _). by rewrite (Hall _ Hin).
      * rewrite Hb1. case_decide as Hd'; [|done].
        destruct Hd. destruct Hd' as (? & ? & ?).
        split; [done|]. split; [done|]. by apply write_cells_is_Some.
  - (* the first call places the digit *)
    assert (¬ (∀ p, p ∈ selected → cell_at b p = Some (Num digit))) as Hnot.
    { rewrite <-numberExistsInAll_spec. by rewrite Hall. }
    assert (∀ p, p ∈ selected → isGiven puzzle p.1 p.2 = false →
              cell_at b p = Some Null) as Hnull.
    { destruct Hfree as [?|Hd]; [done|]. destruct Hnot. intros p Hin.
      destruct (isGiven puzzle p.1 p.2) eqn:Hg; auto. }
    rewrite (place_digit_steps b), place_steps_unmarked by done.
    set (b1 := write_cells puzzle (Num digit) b selected).
    assert (∀ p, cell_at b1 p =
      if decide (p ∈ selected ∧ isGiven puzzle p.1 p.2 = false ∧
                 is_Some (cell_at b p)) then Some (Num digit) else cell_at b p)
      as Hb1.
    { intros p. apply get_write_cells. }
    assert (∀ p, p ∈ selected → cell_at b1 p = Some (Num digit)) as Hall1.
    { intros p Hin. rewrite Hb1. case_decide as Hd; [done|].
      destruct (isGiven puzzle p.1 p.2) eqn:Hg; [auto|].
      destruct Hd. split; [done|]. split; [done|].
      rewrite (Hnull p) by done. eauto. }
    rewrite (place_digit_off puzzle b1) by done.
    apply board_ext; [unfold b1; by rewrite !shape_write_cells|].
    intros r c. change (cell_at (write_cells puzzle Null b1 selected) (r, c)
                        = cell_at b (r, c)).
    rewrite get_write_cells.
    case_decide as Hd.
    + destruct Hd as (Hin & Hg & _). by rewrite (Hnull _ Hin Hg).
    + rewrite Hb1. case_decide as Hd'; [|done].
      destruct Hd. destruct Hd' as (? & ? & ?).
      split; [done|]. split; [done|]. by apply write_cells_is_Some.
Qed.

End PlaceDigit.

(** ** A session worked out *)

Lemma sample_generated :
  generateNewPuzzle fixed_shuffle scripted_random 46 script =
    Done (Returns sample_puzzle sample_solution, []).
Proof. vm_compute. reflexivity. Qed.

Lemma generateNewPuzzle_sound_witness :
  agrees sample_puzzle sample_solution ∧ unique sample_puzzle.
Proof.
  apply (generateNewPuzzle_sound fixed_shuffle scripted_random 46 script []).
  vm_compute. reflexivity.
Defined.

Lemma solve_empty_solved_witness :
  (∃ res g', solve fixed_shuffle 82 script emptyBoard = Done (Some res, g')) ∧
  solved_grid sample_solution.
Proof.
  pose proof (solve_empty_solved fixed_shuffle (λ g, reflexivity _) 82 script)
    as [Hreturns Hsolved].
  split.
  - apply Hreturns. lia.
  - apply (Hsolved sample_solution script). vm_compute. reflexivity.
Defined.

Lemma reachable_run (puzzle solution : Board) actions :
  ∀ st, reachable puzzle solution st →
        reachable puzzle solution (run puzzle solution actions st).
Proof.
  unfold run. induction actions as [|a actions IH]; intros st Hst; simpl;
    [done|]. apply IH. by constructor.
Qed.

(** C4: the digit branch breaks the invariant that the pencil branch keeps.
    On the sample puzzle the player marks 5 in the empty cell (0,1), then
    places 5 in the empty cell (0,3) of the same row: [removeCandidates]
    deletes the mark and leaves the cell (0,1) holding an empty [Set].
    Taking the mark back with the pencil instead makes the cell [null]. *)
Theorem removeCandidates_leaves_empty_set :
  let st :=
    run sample_puzzle sample_solution
      [Select [(0, 1)]; KeyDown (press 5 true);
       Select [(0, 3)]; KeyDown (press 5 false)]
      (initial sample_puzzle) in
  let st' :=
    run sample_puzzle sample_solution
      [Select [(0, 1)]; KeyDown (press 5 true); KeyDown (press 5 true)]
      (initial sample_puzzle) in
  reachable sample_puzzle sample_solution st ∧
  get (board st) 0 1 = Some (Marks ∅) ∧
  get (board st') 0 1 = Some Null.
Proof.
  split; [|split].
  - apply reachable_run. constructor.
  - vm_compute. reflexivity.
  - vm_compute. reflexivity.
Qed.

(** C5 as stated fails: the cell (0,1) of the sample puzzle is not given;
    with 2 in it, pressing 7 twice leaves it empty, not holding 2. *)
Lemma place_digit_twice_counterexample :
  let b := put sample_puzzle 0 1 (Num 2) in
  place_digit sample_puzzle (place_digit sample_puzzle b [(0, 1)] 7) [(0, 1)] 7
    ≠ b.
Proof.
  intros b H. apply (f_equal (λ b, get b 0 1)) in H.
  vm_compute in H. discriminate H.
Qed.

Lemma sample_puzzle_no_marks q d : has_mark (cell_at sample_puzzle q) d = false.
Proof.
  destruct q as [r c].
  do 9 (destruct r as [|r];
        [do 9 (destruct c as [|c]; [reflexivity|]); reflexivity|]).
  reflexivity.
Qed.

Lemma place_digit_twice_witness :
  place_digit sample_puzzle (place_digit sample_puzzle sample_puzzle [(0, 1)] 2)
    [(0, 1)] 2 = sample_puzzle.
Proof.
  apply (place_digit_twice sample_puzzle sample_puzzle [(0, 1)] 2).
  - intros p ->%list_elem_of_singleton Hg. vm_compute in Hg. discriminate Hg.
  - left. intros p ->%list_elem_of_singleton _. reflexivity.
  - intros p q _ _ _. apply sample_puzzle_no_marks.
Defined.


(** C7 as stated fails: in the selection of the given cell (0,0), which
    holds 1, and the cell (0,1), which is not given and holds 5, every
    selected cell that is not given holds 5; pressing 5 does not empty
    (0,1), it holds 5 afterwards. *)
Lemma place_digit_toggle_off_counterexample :
  let b := put sample_puzzle 0 1 (Num 5) in
  let selected := [(0, 0); (0, 1)] in
  (∀ p, p ∈ selected → isGiven sample_puzzle p.1 p.2 = false →
     cell_at b p = Some (Num 5)) ∧
  isGiven sample_puzzle 0 1 = false ∧
  cell_at (place_digit sample_puzzle b selected 5) (0, 1) = Some (Num 5).
Proof.
  split; [|split; by vm_compute].
  intros p Hin Hg. apply elem_of_cons in Hin as [->|Hin].
  - vm_compute in Hg. discriminate Hg.
  - apply list_elem_of_singleton in Hin as ->. by vm_compute.
Qed.

Lemma place_digit_toggle_off_witness :
  let b := put sample_puzzle 0 1 (Num 5) in
  cell_at (place_digit sample_puzzle b [(0, 1)] 5) (0, 1) = Some Null ∧
  cell_at (place_digit sample_puzzle b [(0, 0); (0, 1)] 5) (0, 1) = Some (Num 5).
Proof.
  intros b. split.
  - apply (proj1 (place_digit_toggle_off sample_puzzle b [(0, 1)] 5)).
    + intros p ->%list_elem_of_singleton. reflexivity.
    + apply list_elem_of_here.
    + reflexivity.
  - apply (proj2 (place_digit_toggle_off sample_puzzle b [(0, 0); (0, 1)] 5)).
    + intros H. specialize (H (0, 0) (list_elem_of_here _ _)).
      vm_compute in H. discriminate H.
    + apply list_elem_of_further, list_elem_of_here.
    + reflexivity.
    + vm_compute. eauto.
Defined.

Lemma given_cells_immutable_witness :
  get (board (run sample_puzzle sample_solution
                [Select [(0, 0); (0, 1)]; KeyDown (press 5 false);
                 KeyDown (press 5 true);
                 KeyDown {| key := Backspace; ctrlKey := false; metaKey := false |}]
                (initial sample_puzzle))) 0 0 = Some (Num 1).
Proof.
  apply (given_cells_immutable sample_puzzle sample_solution).
  - apply reachable_run. constructor.
  - reflexivity.
Defined.

(** * Further properties of the engine *)

(** ** The three scans of a row, a column and a box *)

Lemma existsb_negb_forallb {A} (f : A → bool) (l : list A) :
  existsb f l = negb (forallb (λ x, negb (f x)) l).
Proof.
  induction l as [|x l IH]; simpl; [done|].
  rewrite IH. by destruct (f x).
Qed.

Lemma forallb_ext_in {A} (f g : A → bool) (l : list A) :
  (∀ x, f x = g x) → forallb f l = forallb g l.
Proof. intros H. induction l as [|x l IH]; simpl; [done|]. by rewrite H, IH. Qed.

Lemma Count_isValid_pencilConflict (b : Board) num r c :
  Count.isValid b num (r, c) = negb (pencilConflict b r c num).
Proof.
  unfold Count.isValid, pencilConflict.
  rewrite !existsb_negb_forallb, <-negb_andb, negb_involutive.
  f_equal.
  - apply forallb_ext_in. intros i. by rewrite negb_orb.
  - apply forallb_ext_in. intros i. rewrite existsb_negb_forallb.
    by rewrite negb_involutive.
Qed.

Lemma Count_isValid_spec (b : Board) num r c :
  r < 9 → c < 9 →
  Count.isValid b num (r, c) = true ↔
  ∀ q, q ∈ all_coords → same_unit (r, c) q → cell_at b q ≠ Some (Num num).
Proof.
  intros Hr Hc. rewrite Count_isValid_pencilConflict, negb_true_iff.
  rewrite <-not_true_iff_false, pencilConflict_scan by done. split.
  - intros H q Hq Hu Hcell. apply H. eauto.
  - intros H (q & Hq & Hu & Hcell). by apply (H q).
Qed.

Lemma Count_isValid_put (b : Board) num r c :
  r < 9 → c < 9 → get b r c ≠ Some (Num num) →
  Count.isValid b num (r, c) = Solve.isValid (put b r c (Num num)) num (r, c).
Proof.
  intros Hr Hc Hself. apply eq_true_iff_eq.
  rewrite Count_isValid_spec, Solve_isValid_spec by done. split.
  - intros H q Hq [Hu Hne]. unfold cell_at. destruct q as [r' c'].
    cbn [fst snd]. rewrite get_put_ne by done. by apply (H (r', c')).
  - intros H [r' c'] Hq Hu.
    destruct (decide ((r, c) = (r', c'))) as [[= <- <-]|Hne]; [done|].
    specialize (H (r', c') Hq (conj Hu Hne)).
    unfold cell_at in *; cbn [fst snd] in *. by rewrite get_put_ne in H.
Qed.

(** X1: on a cell of the grid that does not hold the digit, the test that
    [countSolutions] makes before it writes the digit is the test that
    [solve] makes after it has written it. *)
Theorem isValid_agree (b : Board) num r c :
  r < 9 → c < 9 → get b r c ≠ Some (Num num) →
  Count.isValid b num (r, c) = Solve.isValid (put b r c (Num num)) num (r, c).
Proof. apply Count_isValid_put. Qed.

Lemma isValid_agree_witness :
  Count.isValid sample_puzzle 2 (0, 1) =
    Solve.isValid (put sample_puzzle 0 1 (Num 2)) 2 (0, 1).
Proof. apply (isValid_agree sample_puzzle 2 0 1); [lia|lia|]. by vm_compute. Defined.

(** ** Conflict flags *)

Lemma hasConflict_isValid (b : Board) row col :
  hasConflict b row col =
    match get b row col with
    | Some (Num val) => negb (Solve.isValid b val (row, col))
    | _ => false
    end.
Proof.
  unfold hasConflict, Solve.isValid.
  destruct (get b row col) as [[|val|]|]; try done.
  rewrite !existsb_negb_forallb, <-negb_andb. do 2 f_equal.
  - apply forallb_ext_in. intros i. rewrite negb_orb. f_equal.
    + by rewrite andb_comm.
    + by rewrite andb_comm.
  - apply forallb_ext_in. intros i. rewrite existsb_negb_forallb.
    rewrite negb_involutive. apply forallb_ext_in. intros j.
    by rewrite andb_comm.
Qed.

Lemma hasConflict_iff (b : Board) row col :
  row < 9 → col < 9 →
  hasConflict b row col = true ↔
  ∃ val q, cell_at b (row, col) = Some (Num val) ∧ q ∈ all_coords ∧
           peer (row, col) q ∧ cell_at b q = Some (Num val).
Proof.
  intros Hr Hc. rewrite hasConflict_isValid. unfold cell_at at 1; cbn [fst snd].
  destruct (get b row col) as [[|val|s]|] eqn:Hcell;
    try (split; [done|by intros (? & ? & ? & _)]).
  rewrite negb_true_iff, <-not_true_iff_false, Solve_isValid_spec by done.
  split.
  - intros H. exists val.
    destruct (decide (Exists (λ q, peer (row, col) q ∧
                                   cell_at b q = Some (Num val)) all_coords))
      as [Hex|Hnex].
    + apply Exists_exists in Hex as (q & Hq & Hp & Hv). eauto 6.
    + destruct H. intros q Hq Hp Hv. apply Hnex, Exists_exists. eauto.
  - intros (val' & q & Heq & Hq & Hp & Hv) Hall. injection Heq as <-.
    by apply (Hall q).
Qed.

(** X2: for a cell of the grid, [hasConflict] is true exactly when the cell
    holds a digit and one of its peers (another cell of its row, its column
    or its box) holds the same digit; it is never true for an empty cell or
    a cell of candidate marks. *)
Theorem hasConflict_spec (b : Board) row col :
  row < 9 → col < 9 →
  (hasConflict b row col = true ↔
     ∃ val q, cell_at b (row, col) = Some (Num val) ∧ q ∈ all_coords ∧
              peer (row, col) q ∧ cell_at b q = Some (Num val)) ∧
  ((∀ val, get b row col ≠ Some (Num val)) → hasConflict b row col = false).
Proof.
  intros Hr Hc. split; [by apply hasConflict_iff|].
  intros Hno. rewrite hasConflict_isValid.
  destruct (get b row col) as [[|val|s]|] eqn:Hcell; try done.
  by destruct (Hno val).
Qed.

Lemma hasConflict_spec_witness :
  (hasConflict sample_puzzle 0 1 = true ↔
     ∃ val q, cell_at sample_puzzle (0, 1) = Some (Num val) ∧ q ∈ all_coords ∧
              peer (0, 1) q ∧ cell_at sample_puzzle q = Some (Num val)) ∧
  ((∀ val, get sample_puzzle 0 1 ≠ Some (Num val)) →
     hasConflict sample_puzzle 0 1 = false).
Proof. apply (hasConflict_spec sample_puzzle 0 1); lia. Defined.

(** X3: conflicts come in pairs, and a grid shows no conflict flag exactly
    when no two peers hold the same digit: a cell is flagged only if one of
    its peers is flagged too, and [hasConflict] is false on all 81 cells if
    and only if the grid is consistent. *)
Theorem hasConflict_consistent (b : Board) :
  (∀ r c, r < 9 → c < 9 → hasConflict b r c = true →
     ∃ q, q ∈ all_coords ∧ peer (r, c) q ∧ hasConflict b q.1 q.2 = true) ∧
  (consistent b ↔ ∀ r c, r < 9 → c < 9 → hasConflict b r c = false).
Proof.
  split.
  - intros r c Hr Hc H.
    apply hasConflict_iff in H as (val & [r' c'] & Hv & Hq & Hp & Hv');
      [|done|done].
    exists (r', c'). split; [done|]. split; [done|]. cbn [fst snd].
    pose proof Hq as [Hr' Hc']%elem_of_all_coords.
    apply hasConflict_iff; [done|done|].
    exists val, (r, c). split; [done|].
    split; [by apply elem_of_all_coords|]. split; [by apply peer_sym|done].
  - split.
    + intros Hcons r c Hr Hc. apply not_true_is_false. intros H.
      apply hasConflict_iff in H as (val & q & Hv & Hq & Hp & Hv');
        [|done|done].
      apply (Hcons (r, c) q val); try done. by apply elem_of_all_coords.
    + intros Hno [r c] q d Hp Hq Hpeer Hv Hv'.
      apply elem_of_all_coords in Hp as [Hr Hc].
      specialize (Hno r c Hr Hc). apply not_true_iff_false in Hno.
      apply Hno. apply hasConflict_iff; [done|done|]. eauto 6.
Qed.

(** ** What the solution counter counts *)

Lemma counted_equiv (A B : Board → Prop) s k :
  (∀ x, A x ↔ B x) → counted A s k → counted B s k.
Proof.
  intros HAB (C1 & C2 & S1 & S2). split; [|split; [|split]].
  - intros sol Hsol. apply (C1 sol). by apply HAB.
  - intros s1 s2 H1 H2. apply C2; by apply HAB.
  - intros Hlt. destruct (S1 Hlt) as (sol & Hsol). exists sol. by apply HAB.
  - intros Hlt. destruct (S2 Hlt) as (s1 & s2 & H1 & H2 & Hd).
    exists s1, s2. split; [by apply HAB|]. split; [by apply HAB|done].
Qed.

Lemma counted_none (A : Board → Prop) s : (∀ x, ¬ A x) → counted A s s.
Proof.
  intros Hnone. split; [|split; [|split]].
  - intros sol Hsol. by destruct (Hnone sol).
  - intros s1 s2 H1. by destruct (Hnone s1).
  - lia.
  - lia.
Qed.

Lemma counted_stop (A U : Board → Prop) s :
  (∀ x, A x → U x) → counted A s 2 → counted U s 2.
Proof.
  intros HAU (C1 & C2 & S1 & S2). split; [|split; [|split]].
  - intros _ _. lia.
  - done.
  - intros Hlt. destruct (S1 Hlt) as (sol & Hsol). eauto.
  - intros Hlt. destruct (S2 Hlt) as (s1 & s2 & H1 & H2 & Hd). eauto 7.
Qed.

Lemma counted_seq (A B U : Board → Prop) s s1 k :
  (∀ x, U x ↔ A x ∨ B x) →
  (∀ a b, A a → B b → differ a b) →
  (0 ≤ s)%Z → (s ≤ s1 ≤ 1)%Z → (s1 ≤ k ≤ 2)%Z →
  counted A s s1 → counted B s1 k → counted U s k.
Proof.
  intros HU Hdiff Hs Hs1 Hk (A1 & A2 & A3 & A4) (B1 & B2 & B3 & B4).
  split; [|split; [|split]].
  - intros sol [Ha|Hb]%HU.
    + specialize (A1 sol Ha). lia.
    + specialize (B1 sol Hb). lia.
  - intros x y [Hx|Hx]%HU [Hy|Hy]%HU Hd.
    + specialize (A2 x y Hx Hy Hd). lia.
    + specialize (A1 x Hx). specialize (B1 y Hy). lia.
    + specialize (A1 y Hy). specialize (B1 x Hx). lia.
    + by apply (B2 x y).
  - intros Hlt. destruct (decide (s < s1)%Z) as [Hl|Hl].
    + destruct (A3 Hl) as (sol & Hsol). exists sol. apply HU. by left.
    + destruct B3 as (sol & Hsol); [lia|]. exists sol. apply HU. by right.
  - intros Hlt. destruct (decide (s1 = 0)%Z) as [->|Hne].
    + destruct B4 as (x & y & Hx & Hy & Hd); [lia|].
      exists x, y. split; [apply HU; by right|].
      split; [apply HU; by right|done].
    + destruct A3 as (x & Hx); [lia|]. destruct B3 as (y & Hy); [lia|].
      exists x, y. split; [apply HU; by left|].
      split; [apply HU; by right|]. by apply Hdiff.
Qed.

Lemma solution_of_put (b s : Board) r c d :
  get b r c = Some Null →
  solution_of (put b r c (Num d)) s ↔ solution_of b s ∧ get s r c = Some (Num d).
Proof.
  intros Hnull. unfold solution_of. split.
  - intros [Hfin Hag]. split; [split; [done|]|].
    + intros r' c' v Hv Hne. apply Hag; [|done].
      rewrite get_put_ne; [done|]. intros [= <- <-]. congruence.
    + apply Hag; [|done]. apply get_put_eq. rewrite Hnull. eauto.
  - intros [[Hfin Hag] Hd]. split; [done|]. by apply agrees_put.
Qed.

Lemma Count_isValid_solution (b s : Board) r c d :
  solution_of b s → r < 9 → c < 9 → get b r c = Some Null →
  get s r c = Some (Num d) → Count.isValid b d (r, c) = true.
Proof.
  intros [(_ & Hcons & _) Hag] Hr Hc Hnull Hd.
  rewrite Count_isValid_put by (done || congruence).
  by apply (valid_towards b s).
Qed.

Lemma try_from_counts (rec : Board → Z → outcome (Board * Z)) (board : Board)
    r c :
  get board r c = Some Null → r < 9 → c < 9 →
  plain board → consistent board →
  (∀ num s, 1 ≤ num ≤ 9 → (0 ≤ s ≤ 1)%Z →
     Count.isValid board num (r, c) = true →
     ∃ res, rec (put board r c (Num num)) s = Done res ∧
            backtrack_post (put board r c (Num num)) s res ∧
            counted (solution_of (put board r c (Num num))) s res.2) →
  ∀ nums s, NoDup nums → (∀ num, num ∈ nums → 1 ≤ num ≤ 9) → (0 ≤ s ≤ 1)%Z →
    ∃ res, Count.try_from rec r c nums board s = Done res ∧
           backtrack_post board s res ∧
           counted (solution_with board r c nums) s res.2.
Proof.
  intros Hnull Hr Hc Hplain Hcons Hrec nums.
  induction nums as [|num rest IH]; intros s Hnodup Hnums Hs; simpl.
  - eexists. split; [done|]. split.
    + unfold backtrack_post; simpl. split; [lia|]. split; [done|lia].
    + apply counted_none. intros x (_ & d & Hd & _). by apply elem_of_nil in Hd.
  - apply NoDup_cons in Hnodup as [Hfresh Hnodup].
    assert (∀ n, n ∈ rest → 1 ≤ n ≤ 9) as Hrest.
    { intros n Hn. apply Hnums. by apply list_elem_of_further. }
    assert (1 ≤ num ≤ 9) as Hnum by apply Hnums, list_elem_of_here.
    assert (∀ x, solution_with board r c (num :: rest) x ↔
                 solution_of (put board r c (Num num)) x ∨
                 solution_with board r c rest x) as Hsplit.
    { intros x. rewrite solution_of_put by done. unfold solution_with. split.
      - intros (Hx & d & Hd & Hcell).
        apply elem_of_cons in Hd as [->|Hd]; [by left|right; eauto].
      - intros [[Hx Hcell]|(Hx & d & Hd & Hcell)].
        + split; [done|]. exists num. split; [apply list_elem_of_here|done].
        + split; [done|]. exists d. split; [by apply list_elem_of_further|done]. }
    destruct (Count.isValid board num (r, c)) eqn:Hvalid.
    + destruct (Hrec num s) as ([board' s'] & -> & Hpost & Hcount); try done.
      destruct Hpost as (Hs' & Hsame & Hfull). simpl in *.
      destruct (1 <? s')%Z eqn:Hcmp.
      * apply Z.ltb_lt in Hcmp. assert (s' = 2%Z) as -> by lia.
        eexists. split; [done|]. split.
        -- unfold backtrack_post; simpl. split; [lia|]. split; [lia|].
           intros _. eapply fills_put; eauto.
        -- simpl. eapply counted_stop; [|done]. intros x Hx. apply Hsplit. by left.
      * apply Z.ltb_ge in Hcmp. rewrite (Hsame Hcmp).
        rewrite (put_restore board r c (Num num) Null Hnull).
        destruct (IH s') as ([b'' k] & -> & Hpost' & Hcount'); [done|done|lia|].
        destruct Hpost' as (Hk & Hsame' & Hfull'). simpl in *.
        eexists. split; [done|]. split.
        -- unfold backtrack_post; simpl. split; [lia|]. done.
        -- simpl. eapply (counted_seq _ _ _ s s' k); try done; try lia.
           intros a b [_ Ha]%solution_of_put (_ & d & Hd & Hb); [|done].
           exists (r, c). split; [by apply elem_of_all_coords|].
           unfold cell_at; cbn [fst snd]. rewrite Ha, Hb.
           intros [= <-]. done.
    + destruct (IH s) as (res & -> & Hpost & Hcount); [done|done|done|].
      eexists. split; [done|]. split; [done|].
      eapply counted_equiv; [|done]. intros x. rewrite Hsplit. split; [by right|].
      intros [Hx|Hx]; [|done]. exfalso.
      apply solution_of_put in Hx as [Hx Hcell]; [|done].
      rewrite (Count_isValid_solution board x r c num) in Hvalid by done.
      done.
Qed.

Lemma backtrack_counts fuel :
  ∀ (board : Board) s,
    count_empty board < fuel → (0 ≤ s ≤ 1)%Z → plain board → consistent board →
    ∃ res, Count.backtrack fuel board s = Done res ∧
           backtrack_post board s res ∧
           counted (solution_of board) s res.2.
Proof.
  induction fuel as [|fuel IH]; intros board s Hlt Hs Hplain Hcons; [lia|].
  cbn [Count.backtrack].
  destruct (findEmpty board) as [[r c]|] eqn:Hfind.
  - pose proof (findEmpty_Some _ _ _ Hfind) as (Hnull & Hr & Hc).
    destruct (try_from_counts (Count.backtrack fuel) board r c Hnull Hr Hc
                Hplain Hcons) with (nums := seq 1 9) (s := s)
      as (res & Hrun & Hpost & Hcount).
    + intros num s0 Hnum Hs0 Hvalid. apply IH; [|done| |].
      * pose proof (count_empty_put board r c num Hfind). lia.
      * by apply plain_put.
      * apply consistent_put; try done.
        rewrite <-Count_isValid_put; [done|done|done|congruence].
    + apply NoDup_seq.
    + intros num Hnum. apply elem_of_seq in Hnum. lia.
    + done.
    + exists res. split; [done|]. split; [done|].
      eapply counted_equiv; [|done]. intros x. unfold solution_with.
      split; [by intros [? _]|]. intros Hx. split; [done|].
      destruct Hx as [Hfin _].
      destruct (finished_digit x (r, c) Hfin) as (d & Hd & Hcell);
        [by apply elem_of_all_coords|].
      exists d. split; [apply elem_of_seq; lia|done].
  - eexists. split; [done|]. split.
    + unfold backtrack_post; simpl.
      split; [lia|]. split; [done|]. intros _. by apply fills_refl.
    + simpl. split; [|split; [|split]].
      * intros _ _. lia.
      * intros s1 s2 [_ H1] [_ H2] ([r c] & Hp & Hne). exfalso. apply Hne.
        unfold cell_at; cbn [fst snd].
        pose proof Hp as [Hr Hc]%elem_of_all_coords.
        destruct (Hplain (r, c) Hp) as [Hn|(d & _ & Hd)];
          unfold cell_at in *; cbn [fst snd] in *.
        -- by destruct (findEmpty_None board r c).
        -- by rewrite (H1 r c _ Hd), (H2 r c _ Hd).
      * intros _. exists board. split; [done|]. by intros r c v Hv _.
      * lia.
Qed.

Lemma countSolutions_counts (b : Board) :
  plain b → consistent b →
  ∃ b' k, countSolutions b = Done (b', k) ∧ (0 ≤ k ≤ 2)%Z ∧
          counted (solution_of b) 0 k.
Proof.
  intros Hplain Hcons.
  assert (count_empty b < 82) as Hlt by (pose proof (count_empty_le b); lia).
  assert (0 ≤ 0 ≤ 1)%Z as H0 by lia.
  destruct (backtrack_counts 82 b 0 Hlt H0 Hplain Hcons)
    as ([b' k] & Hrun & (Hk & _) & Hcount).
  exists b', k. split; [done|]. split; [cbn [snd] in Hk; lia|done].
Qed.

Lemma not_differ (s1 s2 : Board) :
  ¬ differ s1 s2 ↔ ∀ p, p ∈ all_coords → cell_at s1 p = cell_at s2 p.
Proof.
  split.
  - intros H p Hp. destruct (decide (cell_at s1 p = cell_at s2 p)); [done|].
    destruct H. by exists p.
  - intros H (p & Hp & Hne). by apply Hne, H.
Qed.

(** X4: on a grid of digits and empty cells in which no two peers hold the
    same digit, [countSolutions] returns 0 exactly when the grid has no
    completion, 1 exactly when it has one completion and no other, and 2
    exactly when it has two completions that differ. *)
Theorem countSolutions_exact (b : Board) :
  plain b → consistent b →
  ∃ b' k, countSolutions b = Done (b', k) ∧
    (k = 0%Z ↔ ¬ ∃ s, solution_of b s) ∧
    (k = 1%Z ↔ ∃ s, solution_of b s ∧
                    ∀ s', solution_of b s' → ¬ differ s s') ∧
    (k = 2%Z ↔ ∃ s1 s2, solution_of b s1 ∧ solution_of b s2 ∧ differ s1 s2).
Proof.
  intros Hplain Hcons.
  destruct (countSolutions_counts b Hplain Hcons)
    as (b' & k & Hrun & Hk & C1 & C2 & S1 & S2).
  exists b', k. split; [done|].
  assert ((∃ s, solution_of b s) → (1 ≤ k)%Z) as Hsome.
  { intros (s & Hs). specialize (C1 s Hs). lia. }
  assert ((∃ s1 s2, solution_of b s1 ∧ solution_of b s2 ∧ differ s1 s2) →
          k = 2%Z) as Htwo.
  { intros (s1 & s2 & H1 & H2 & Hd). by apply (C2 s1 s2). }
  split; [|split].
  - split.
    + intros -> Hex. specialize (Hsome Hex). lia.
    + intros Hnone. destruct (decide (0 < k)%Z) as [Hpos|]; [|lia].
      destruct Hnone. by apply S1.
  - split.
    + intros ->. destruct S1 as (s & Hs); [lia|]. exists s. split; [done|].
      intros s' Hs' Hd. specialize (C2 s s' Hs Hs' Hd). lia.
    + intros (s & Hs & Huniq).
      assert (1 ≤ k)%Z by (apply Hsome; eauto).
      destruct (decide (k = 2%Z)) as [->|]; [|lia]. exfalso.
      destruct S2 as (s1 & s2 & H1 & H2 & p & Hp & Hne); [lia|].
      apply Hne.
      pose proof (proj1 (not_differ s s1) (Huniq s1 H1) p Hp) as E1.
      pose proof (proj1 (not_differ s s2) (Huniq s2 H2) p Hp) as E2.
      congruence.
  - split; [|done]. intros ->. apply S2. lia.
Qed.

Lemma sample_puzzle_plain : plain sample_puzzle.
Proof.
  intros [r c] Hp. apply elem_of_all_coords in Hp as [Hr Hc].
  do 9 (destruct r as [|r];
    [do 9 (destruct c as [|c];
       [first [by left | right; eexists; split; [|reflexivity]; lia]|]); lia|]).
  lia.
Qed.

Lemma sample_puzzle_agrees : agrees sample_puzzle sample_solution.
Proof.
  intros r c v Hv Hne.
  do 9 (destruct r as [|r];
    [do 9 (destruct c as [|c];
       [vm_compute in Hv; injection Hv as <-; first [done|reflexivity]|]);
     by vm_compute in Hv|]).
  by vm_compute in Hv.
Qed.

Lemma consistent_agrees (b s : Board) : agrees b s → consistent s → consistent b.
Proof.
  intros Hag Hcons [r c] [r' c'] d Hp Hq Hpeer Hv Hv'.
  unfold cell_at in *; cbn [fst snd] in *.
  apply (Hcons (r, c) (r', c') d); try done; unfold cell_at; cbn [fst snd];
    by apply Hag.
Qed.

Lemma sample_puzzle_consistent : consistent sample_puzzle.
Proof.
  apply (consistent_agrees _ sample_solution); [apply sample_puzzle_agrees|].
  apply sample_solution_finished.
Qed.

Lemma countSolutions_exact_witness :
  ∃ b' k, countSolutions sample_puzzle = Done (b', k) ∧
    (k = 0%Z ↔ ¬ ∃ s, solution_of sample_puzzle s) ∧
    (k = 1%Z ↔ ∃ s, solution_of sample_puzzle s ∧
                    ∀ s', solution_of sample_puzzle s' → ¬ differ s s') ∧
    (k = 2%Z ↔ ∃ s1 s2, solution_of sample_puzzle s1 ∧
                        solution_of sample_puzzle s2 ∧ differ s1 s2).
Proof.
  apply (countSolutions_exact sample_puzzle).
  - apply sample_puzzle_plain.
  - apply sample_puzzle_consistent.
Defined.

(** ** What the solver returns *)

Lemma finished_solved_grid (b : Board) : finished b → solved_grid b.
Proof.
  intros Hfin k Hk.
  destruct (row_cells_unit k Hk) as (? & ? & ? & ?).
  destruct (col_cells_unit k Hk) as (? & ? & ? & ?).
  destruct (box_cells_unit k Hk) as (? & ? & ? & ?).
  split; [|split]; by apply unit_complete.
Qed.

Lemma agrees_unput (b s : Board) r c v :
  get b r c = Some Null → agrees (put b r c v) s → agrees b s.
Proof.
  intros Hnull Hag r' c' w Hw Hne. apply Hag; [|done].
  rewrite get_put_ne; [done|]. intros [= <- <-]. congruence.
Qed.

Section SolveAny.

Context {rng : Type} (shuffle : rng → list nat * rng).
Hypothesis shuffle_perm : ∀ g, (shuffle g).1 ≡ₚ seq 1 9.

Lemma try_numbers_agrees (rec : rng → Board → outcome (option Board * rng))
    (board : Board) r c :
  (∀ g (b res : Board) g', rec g b = Done (Some res, g') → agrees b res) →
  get board r c = Some Null →
  ∀ numbers g (res : Board) g',
    try_numbers rec r c numbers g board = Done (Some res, g') →
    agrees board res.
Proof.
  intros Hrec Hnull numbers.
  induction numbers as [|num rest IH]; intros g res g' Hrun; simpl in Hrun;
    [done|].
  rewrite (put_restore board r c (Num num) Null Hnull) in Hrun.
  destruct (Solve.isValid (put board r c (Num num)) num (r, c));
    [|by eapply IH].
  destruct (rec g (put board r c (Num num))) as [|[[solved|] g1]] eqn:Hcall;
    [done| |by eapply IH].
  injection Hrun as -> ->. apply Hrec in Hcall. by eapply agrees_unput.
Qed.

Lemma solve_agrees fuel :
  ∀ g (b res : Board) g',
    solve shuffle fuel g b = Done (Some res, g') → agrees b res.
Proof.
  induction fuel as [|fuel IH]; intros g b res g' Hrun; [done|].
  simpl in Hrun. rewrite cloneBoard_id in Hrun.
  destruct (findEmpty b) as [[r c]|] eqn:Hfind.
  - pose proof (findEmpty_Some _ _ _ Hfind) as (Hnull & _).
    destruct (shuffle g) as [numbers g1].
    by eapply (try_numbers_agrees (solve shuffle fuel)).
  - injection Hrun as <- <-. by intros r c v Hv _.
Qed.

(** X5: on a grid of digits and empty cells in which no two peers hold the
    same digit, and whatever the random digit orders, [solve] returns (a
    depth of one call per empty cell and one more is enough); it returns
    [null] only when the grid has no completion, and a grid that it returns
    is a completion of the grid passed in, with each digit once in every row,
    column and box. *)
Theorem solve_correct fuel (g : rng) (b : Board) :
  plain b → consistent b → count_empty b < fuel →
  match solve shuffle fuel g b with
  | OutOfFuel => False
  | Done (None, _) => ¬ ∃ s, solution_of b s
  | Done (Some res, _) => solution_of b res ∧ solved_grid res
  end.
Proof.
  intros Hplain Hcons Hfuel.
  destruct (solve_done shuffle fuel g b Hfuel) as [[[res|] g'] Hrun];
    rewrite Hrun.
  - assert (finished res) as Hfin by (by eapply (solve_sound shuffle)).
    split; [split; [done|by eapply solve_agrees]|by apply finished_solved_grid].
  - intros (s & Hfin & Hag).
    destruct (solve_complete shuffle shuffle_perm s fuel Hfin g b Hfuel Hag)
      as (res & g'' & Hrun').
    congruence.
Qed.

End SolveAny.

Lemma solve_correct_witness :
  match solve fixed_shuffle 82 script sample_puzzle with
  | OutOfFuel => False
  | Done (None, _) => ¬ ∃ s, solution_of sample_puzzle s
  | Done (Some res, _) => solution_of sample_puzzle res ∧ solved_grid res
  end.
Proof.
  apply (solve_correct fixed_shuffle (λ g, reflexivity _) 82 script sample_puzzle).
  - apply sample_puzzle_plain.
  - apply sample_puzzle_consistent.
  - pose proof (count_empty_le sample_puzzle). lia.
Defined.

(** ** One cell taken out of a finished grid *)

Lemma finished_row_has (s : Board) r d :
  finished s → r < 9 → 1 ≤ d ≤ 9 → ∃ c, c < 9 ∧ get s r c = Some (Num d).
Proof.
  intros Hfin Hr Hd.
  destruct (row_cells_unit r Hr) as (H1 & H2 & H3 & H4).
  pose proof (unit_complete s (row_cells r) Hfin H1 H2 H3 H4) as Hperm.
  unfold complete_unit in Hperm.
  assert (Some (Num d) ∈ cell_at s <$> row_cells r) as Hin.
  { rewrite Hperm. apply list_elem_of_fmap. exists d. split; [done|].
    apply elem_of_seq. lia. }
  apply list_elem_of_fmap in Hin as (p & Hcell & Hp).
  unfold row_cells in Hp. apply list_elem_of_fmap in Hp as (c & -> & Hc).
  apply elem_of_seq in Hc. exists c. split; [lia|done].
Qed.

Lemma finished_put_Null_only (s s' : Board) r c :
  finished s → r < 9 → c < 9 →
  solution_of (put s r c Null) s' → ¬ differ s s'.
Proof.
  intros Hfin Hr Hc [Hfin' Hag]. apply not_differ. intros [r' c'] Hp.
  unfold cell_at; cbn [fst snd].
  destruct (finished_digit s (r', c') Hfin Hp) as (d & Hd & Hcell).
  unfold cell_at in Hcell; cbn [fst snd] in Hcell.
  destruct (decide ((r, c) = (r', c'))) as [[= <- <-]|Hne].
  - destruct (finished_digit s' (r, c) Hfin' Hp) as (d' & Hd' & Hcell').
    unfold cell_at in Hcell'; cbn [fst snd] in Hcell'.
    destruct (decide (d' = d)) as [->|Hdd]; [congruence|exfalso].
    destruct (finished_row_has s r d' Hfin Hr Hd') as (c2 & Hc2 & Hcell2).
    assert (c2 ≠ c) as Hcc by (intros ->; congruence).
    assert (get s' r c2 = Some (Num d')) as Hcell2'.
    { apply Hag; [|done]. rewrite get_put_ne; [done|]. congruence. }
    destruct Hfin' as (_ & Hcons' & _).
    apply (Hcons' (r, c) (r, c2) d'); try done.
    + by apply elem_of_all_coords.
    + split; [by left|congruence].
  - rewrite Hcell. symmetry. apply Hag; [|done]. by rewrite get_put_ne.
Qed.

(** X6: taking any one cell out of a finished grid (a digit in every cell,
    no two peers with the same digit) leaves a grid for which
    [countSolutions] returns exactly 1, and the call hands the grid back as
    it was. *)
Theorem countSolutions_one_removed (s : Board) r c :
  finished s → r < 9 → c < 9 →
  countSolutions (put s r c Null) = Done (put s r c Null, 1%Z).
Proof.
  intros Hfin Hr Hc.
  assert (agrees (put s r c Null) s) as Hag.
  { intros r' c' v. rewrite get_put. case_decide; [congruence|done]. }
  assert (plain (put s r c Null)) as Hplain.
  { intros [r' c'] Hp. unfold cell_at; cbn [fst snd]. rewrite get_put.
    case_decide; [by left|]. destruct Hfin as (Hpl & _). by apply (Hpl (r', c')). }
  assert (consistent (put s r c Null)) as Hcons.
  { apply (consistent_agrees _ s); [done|]. by destruct Hfin as (_ & ? & _). }
  assert (count_empty (put s r c Null) < 82) as Hlt.
  { pose proof (count_empty_le (put s r c Null)). lia. }
  assert (0 ≤ 0 ≤ 1)%Z as H0 by lia.
  destruct (backtrack_counts 82 _ 0 Hlt H0 Hplain Hcons)
    as ([b' k] & Hrun & (Hk & Hsame & _) & C1 & _ & _ & S2).
  cbn [fst snd] in *.
  assert (k = 1%Z) as ->.
  { assert (1 ≤ k)%Z by (specialize (C1 s (conj Hfin Hag)); lia).
    destruct (decide (k = 2%Z)) as [->|]; [exfalso|lia].
    destruct S2 as (s1 & s2 & H1 & H2 & p & Hp & Hne); [lia|]. apply Hne.
    pose proof (proj1 (not_differ s s1)
                  (finished_put_Null_only s s1 r c Hfin Hr Hc H1) p Hp).
    pose proof (proj1 (not_differ s s2)
                  (finished_put_Null_only s s2 r c Hfin Hr Hc H2) p Hp).
    congruence. }
  unfold countSolutions. rewrite Hrun. by rewrite Hsame by lia.
Qed.

Lemma countSolutions_one_removed_witness :
  countSolutions (put sample_solution 4 4 Null) =
    Done (put sample_solution 4 4 Null, 1%Z).
Proof.
  apply (countSolutions_one_removed sample_solution 4 4); [|lia|lia].
  apply sample_solution_finished.
Defined.

(** ** What the generator deals *)

Lemma carved_refl (s : Board) : carved s s.
Proof. split; [done|]. by left. Qed.

Lemma carved_put_Null (p s : Board) r c : carved p s → carved (put p r c Null) s.
Proof.
  intros [Hshape Hcells]. split; [by rewrite shape_put|].
  intros r' c'. rewrite get_put. case_decide; [by right|apply Hcells].
Qed.

Lemma carved_agrees (p s : Board) : carved p s → agrees p s.
Proof.
  intros [_ Hcells] r c v Hv Hne.
  destruct (Hcells r c) as [<-|E]; [done|congruence].
Qed.

Lemma carved_plain (p s : Board) : carved p s → finished s → plain p.
Proof.
  intros [_ Hcells] (Hplain & _) [r c] Hp. unfold cell_at; cbn [fst snd].
  destruct (Hcells r c) as [->|E]; [by apply (Hplain (r, c))|by left].
Qed.

Lemma carved_is_Some (p s : Board) r c :
  carved p s → finished s → r < 9 → c < 9 → is_Some (get p r c).
Proof.
  intros [_ Hcells] Hfin Hr Hc.
  destruct (Hcells r c) as [->| ->]; [|eauto].
  destruct (finished_digit s (r, c) Hfin) as (d & _ & Hd);
    [by apply elem_of_all_coords|].
  unfold cell_at in Hd; cbn [fst snd] in Hd. rewrite Hd. eauto.
Qed.

Lemma NoDup_all_coords : NoDup all_coords.
Proof. apply (bool_decide_unpack _). by vm_compute. Qed.

Lemma filter_length_eq {A} (P Q : A → Prop) `{!∀ x, Decision (P x)}
    `{!∀ x, Decision (Q x)} (l : list A) :
  (∀ x, x ∈ l → (P x ↔ Q x)) → length (filter P l) = length (filter Q l).
Proof.
  intros Hiff. apply Nat.le_antisymm; apply filter_length_le; intros x Hx;
    by apply Hiff.
Qed.

Lemma filter_length_S {A} (P Q : A → Prop) `{!∀ x, Decision (P x)}
    `{!∀ x, Decision (Q x)} (l : list A) x0 :
  NoDup l → x0 ∈ l → ¬ P x0 → Q x0 →
  (∀ x, x ∈ l → x ≠ x0 → (P x ↔ Q x)) →
  length (filter Q l) = S (length (filter P l)).
Proof.
  induction l as [|x l IH]; intros Hnodup Hin HP HQ Hsame;
    [by apply elem_of_nil in Hin|].
  apply NoDup_cons in Hnodup as [Hfresh Hnodup].
  rewrite !filter_cons.
  apply elem_of_cons in Hin as [<-|Hin].
  - rewrite (decide_False (P := P x0)) by done.
    rewrite (decide_True (P := Q x0)) by done. simpl. f_equal.
    symmetry. apply filter_length_eq. intros y Hy.
    apply Hsame; [by apply list_elem_of_further|]. by intros ->.
  - assert (x ≠ x0) as Hne by (by intros ->).
    assert (length (filter Q l) = S (length (filter P l))) as E.
    { apply IH; try done. intros y Hy. apply Hsame.
      by apply list_elem_of_further. }
    pose proof (Hsame x (list_elem_of_here _ _) Hne) as Hx.
    destruct (decide (P x)) as [HPx|HPx].
    + rewrite decide_True by (by apply Hx). simpl. by rewrite E.
    + rewrite decide_False by (by rewrite <-Hx). done.
Qed.

Lemma count_empty_put_Null (b : Board) r c :
  r < 9 → c < 9 → is_Some (get b r c) → get b r c ≠ Some Null →
  count_empty (put b r c Null) = S (count_empty b).
Proof.
  intros Hr Hc Hsome Hne. unfold count_empty.
  apply (filter_length_S _ _ _ (r, c)).
  - apply NoDup_all_coords.
  - by apply elem_of_all_coords.
  - simpl. destruct (get b r c) as [[]|]; simpl; congruence.
  - simpl. by rewrite get_put_eq.
  - intros [r' c'] _ Hne'. simpl. rewrite get_put_ne; [done|congruence].
Qed.

Lemma filter_length_none {A} (P : A → Prop) `{!∀ x, Decision (P x)}
    (l : list A) :
  (∀ x, x ∈ l → ¬ P x) → length (filter P l) = 0.
Proof.
  induction l as [|x l IH]; intros Hnone; [done|].
  rewrite filter_cons, decide_False by apply Hnone, list_elem_of_here.
  apply IH. intros y Hy. by apply Hnone, list_elem_of_further.
Qed.

Lemma count_empty_finished (s : Board) : finished s → count_empty s = 0.
Proof.
  intros (_ & _ & Hfull). unfold count_empty.
  apply filter_length_none. intros [r c] [Hr Hc]%elem_of_all_coords. simpl.
  pose proof (findEmpty_None s r c Hfull Hr Hc).
  destruct (get s r c) as [[]|]; simpl; congruence.
Qed.

Section Dealt.

Context {rng : Type} (shuffle : rng → list nat * rng).
Context (random_int : nat → rng → nat * rng).

Hypothesis shuffle_perm : ∀ g, (shuffle g).1 ≡ₚ seq 1 9.

(** [Math.floor(Math.random() * n)] is below [n]. *)
Hypothesis random_bound : ∀ n g, 0 < n → (random_int n g).1 < n.

Lemma carve_carved (solution : Board) fuel :
  ∀ g (puzzle : Board) cellsToRemove puzzle' g',
    carve random_int fuel g puzzle cellsToRemove = Done (puzzle', g') →
    carved puzzle solution → carved puzzle' solution.
Proof.
  induction fuel as [|fuel IH]; intros g puzzle n puzzle' g' Hrun Hcarved.
  - simpl in Hrun. destruct (n =? 0); [|done]. by injection Hrun as <- <-.
  - cbn [carve] in Hrun. destruct (n =? 0).
    { by injection Hrun as <- <-. }
    destruct (random_int 9 g) as [r g1].
    destruct (random_int 9 g1) as [c g2].
    destruct (negb (is_null (get puzzle r c))); [|by eapply IH].
    rewrite cloneBoard_id in Hrun.
    destruct (countSolutions (put puzzle r c Null)) as [|[b' k]]; [done|].
    destruct (k =? 1)%Z.
    + eapply IH; [done|]. by apply carved_put_Null.
    + rewrite put_Null_undo in Hrun. by eapply IH.
Qed.

Lemma carve_count (solution : Board) fuel :
  finished solution →
  ∀ g (puzzle : Board) cellsToRemove puzzle' g',
    carve random_int fuel g puzzle cellsToRemove = Done (puzzle', g') →
    carved puzzle solution →
    count_empty puzzle' = count_empty puzzle + cellsToRemove.
Proof.
  intros Hfin.
  induction fuel as [|fuel IH]; intros g puzzle n puzzle' g' Hrun Hcarved.
  - simpl in Hrun. destruct (n =? 0) eqn:E; [|done].
    apply Nat.eqb_eq in E. injection Hrun as <- <-. lia.
  - cbn [carve] in Hrun. destruct (n =? 0) eqn:E.
    { apply Nat.eqb_eq in E. injection Hrun as <- <-. lia. }
    apply Nat.eqb_neq in E.
    pose proof (random_bound 9 g) as Hr.
    destruct (random_int 9 g) as [r g1]. cbn [fst] in Hr.
    pose proof (random_bound 9 g1) as Hc.
    destruct (random_int 9 g1) as [c g2]. cbn [fst] in Hc.
    destruct (negb (is_null (get puzzle r c))) eqn:Hcell; [|by eapply IH].
    rewrite cloneBoard_id in Hrun.
    destruct (countSolutions (put puzzle r c Null)) as [|[b' k]]; [done|].
    destruct (k =? 1)%Z.
    + rewrite (IH _ _ _ _ _ Hrun) by (by apply carved_put_Null).
      rewrite count_empty_put_Null; [lia|lia|lia| |].
      * apply (carved_is_Some puzzle solution); [done|done|lia|lia].
      * intros Hn. by rewrite Hn in Hcell.
    + rewrite put_Null_undo in Hrun. by eapply IH.
Qed.

(** X7: whatever the random digit orders and picks, in a pair
    [{ puzzle, solution }] that [generateNewPuzzle] returns the solution
    holds each digit once in every row, column and box, it is a completion
    of the puzzle, and the puzzle has no other completion. *)
Theorem generateNewPuzzle_unique_completion fuel (g g' : rng)
    (puzzle solution : Board) :
  generateNewPuzzle shuffle random_int fuel g
    = Done (Returns puzzle solution, g') →
  solved_grid solution ∧ solution_of puzzle solution ∧
  ∀ s', solution_of puzzle s' → ¬ differ solution s'.
Proof.
  unfold generateNewPuzzle. intros Hrun.
  destruct (solve shuffle 82 g (cloneBoard emptyBoard))
    as [|[[sol|] g1]] eqn:Hsolve; [done| |done].
  destruct (random_int (50 - 40 + 1) g1) as [x g2].
  destruct (carve random_int fuel g2 (cloneBoard sol) (x + 46))
    as [|[puzzle' g3]] eqn:Hcarve; [done|].
  injection Hrun as -> -> ->.
  rewrite cloneBoard_id in Hsolve, Hcarve.
  assert (finished solution) as Hfin.
  { eapply (solve_sound shuffle shuffle_perm); [| |done].
    - apply plain_emptyBoard.
    - apply consistent_emptyBoard. }
  assert (carved puzzle solution) as Hcarved.
  { eapply carve_carved; [done|apply carved_refl]. }
  pose proof (carved_agrees _ _ Hcarved) as Hag.
  assert (unique puzzle) as (b' & Hone).
  { eapply carve_sound; [done|by intros r c v Hv _|right; lia]. }
  split; [by apply finished_solved_grid|]. split; [done|].
  intros s' Hs' Hd.
  destruct (countSolutions_counts puzzle) as (b'' & k & Hrun' & _ & _ & C2 & _).
  { by eapply carved_plain. }
  { apply (consistent_agrees _ solution); [done|]. by destruct Hfin as (_ & ? & _). }
  assert (k = 1%Z) as -> by congruence.
  specialize (C2 solution s' (conj Hfin Hag) Hs' Hd). lia.
Qed.

(** X8: whatever the random digit orders, [generateNewPuzzle] never throws
    its "Failed to generate a solution." error: it returns a pair or is
    still in its loop. *)
Theorem generateNewPuzzle_never_throws fuel (g : rng) :
  generateNewPuzzle shuffle random_int fuel g = OutOfFuel ∨
  ∃ puzzle solution g',
    generateNewPuzzle shuffle random_int fuel g
      = Done (Returns puzzle solution, g').
Proof.
  unfold generateNewPuzzle. rewrite cloneBoard_id.
  destruct (solve_complete shuffle shuffle_perm sample_solution 82
              sample_solution_finished g emptyBoard)
    as (sol & g1 & ->).
  { pose proof (count_empty_le emptyBoard). lia. }
  { apply agrees_emptyBoard. }
  destruct (random_int (50 - 40 + 1) g1) as [x g2].
  destruct (carve random_int fuel g2 (cloneBoard sol) (x + 46))
    as [|[puzzle' g3]]; [by left|right; eauto].
Qed.

(** X9: with draws [Math.floor(Math.random() * n)] below [n], the puzzle
    that [generateNewPuzzle] returns has at least 46 and at most 56 empty
    cells (between 25 and 35 given cells), not the 40 to 50 of the comment
    in the source. *)
Theorem generateNewPuzzle_empty_cells fuel (g g' : rng)
    (puzzle solution : Board) :
  generateNewPuzzle shuffle random_int fuel g
    = Done (Returns puzzle solution, g') →
  46 ≤ count_empty puzzle ≤ 56.
Proof.
  unfold generateNewPuzzle. intros Hrun.
  destruct (solve shuffle 82 g (cloneBoard emptyBoard))
    as [|[[sol|] g1]] eqn:Hsolve; [done| |done].
  pose proof (random_bound (50 - 40 + 1) g1) as Hx.
  destruct (random_int (50 - 40 + 1) g1) as [x g2]. cbn [fst] in Hx.
  destruct (carve random_int fuel g2 (cloneBoard sol) (x + 46))
    as [|[puzzle' g3]] eqn:Hcarve; [done|].
  injection Hrun as -> -> ->.
  rewrite cloneBoard_id in Hsolve, Hcarve.
  assert (finished solution) as Hfin.
  { eapply (solve_sound shuffle shuffle_perm); [| |done].
    - apply plain_emptyBoard.
    - apply consistent_emptyBoard. }
  rewrite (carve_count solution fuel Hfin _ _ _ _ _ Hcarve (carved_refl _)).
  rewrite count_empty_finished by done. simpl in Hx. lia.
Qed.

End Dealt.

Lemma generateNewPuzzle_unique_completion_witness :
  solved_grid sample_solution ∧ solution_of sample_puzzle sample_solution ∧
  ∀ s', solution_of sample_puzzle s' → ¬ differ sample_solution s'.
Proof.
  apply (generateNewPuzzle_unique_completion fixed_shuffle scripted_random
           (λ g, reflexivity _) 46 script []).
  vm_compute. reflexivity.
Defined.

Lemma generateNewPuzzle_never_throws_witness :
  generateNewPuzzle fixed_shuffle scripted_random 46 script = OutOfFuel ∨
  ∃ puzzle solution g',
    generateNewPuzzle fixed_shuffle scripted_random 46 script
      = Done (Returns puzzle solution, g').
Proof.
  apply (generateNewPuzzle_never_throws fixed_shuffle scripted_random
           (λ g, reflexivity _) 46 script).
Defined.

Lemma scripted_random_bound n g : 0 < n → (scripted_random n g).1 < n.
Proof.
  intros Hn. destruct g as [|x g]; simpl; [done|].
  apply Nat.mod_upper_bound. lia.
Qed.

Lemma generateNewPuzzle_empty_cells_witness :
  46 ≤ count_empty sample_puzzle ≤ 56.
Proof.
  apply (generateNewPuzzle_empty_cells fixed_shuffle scripted_random
           (λ g, reflexivity _) scripted_random_bound 46 script []
           sample_puzzle sample_solution).
  vm_compute. reflexivity.
Defined.

(** ** The grid that [countSolutions] leaves behind *)

Lemma find_first {A} (f : A → bool) (l : list A) x :
  List.find f l = Some x →
  ∃ i, l !! i = Some x ∧ ∀ j y, j < i → l !! j = Some y → f y = false.
Proof.
  induction l as [|a l IH]; [done|]. simpl.
  destruct (f a) eqn:Hfa.
  - intros [= ->]. exists 0. split; [done|]. intros j y Hj. lia.
  - intros Hfind. destruct (IH Hfind) as (i & Hi & Hbefore).
    exists (S i). split; [done|]. intros [|j] y Hj Hy.
    + by injection Hy as <-.
    + apply (Hbefore j); [lia|done].
Qed.

Lemma all_coords_lookup r c :
  r < 9 → c < 9 → all_coords !! (9 * r + c) = Some (r, c).
Proof.
  intros Hr Hc.
  assert (all_coords = (λ i, (i / 9, i mod 9)) <$> seq 0 81) as ->
    by (vm_compute; reflexivity).
  rewrite list_lookup_fmap, lookup_seq_lt by lia. simpl. f_equal. f_equal.
  - symmetry. apply (Nat.div_unique _ 9 r c); lia.
  - symmetry. apply (Nat.mod_unique _ 9 r c); lia.
Qed.

Lemma findEmpty_first (b : Board) r c q :
  findEmpty b = Some (r, c) → q ∈ all_coords → before q (r, c) →
  cell_at b q ≠ Some Null.
Proof.
  intros Hfind Hq Hbefore.
  pose proof (findEmpty_Some _ _ _ Hfind) as (_ & Hr & Hc).
  destruct (find_first _ _ _ Hfind) as (i & Hi & Hfirst).
  destruct q as [r' c']. apply elem_of_all_coords in Hq as [Hr' Hc'].
  assert (i = 9 * r + c) as ->.
  { eapply NoDup_lookup; [apply NoDup_all_coords|done|].
    by apply all_coords_lookup. }
  assert (9 * r' + c' < 9 * r + c) as Hlt.
  { destruct Hbefore as [?|[? ?]]; cbn [fst snd] in *; lia. }
  specialize (Hfirst _ _ Hlt (all_coords_lookup r' c' Hr' Hc')).
  cbn beta iota in Hfirst.
  unfold cell_at; cbn [fst snd]. intros Hnull. by rewrite Hnull in Hfirst.
Qed.

Lemma completes_keeps (b s : Board) r c :
  completes b s → get b r c ≠ Some Null → get s r c = get b r c.
Proof.
  intros (_ & Hfills & _) Hne. specialize (Hfills r c).
  rewrite decide_False in Hfills; [done|]. by intros [? _].
Qed.

Lemma completes_digit (b s : Board) r c :
  completes b s → get b r c = Some Null → r < 9 → c < 9 →
  ∃ d, 1 ≤ d ≤ 9 ∧ get s r c = Some (Num d).
Proof.
  intros (_ & Hfills & _) Hnull Hr Hc. specialize (Hfills r c).
  by rewrite decide_True in Hfills.
Qed.

Lemma completes_full (b : Board) : findEmpty b = None → completes b b.
Proof.
  intros Hnone. split; [done|]. split; [by apply fills_refl|].
  intros [r c] q [Hr Hc]%elem_of_all_coords _ Hnull.
  by destruct (findEmpty_None b r c).
Qed.

Lemma completes_put_cell (b s : Board) r c d :
  get b r c = Some Null → completes (put b r c (Num d)) s →
  get s r c = Some (Num d).
Proof.
  intros Hnull Hs. rewrite (completes_keeps _ _ r c Hs).
  - apply get_put_eq. by rewrite Hnull.
  - rewrite get_put_eq; [done|]. by rewrite Hnull.
Qed.

(** Going down one step of the search and coming back. *)
Lemma completes_put (b s : Board) r c d :
  get b r c = Some Null → r < 9 → c < 9 → 1 ≤ d ≤ 9 →
  Count.isValid b d (r, c) = true →
  completes (put b r c (Num d)) s → completes b s.
Proof.
  intros Hnull Hr Hc Hd Hvalid Hs.
  pose proof (completes_put_cell b s r c d Hnull Hs) as Hcell.
  pose proof Hs as (Hshape & Hfills & Hrules).
  split; [by rewrite Hshape, shape_put|]. split; [by eapply fills_put|].
  rewrite Count_isValid_spec in Hvalid by done.
  intros [r1 c1] [r2 c2] Hp Hq Hpnull Hpeer.
  unfold cell_at in *; cbn [fst snd] in *.
  destruct (decide ((r1, c1) = (r, c))) as [[= -> ->]|Hne].
  - rewrite Hcell.
    destruct (decide (get b r2 c2 = Some Null)) as [Hqnull|Hqfull].
    + intros Heq.
      apply (Hrules (r2, c2) (r, c)); unfold cell_at; cbn [fst snd];
        [done|done| |by apply peer_sym|congruence].
      rewrite get_put_ne; [done|]. by destruct Hpeer.
    + rewrite (completes_keeps _ _ r2 c2 Hs).
      * rewrite get_put_ne by (by destruct Hpeer).
        apply (Hvalid (r2, c2)); [done|by destruct Hpeer].
      * rewrite get_put_ne by (by destruct Hpeer). done.
  - apply (Hrules (r1, c1) (r2, c2)); unfold cell_at; cbn [fst snd];
      [done|done| |done].
    rewrite get_put_ne; [done|congruence].
Qed.

Lemma completes_down (b s : Board) r c d :
  get b r c = Some Null → r < 9 → c < 9 →
  completes b s → get s r c = Some (Num d) →
  Count.isValid b d (r, c) = true ∧ completes (put b r c (Num d)) s.
Proof.
  intros Hnull Hr Hc Hs Hcell. pose proof Hs as (Hshape & Hfills & Hrules).
  split.
  - apply Count_isValid_spec; [done|done|].
    intros [r' c'] Hq Hunit Hd. unfold cell_at in Hd; cbn [fst snd] in Hd.
    destruct (decide ((r, c) = (r', c'))) as [[= <- <-]|Hne]; [congruence|].
    apply (Hrules (r, c) (r', c')); unfold cell_at; cbn [fst snd];
      [by apply elem_of_all_coords|done|done|done|].
    rewrite Hcell. rewrite (completes_keeps _ _ r' c' Hs); [done|congruence].
  - split; [by rewrite shape_put|]. split.
    + intros r' c'. rewrite get_put.
      destruct (decide ((r, c) = (r', c') ∧ is_Some (get b r c)))
        as [[[= <- <-] _]|Hne].
      * rewrite decide_False; [done|]. by intros [? _].
      * assert ((r, c) ≠ (r', c')) as Hne'.
        { intros Heq. apply Hne. split; [done|]. by rewrite Hnull. }
        specialize (Hfills r' c'). done.
    + intros [r1 c1] q Hp Hq Hpnull. unfold cell_at in Hpnull.
      cbn [fst snd] in Hpnull. rewrite get_put in Hpnull.
      case_decide; [done|]. by apply Hrules.
Qed.

Lemma completions_sound fuel :
  ∀ (b x : Board), x ∈ completions fuel b → completes b x.
Proof.
  induction fuel as [|fuel IH]; intros b x Hx; cbn [completions] in Hx.
  { by apply elem_of_nil in Hx. }
  destruct (findEmpty b) as [[r c]|] eqn:Hfind.
  - pose proof (findEmpty_Some _ _ _ Hfind) as (Hnull & Hr & Hc).
    apply list_elem_of_bind in Hx as (num & Hx & Hnum).
    apply elem_of_seq in Hnum.
    destruct (Count.isValid b num (r, c)) eqn:Hvalid;
      [|by apply elem_of_nil in Hx].
    apply (completes_put b x r c num); try done; [lia|by apply IH].
  - apply list_elem_of_singleton in Hx as ->. by apply completes_full.
Qed.

Lemma completions_complete fuel :
  ∀ (b x : Board), count_empty b < fuel → completes b x →
    x ∈ completions fuel b.
Proof.
  induction fuel as [|fuel IH]; intros b x Hlt Hx; [lia|].
  cbn [completions]. destruct (findEmpty b) as [[r c]|] eqn:Hfind.
  - pose proof (findEmpty_Some _ _ _ Hfind) as (Hnull & Hr & Hc).
    destruct (completes_digit b x r c Hx Hnull Hr Hc) as (d & Hd & Hcell).
    destruct (completes_down b x r c d Hnull Hr Hc Hx Hcell) as [Hvalid Hdown].
    apply list_elem_of_bind. exists d. split; [|apply elem_of_seq; lia].
    rewrite Hvalid. apply IH; [|done].
    pose proof (count_empty_put b r c d Hfind). lia.
  - apply list_elem_of_singleton. destruct Hx as (Hshape & Hfills & _).
    apply board_ext; [done|]. intros r' c'. specialize (Hfills r' c').
    rewrite decide_False in Hfills; [done|].
    intros (Hnull & Hr & Hc). by destruct (findEmpty_None b r' c').
Qed.

Lemma in_order_app (l1 l2 : list Board) :
  in_order l1 → in_order l2 →
  (∀ x y, x ∈ l1 → y ∈ l2 → found_before x y) → in_order (l1 ++ l2).
Proof.
  intros H1 H2 H12 i j x y Hij Hi Hj.
  apply lookup_app_Some in Hi as [Hi|[Hlen Hi]];
    apply lookup_app_Some in Hj as [Hj|[Hlen' Hj]].
  - by apply (H1 i j).
  - apply H12; by eapply list_elem_of_lookup_2.
  - apply lookup_lt_Some in Hj. lia.
  - apply (H2 (i - length l1) (j - length l1)); [lia|done|done].
Qed.

Lemma in_order_bind (g : nat → list Board) :
  (∀ n, in_order (g n)) →
  (∀ m n x y, m < n → x ∈ g m → y ∈ g n → found_before x y) →
  ∀ k a, in_order (seq a k ≫= g).
Proof.
  intros Hg Hcross k. induction k as [|k IH]; intros a.
  - intros i j x y _ Hi. done.
  - change (in_order (g a ++ (seq (S a) k ≫= g))).
    apply in_order_app; [done|done|].
    intros x y Hx Hy. apply list_elem_of_bind in Hy as (n & Hy & Hn).
    apply elem_of_seq in Hn. apply (Hcross a n); [lia|done|done].
Qed.

Lemma completions_in_order fuel : ∀ b : Board, in_order (completions fuel b).
Proof.
  induction fuel as [|fuel IH]; intros b; cbn [completions].
  { intros i j x y _ Hi. done. }
  destruct (findEmpty b) as [[r c]|] eqn:Hfind.
  - pose proof (findEmpty_Some _ _ _ Hfind) as (Hnull & Hr & Hc).
    apply in_order_bind.
    + intros n. destruct (Count.isValid b n (r, c)); [done|].
      intros i j x y _ Hi. done.
    + intros m n x y Hmn Hx Hy.
      destruct (Count.isValid b m (r, c)); [|by apply elem_of_nil in Hx].
      destruct (Count.isValid b n (r, c)); [|by apply elem_of_nil in Hy].
      apply completions_sound in Hx, Hy.
      exists (r, c), m, n. split; [by apply elem_of_all_coords|].
      unfold cell_at; cbn [fst snd]. split; [|split; [|split]].
      * intros [r' c'] Hq Hbefore. cbn [fst snd].
        pose proof (findEmpty_first b r c (r', c') Hfind Hq Hbefore) as Hfull.
        unfold cell_at in Hfull; cbn [fst snd] in Hfull.
        assert ((r, c) ≠ (r', c')) as Hne by congruence.
        rewrite (completes_keeps _ _ r' c' Hx), (completes_keeps _ _ r' c' Hy);
          rewrite ?get_put_ne; done.
      * by apply (completes_put_cell b).
      * by apply (completes_put_cell b).
      * done.
  - intros [|i] [|j] x y Hij Hi Hj; try lia; done.
Qed.

Lemma search_result_0 (board x : Board) l :
  search_result board 0 (x :: l) = search_result board 1 l.
Proof. by destruct l. Qed.

Lemma search_result_1 (board x : Board) l :
  search_result board 1 (x :: l) = (x, 2%Z).
Proof. done. Qed.

(** The loop and the recursion of [backtrack] against the list of the
    grids in reach. *)
Lemma try_from_search (rec : Board → Z → outcome (Board * Z))
    (f : nat → list Board) (board : Board) r c :
  get board r c = Some Null →
  (∀ num s, (s = 0 ∨ s = 1)%Z → Count.isValid board num (r, c) = true →
     rec (put board r c (Num num)) s
       = Done (search_result (put board r c (Num num)) s (f num))) →
  ∀ nums s, (s = 0 ∨ s = 1)%Z →
    Count.try_from rec r c nums board s
      = Done (search_result board s
                (num ← nums;
                 if Count.isValid board num (r, c) then f num else [])).
Proof.
  intros Hnull Hrec nums.
  induction nums as [|num rest IH]; intros s Hs.
  { destruct Hs as [-> | ->]; done. }
  change (Count.try_from rec r c (num :: rest) board s =
    Done (search_result board s
            ((if Count.isValid board num (r, c) then f num else []) ++
             (n ← rest; if Count.isValid board n (r, c) then f n else [])))).
  cbn [Count.try_from].
  destruct (Count.isValid board num (r, c)) eqn:Hvalid; [|by apply IH].
  rewrite (Hrec num s Hs Hvalid).
  pose proof (put_restore board r c (Num num) Null Hnull) as Hback.
  destruct Hs as [-> | ->].
  - destruct (f num) as [|x [|y l]].
    + change (search_result (put board r c (Num num)) 0 [])
        with (put board r c (Num num), 0%Z).
      cbn beta iota. change (1 <? 0)%Z with false. cbn beta iota.
      rewrite Hback. by apply IH; left.
    + change (search_result (put board r c (Num num)) 0 [x])
        with (put board r c (Num num), 1%Z).
      cbn beta iota. change (1 <? 1)%Z with false. cbn beta iota.
      rewrite Hback. cbn [app]. rewrite search_result_0. by apply IH; right.
    + done.
  - destruct (f num) as [|x l].
    + change (search_result (put board r c (Num num)) 1 [])
        with (put board r c (Num num), 1%Z).
      cbn beta iota. change (1 <? 1)%Z with false. cbn beta iota.
      rewrite Hback. by apply IH; right.
    + done.
Qed.

Lemma backtrack_search fuel :
  ∀ (board : Board) s, (s = 0 ∨ s = 1)%Z → count_empty board < fuel →
    Count.backtrack fuel board s
      = Done (search_result board s (completions fuel board)).
Proof.
  induction fuel as [|fuel IH]; intros board s Hs Hlt; [lia|].
  cbn [Count.backtrack completions].
  destruct (findEmpty board) as [[r c]|] eqn:Hfind.
  - pose proof (findEmpty_Some _ _ _ Hfind) as (Hnull & Hr & Hc).
    apply (try_from_search (Count.backtrack fuel)
             (λ num, completions fuel (put board r c (Num num))));
      [done| |done].
    intros num s0 Hs0 _. apply IH; [done|].
    pose proof (count_empty_put board r c num Hfind). lia.
  - by destruct Hs as [-> | ->].
Qed.

Lemma completes_solution_of (b s : Board) :
  plain b → consistent b → completes b s → solution_of b s.
Proof.
  intros Hplain Hcons Hs. pose proof Hs as (_ & Hfills & Hrules).
  split; [split; [|split]|].
  - intros [r c] Hp. pose proof Hp as [Hr Hc]%elem_of_all_coords.
    unfold cell_at; cbn [fst snd].
    destruct (Hplain (r, c) Hp) as [Hnull|(d & Hd & Hcell)];
      unfold cell_at in *; cbn [fst snd] in *.
    + right. by apply (completes_digit b).
    + right. exists d. split; [done|].
      rewrite (completes_keeps _ _ r c Hs); [done|congruence].
  - intros [r1 c1] [r2 c2] d Hp Hq Hpeer Hd Hd'.
    unfold cell_at in *; cbn [fst snd] in *.
    destruct (decide (get b r1 c1 = Some Null)) as [Hn1|Hf1].
    { apply (Hrules (r1, c1) (r2, c2)); unfold cell_at; cbn [fst snd];
        try done. congruence. }
    destruct (decide (get b r2 c2 = Some Null)) as [Hn2|Hf2].
    { apply (Hrules (r2, c2) (r1, c1)); unfold cell_at; cbn [fst snd];
        try done; [by apply peer_sym|congruence]. }
    rewrite (completes_keeps _ _ r1 c1 Hs) in Hd by done.
    rewrite (completes_keeps _ _ r2 c2 Hs) in Hd' by done.
    by apply (Hcons (r1, c1) (r2, c2) d).
  - by eapply fills_findEmpty.
  - intros r c v Hv Hne. rewrite (completes_keeps _ _ r c Hs); [done|].
    congruence.
Qed.

(** C10: [countSolutions] works on its argument in place. When the count
    it returns is 0 or 1 the grid is back to its contents before the call.
    When the count is 2 the search has stopped without undoing its
    placements, and the grid is no longer the one passed in: every empty
    cell holds a digit, the other cells are as they were, no filled cell
    has its digit in a peer, and the grid is the second one that the search
    reaches: one way to fill the grid comes before it in the order of the
    search and every other one comes after it. On a grid of digits and
    empty cells without two equal peers it is a completion with each digit
    once in every row, column and box. The count is 2 whenever the grid
    can be filled in two ways. *)
Theorem countSolutions_frame (b : Board) :
  ∃ b' k, countSolutions b = Done (b', k) ∧
    ((k = 0 ∨ k = 1)%Z → b' = b) ∧
    (k = 2%Z →
       fills b b' ∧ findEmpty b' = None ∧ b' ≠ b ∧ second_found b b' ∧
       (plain b → consistent b → solution_of b b' ∧ solved_grid b')) ∧
    ((∃ s1 s2, completes b s1 ∧ completes b s2 ∧ s1 ≠ s2) → k = 2%Z).
Proof.
  assert (count_empty b < 82) as Hlt by (pose proof (count_empty_le b); lia).
  unfold countSolutions. rewrite (backtrack_search 82 b 0) by (done || by left).
  pose proof (completions_sound 82 b) as Hsound.
  pose proof (λ x, completions_complete 82 b x Hlt) as Hcomplete.
  pose proof (completions_in_order 82 b) as Horder.
  destruct (completions 82 b) as [|s1 [|s2 l]] eqn:Hl.
  - exists b, 0%Z. split; [done|]. split; [done|]. split; [done|].
    intros (x & _ & Hx & _). by apply Hcomplete, elem_of_nil in Hx.
  - exists b, 1%Z. split; [done|]. split; [done|]. split; [lia|].
    intros (x & y & Hx & Hy & Hne). exfalso. apply Hne.
    apply Hcomplete, list_elem_of_singleton in Hx, Hy. congruence.
  - exists s2, 2%Z. split; [done|]. split; [lia|]. split; [|done].
    intros _.
    assert (completes b s1) as H1 by apply Hsound, list_elem_of_here.
    assert (completes b s2) as H2
      by apply Hsound, list_elem_of_further, list_elem_of_here.
    pose proof H2 as (_ & Hfills & _).
    assert (found_before s1 s2) as H12
      by (apply (Horder 0 1); [lia|done|done]).
    split; [done|]. split; [by eapply fills_findEmpty|]. split.
    { intros ->. destruct H12 as ([r c] & d1 & d2 & Hp & _ & Hd1 & Hd2 & Hlt').
      apply elem_of_all_coords in Hp as [Hr Hc].
      unfold cell_at in *; cbn [fst snd] in *.
      destruct (decide (get b r c = Some Null)) as [Hnull|Hfull].
      - congruence.
      - rewrite (completes_keeps _ _ r c H1) in Hd1 by done.
        assert (d1 = d2) by congruence. lia. }
    split.
    + split; [done|]. exists s1. split; [done|]. split; [done|].
      intros s Hs. apply Hcomplete in Hs.
      apply elem_of_cons in Hs as [->|Hs]; [by left|].
      apply elem_of_cons in Hs as [->|Hs]; [right; by left|].
      right. right. apply list_elem_of_lookup in Hs as [i Hi].
      apply (Horder 1 (S (S i))); [lia|done|done].
    + intros Hplain Hcons.
      pose proof (completes_solution_of b s2 Hplain Hcons H2) as Hsol.
      split; [done|]. apply finished_solved_grid. by destruct Hsol.
Qed.

Lemma countSolutions_frame_witness :
  ∃ b', countSolutions emptyBoard = Done (b', 2%Z) ∧
        fills emptyBoard b' ∧ findEmpty b' = None ∧ b' ≠ emptyBoard ∧
        second_found emptyBoard b' ∧ solution_of emptyBoard b' ∧
        solved_grid b'.
Proof.
  destruct (countSolutions_frame emptyBoard) as (b' & k & Hrun & _ & H2 & _).
  assert (k = 2%Z) as ->.
  { pose proof Hrun as Hk. vm_compute in Hk. by injection Hk as _ <-. }
  destruct (H2 eq_refl) as (Hfills & Hnone & Hne & Hsecond & Hsol).
  destruct (Hsol plain_emptyBoard consistent_emptyBoard) as [Hsol1 Hsol2].
  exists b'. repeat (split; [assumption|]). assumption.
Defined.

(** ** Pruning the candidate marks of the peers *)

Lemma get_delete_marks v (cells : list Coords) :
  ∀ (b : Board) r' c',
    get (fold_left (fun b '(r, c) => delete_mark b r c v) cells b) r' c' =
      if decide ((r', c') ∈ cells) then prune v (get b r' c') else get b r' c'.
Proof.
  induction cells as [|[r c] cells IH]; intros b r' c'; cbn [fold_left].
  { rewrite decide_False; [done|]. apply not_elem_of_nil. }
  rewrite IH, get_delete_mark.
  destruct (decide ((r, c) = (r', c'))) as [Heq|Hne].
  - rewrite (decide_True (P := (r', c') ∈ (r, c) :: cells))
      by (rewrite Heq; apply list_elem_of_here).
    case_decide; by rewrite ?prune_idemp.
  - apply decide_ext. rewrite elem_of_cons. split; [by right|].
    intros [?|?]; [congruence|done].
Qed.

Lemma shape_delete_marks v (cells : list Coords) :
  ∀ b : Board,
    shape (fold_left (fun b '(r, c) => delete_mark b r c v) cells b) = shape b.
Proof.
  induction cells as [|[r c] cells IH]; intros b; cbn [fold_left]; [done|].
  rewrite IH. apply (pruned_delete_mark v b r c).
Qed.

Lemma fold_line_scanned row col v (l : list nat) :
  ∀ b : Board,
    fold_left (fun b i => delete_mark (delete_mark b row i v) i col v) l b =
    fold_left (fun b '(r, c) => delete_mark b r c v)
      (i ← l; [(row, i); (i, col)]) b.
Proof.
  induction l as [|i l IH]; intros b; [done|].
  cbn [fold_left]. rewrite IH. done.
Qed.

Lemma fold_box_row_scanned r v (l : list nat) :
  ∀ b : Board,
    fold_left (fun b c => delete_mark b r c v) l b =
    fold_left (fun b '(r, c) => delete_mark b r c v) (c ← l; [(r, c)]) b.
Proof.
  induction l as [|c l IH]; intros b; [done|].
  cbn [fold_left]. rewrite IH. done.
Qed.

Lemma fold_box_scanned v (lr lc : list nat) :
  ∀ b : Board,
    fold_left (fun b r => fold_left (fun b c => delete_mark b r c v) lc b) lr b =
    fold_left (fun b '(r, c) => delete_mark b r c v)
      (r ← lr; c ← lc; [(r, c)]) b.
Proof.
  induction lr as [|r lr IH]; intros b; [done|].
  cbn [fold_left]. rewrite IH, fold_box_row_scanned.
  symmetry. apply (fold_left_app _ (c ← lc; [(r, c)])).
Qed.

Lemma removeCandidates_scanned (b : Board) row col v :
  removeCandidates b row col v =
    fold_left (fun b '(r, c) => delete_mark b r c v) (scanned row col) b.
Proof.
  unfold removeCandidates, scanned.
  rewrite fold_left_app, fold_line_scanned. apply fold_box_scanned.
Qed.

Lemma elem_of_scanned row col r' c' :
  row < 9 → col < 9 →
  (r', c') ∈ scanned row col ↔
  (r', c') ∈ all_coords ∧ same_unit (row, col) (r', c').
Proof.
  intros Hrow Hcol. unfold scanned, same_unit. cbn [fst snd].
  rewrite elem_of_app, elem_of_all_coords.
  split.
  - intros [Hline|Hbox].
    + apply list_elem_of_bind in Hline as (i & Hcell & Hi).
      apply elem_of_seq in Hi.
      apply elem_of_cons in Hcell as [[= -> ->]|Hcell];
        [split; [lia|by left]|].
      apply list_elem_of_singleton in Hcell as [= -> ->].
      split; [lia|by right; left].
    + apply list_elem_of_bind in Hbox as (r & Hc & Hr).
      apply list_elem_of_bind in Hc as (c & Hcell & Hc).
      apply list_elem_of_singleton in Hcell as [= -> ->].
      apply list_elem_of_In, boxStart_range in Hr, Hc.
      split; [|by right; right].
      pose proof (Nat.div_mod_eq r 3). pose proof (Nat.div_mod_eq row 3).
      pose proof (Nat.mod_upper_bound r 3).
      pose proof (Nat.div_mod_eq c 3). pose proof (Nat.div_mod_eq col 3).
      pose proof (Nat.mod_upper_bound c 3). lia.
  - intros [[Hr' Hc'] [<-|[<-|[Hbr Hbc]]]].
    + left. apply list_elem_of_bind. exists c'.
      split; [apply list_elem_of_here|apply elem_of_seq; lia].
    + left. apply list_elem_of_bind. exists r'. split; [|apply elem_of_seq; lia].
      apply list_elem_of_further, list_elem_of_here.
    + right. apply list_elem_of_bind. exists r'. split.
      * apply list_elem_of_bind. exists c'.
        split; [by apply list_elem_of_singleton|].
        by apply list_elem_of_In, boxStart_range.
      * by apply list_elem_of_In, boxStart_range.
Qed.

(** X10: for a cell [(row, col)] of the grid, [removeCandidates] deletes
    [value] from every [Set] in the row, the column and the 3×3 box of the
    cell, and changes nothing else: digits and empty cells stay as they
    are, and so does every cell outside these three units. *)
Theorem removeCandidates_spec (b : Board) row col value :
  row < 9 → col < 9 →
  shape (removeCandidates b row col value) = shape b ∧
  ∀ r' c',
    get (removeCandidates b row col value) r' c' =
      if decide ((r', c') ∈ all_coords ∧ same_unit (row, col) (r', c'))
      then prune value (get b r' c') else get b r' c'.
Proof.
  intros Hrow Hcol. rewrite removeCandidates_scanned. split.
  - apply shape_delete_marks.
  - intros r' c'. rewrite get_delete_marks. apply decide_ext.
    by apply elem_of_scanned.
Qed.

Lemma removeCandidates_spec_witness :
  shape (removeCandidates sample_puzzle 0 3 5) = shape sample_puzzle ∧
  ∀ r' c',
    get (removeCandidates sample_puzzle 0 3 5) r' c' =
      if decide ((r', c') ∈ all_coords ∧ same_unit (0, 3) (r', c'))
      then prune 5 (get sample_puzzle r' c') else get sample_puzzle r' c'.
Proof. apply (removeCandidates_spec sample_puzzle 0 3 5); lia. Defined.

(** ** Candidate marks *)

Lemma with_marks_not_empty (s : gset nat) : with_marks s ≠ Marks ∅.
Proof. unfold with_marks. case_decide; congruence. Qed.

Lemma marks_of_with_marks (s : gset nat) : marks_of (Some (with_marks s)) = s.
Proof. unfold with_marks. by case_decide. Qed.

Section MapCells.

Variable puzzle : Board.
Variable f : option Cell → Cell.
Hypothesis f_idemp : ∀ o, f (Some (f o)) = f o.

Lemma shape_map_cells (selected : list Coords) :
  ∀ b : Board, shape (map_cells puzzle f b selected) = shape b.
Proof.
  unfold map_cells.
  induction selected as [|[r c] sel IH]; intros b; cbn [fold_left]; [done|].
  rewrite IH. destruct (isGiven puzzle r c); [done|apply shape_put].
Qed.

Lemma get_map_cells (selected : list Coords) :
  ∀ (b : Board) p,
    cell_at (map_cells puzzle f b selected) p =
      if decide (p ∈ selected ∧ isGiven puzzle p.1 p.2 = false ∧
                 is_Some (cell_at b p))
      then Some (f (cell_at b p)) else cell_at b p.
Proof.
  unfold map_cells.
  induction selected as [|[r c] sel IH]; intros b [r' c']; cbn [fold_left].
  { rewrite decide_False; [done|]. intros [H _]. by apply elem_of_nil in H. }
  rewrite IH. unfold cell_at; cbn [fst snd].
  destruct (isGiven puzzle r c) eqn:Hg.
  - apply decide_ext. split.
    + intros (Hin & ? & ?). split; [by apply list_elem_of_further|done].
    + intros (Hin & ? & ?).
      apply elem_of_cons in Hin as [[= -> ->]|Hin]; [congruence|done].
  - destruct (decide ((r, c) = (r', c') ∧ is_Some (get b r c)))
      as [[[= <- <-] Hs]|Hne].
    + rewrite get_put_eq by done.
      rewrite (decide_True (P := (r, c) ∈ (r, c) :: sel ∧ _))
        by (split; [apply list_elem_of_here|done]).
      case_decide; by rewrite ?f_idemp.
    + assert (get (put b r c (f (get b r c))) r' c' = get b r' c') as ->.
      { rewrite get_put. by rewrite decide_False. }
      apply decide_ext. split.
      * intros (Hin & ? & ?). split; [by apply list_elem_of_further|done].
      * intros (Hin & ? & ?).
        apply elem_of_cons in Hin as [[= -> ->]|Hin]; [|done].
        by destruct Hne.
Qed.

End MapCells.

Section Pencil.

Variable puzzle : Board.

Lemma pencilMarkExistsInAll_spec (b : Board) (selected : list Coords) digit :
  forallb (fun '(r, c) => has_mark (get b r c) digit) selected = true ↔
  ∀ p, p ∈ selected → has_mark (cell_at b p) digit = true.
Proof.
  rewrite forallb_forall. split.
  - intros H [r c] Hp. apply (H (r, c)). by apply list_elem_of_In.
  - intros H [r c] Hp. apply (H (r, c)). by apply list_elem_of_In.
Qed.

Lemma toggle_candidate_map (b : Board) (selected : list Coords) digit :
  toggle_candidate puzzle b selected digit =
    if forallb (fun '(r, c) => has_mark (get b r c) digit) selected
    then map_cells puzzle (λ o, with_marks (marks_of o ∖ {[digit]})) b selected
    else map_cells puzzle (λ o, with_marks (marks_of o ∪ {[digit]})) b selected.
Proof.
  unfold toggle_candidate, map_cells.
  generalize (forallb (fun '(r, c) => has_mark (get b r c) digit) selected).
  intros flag. generalize b. clear b.
  induction selected as [|[r c] sel IH]; intros b.
  { by destruct flag. }
  cbn [fold_left]. rewrite IH. destruct flag; done.
Qed.

Lemma remove_mark_idemp digit o :
  with_marks (marks_of (Some (with_marks (marks_of o ∖ {[digit]}))) ∖ {[digit]})
    = with_marks (marks_of o ∖ {[digit]}).
Proof.
  rewrite marks_of_with_marks. f_equal.
  apply set_eq. intros x. rewrite !elem_of_difference. tauto.
Qed.

Lemma add_mark_idemp digit o :
  with_marks (marks_of (Some (with_marks (marks_of o ∪ {[digit]}))) ∪ {[digit]})
    = with_marks (marks_of o ∪ {[digit]}).
Proof.
  rewrite marks_of_with_marks. f_equal.
  apply set_eq. intros x. rewrite !elem_of_union. tauto.
Qed.

Lemma with_marks_add (s : gset nat) digit :
  with_marks (s ∪ {[digit]}) = Marks (s ∪ {[digit]}).
Proof.
  unfold with_marks. rewrite decide_False; [done|].
  intros H. apply (not_elem_of_empty (C := gset nat) digit).
  rewrite <-H. apply elem_of_union_r. by apply elem_of_singleton.
Qed.

(** X11: the pencil branch decides over every selected cell, given cells
    included. When every selected cell holds [digit] among its marks, the
    mark is taken out of each selected cell that is not given, and a cell
    left without marks becomes [null]. Otherwise the mark is added to each
    selected cell that is not given; an empty cell gets the single mark, and
    so does a cell that held a placed digit: the digit is lost. No other
    cell changes. *)
Theorem toggle_candidate_spec (b : Board) (selected : list Coords) digit :
  ((∀ p, p ∈ selected → has_mark (cell_at b p) digit = true) →
     ∀ p, cell_at (toggle_candidate puzzle b selected digit) p =
       if decide (p ∈ selected ∧ isGiven puzzle p.1 p.2 = false ∧
                  is_Some (cell_at b p))
       then Some (with_marks (marks_of (cell_at b p) ∖ {[digit]}))
       else cell_at b p) ∧
  (¬ (∀ p, p ∈ selected → has_mark (cell_at b p) digit = true) →
     ∀ p, cell_at (toggle_candidate puzzle b selected digit) p =
       if decide (p ∈ selected ∧ isGiven puzzle p.1 p.2 = false ∧
                  is_Some (cell_at b p))
       then Some (Marks (marks_of (cell_at b p) ∪ {[digit]}))
       else cell_at b p).
Proof.
  split.
  - intros Hall p. rewrite toggle_candidate_map.
    rewrite (proj2 (pencilMarkExistsInAll_spec b selected digit) Hall).
    apply get_map_cells. intros o. apply remove_mark_idemp.
  - intros Hnot p. rewrite toggle_candidate_map.
    rewrite <-pencilMarkExistsInAll_spec in Hnot.
    apply not_true_is_false in Hnot. rewrite Hnot.
    rewrite get_map_cells by (intros o; apply add_mark_idemp).
    by rewrite with_marks_add.
Qed.

Lemma no_empty_set_put (b : Board) r c v :
  v ≠ Marks ∅ → no_empty_set b → no_empty_set (put b r c v).
Proof.
  intros Hv Hb r' c'. rewrite get_put. case_decide; [congruence|apply Hb].
Qed.

(** X12: a board without an empty [Set] has none after the pencil branch
    and none after the Backspace/Delete branch: both write [null] where the
    digit branch and [removeCandidates] can leave an empty [Set]. *)
Theorem no_empty_set_kept (b : Board) (selected : list Coords) digit :
  no_empty_set b →
  no_empty_set (toggle_candidate puzzle b selected digit) ∧
  no_empty_set (clear_cells puzzle b selected).
Proof.
  intros Hb. split.
  - unfold toggle_candidate.
    generalize (forallb (fun '(r, c) => has_mark (get b r c) digit) selected).
    intros flag. revert Hb. apply fold_left_preserves. intros b' [r c] Hb'.
    destruct (isGiven puzzle r c); [done|].
    apply no_empty_set_put; [|done]. apply with_marks_not_empty.
  - revert Hb. apply fold_left_preserves. intros b' [r c] Hb'.
    destruct (negb (isGiven puzzle r c)); [|done].
    by apply no_empty_set_put.
Qed.

(** X13: toggling the same candidate mark twice on the same selection gives
    back the board in two cases: when every selected cell holds the mark
    before the first call, and when every selected cell is not given and
    either is empty or holds a non-empty [Set] without the mark. *)
Theorem toggle_candidate_twice (b : Board) (selected : list Coords) digit :
  (∀ p, p ∈ selected → has_mark (cell_at b p) digit = true) ∨
  (∀ p, p ∈ selected → isGiven puzzle p.1 p.2 = false ∧
     (cell_at b p = Some Null ∨
      ∃ s, cell_at b p = Some (Marks s) ∧ (digit ∉ s) ∧ s ≠ ∅)) →
  toggle_candidate puzzle (toggle_candidate puzzle b selected digit)
    selected digit = b.
Proof.
  set (del := λ o : option Cell, with_marks (marks_of o ∖ {[digit]})).
  set (add := λ o : option Cell, with_marks (marks_of o ∪ {[digit]})).
  assert (∀ o, del (Some (del o)) = del o) as Hdel
    by (intros o; apply remove_mark_idemp).
  assert (∀ o, add (Some (add o)) = add o) as Hadd
    by (intros o; apply add_mark_idemp).
  intros [Hall|Hfree].
  - (* the first call takes the mark out *)
    rewrite (toggle_candidate_map b).
    rewrite (proj2 (pencilMarkExistsInAll_spec b selected digit) Hall).
    fold del. set (b1 := map_cells puzzle del b selected).
    assert (∀ p, cell_at b1 p =
      if decide (p ∈ selected ∧ isGiven puzzle p.1 p.2 = false ∧
                 is_Some (cell_at b p))
      then Some (del (cell_at b p)) else cell_at b p) as Hb1.
    { intros p. by apply get_map_cells. }
    assert (∀ p, is_Some (cell_at b1 p) ↔ is_Some (cell_at b p)) as Hsome1.
    { intros p. rewrite Hb1. case_decide as Hd; [|done].
      destruct Hd as (_ & _ & Hs). split; eauto. }
    assert (∀ p, p ∈ selected → ∃ s, cell_at b p = Some (Marks s) ∧ digit ∈ s)
      as Hmarks.
    { intros p Hp. specialize (Hall p Hp).
      destruct (cell_at b p) as [[| |s]|]; try done.
      exists s. split; [done|]. by apply bool_decide_eq_true in Hall. }
    rewrite toggle_candidate_map. fold del add.
    apply board_ext.
    { destruct (forallb (fun '(r, c) => has_mark (get b1 r c) digit) selected);
        unfold b1; by rewrite !shape_map_cells. }
    intros r c. change (get ?x r c) with (cell_at x (r, c)).
    destruct (forallb (fun '(r, c) => has_mark (get b1 r c) digit) selected)
      eqn:Hflag.
    + pose proof (proj1 (pencilMarkExistsInAll_spec b1 selected digit) Hflag)
        as Hall1.
      rewrite get_map_cells by done.
      assert (∀ p, p ∈ selected → isGiven puzzle p.1 p.2 = true) as Hgiven.
      { intros p Hp. destruct (isGiven puzzle p.1 p.2) eqn:Hg; [done|exfalso].
        specialize (Hall1 p Hp). rewrite Hb1 in Hall1.
        destruct (Hmarks p Hp) as (s & Hs & _).
        rewrite decide_True in Hall1
          by (split; [done|split; [done|rewrite Hs; eauto]]).
        unfold del, with_marks in Hall1. simpl in Hall1.
        case_decide; [done|]. simpl in Hall1.
        apply bool_decide_eq_true in Hall1.
        apply elem_of_difference in Hall1 as [_ Hn]. apply Hn.
        by apply elem_of_singleton. }
      rewrite decide_False.
      2: { intros (Hp & Hg & _). specialize (Hgiven _ Hp). congruence. }
      rewrite Hb1. rewrite decide_False; [done|].
      intros (Hp & Hg & _). specialize (Hgiven _ Hp). congruence.
    + rewrite get_map_cells by done.
      destruct (decide ((r, c) ∈ selected ∧ isGiven puzzle r c = false ∧
                        is_Some (cell_at b (r, c)))) as [Hd|Hd].
      * rewrite decide_True
          by (destruct Hd as (? & ? & ?);
              split; [done|split; [done|by apply Hsome1]]).
        rewrite Hb1. rewrite decide_True by done.
        destruct Hd as (Hp & _ & _). destruct (Hmarks _ Hp) as (s & Hs & Hin).
        rewrite Hs. unfold add, del. rewrite marks_of_with_marks.
        rewrite with_marks_add. simpl. do 2 f_equal.
        apply set_eq. intros x.
        rewrite elem_of_union, elem_of_difference, elem_of_singleton.
        split; [intros [[? _]| ->]; done|].
        intros Hx. destruct (decide (x = digit)); [by right|by left].
      * rewrite decide_False by (intros (? & ? & ?%Hsome1); by apply Hd).
        rewrite Hb1. by rewrite decide_False by done.
  - (* the first call adds the mark *)
    destruct selected as [|p0 sel] eqn:Hsel; [done|]. rewrite <-Hsel in *.
    assert (p0 ∈ selected) as Hp0 by (rewrite Hsel; apply list_elem_of_here).
    assert (∀ p, p ∈ selected → has_mark (cell_at b p) digit = false) as Hno.
    { intros p Hp. destruct (Hfree p Hp) as [_ [->|(s & -> & Hn & _)]];
        [done|]. by apply bool_decide_eq_false. }
    rewrite (toggle_candidate_map b).
    assert (forallb (fun '(r, c) => has_mark (get b r c) digit) selected
            = false) as ->.
    { apply not_true_is_false. rewrite pencilMarkExistsInAll_spec.
      intros H. specialize (H p0 Hp0). by rewrite Hno in H. }
    fold add. set (b1 := map_cells puzzle add b selected).
    assert (∀ p, cell_at b1 p =
      if decide (p ∈ selected ∧ isGiven puzzle p.1 p.2 = false ∧
                 is_Some (cell_at b p))
      then Some (add (cell_at b p)) else cell_at b p) as Hb1.
    { intros p. by apply get_map_cells. }
    assert (∀ p, is_Some (cell_at b1 p) ↔ is_Some (cell_at b p)) as Hsome1.
    { intros p. rewrite Hb1. case_decide as Hd; [|done].
      destruct Hd as (_ & _ & Hs). split; eauto. }
    assert (∀ p, p ∈ selected → p ∈ selected ∧
              isGiven puzzle p.1 p.2 = false ∧ is_Some (cell_at b p)) as Hin.
    { intros p Hp. split; [done|].
      destruct (Hfree p Hp) as [Hg [->|(s & -> & _)]]; eauto. }
    rewrite toggle_candidate_map.
    assert (forallb (fun '(r, c) => has_mark (get b1 r c) digit) selected
            = true) as ->.
    { apply pencilMarkExistsInAll_spec. intros p Hp. rewrite Hb1.
      rewrite decide_True by (by apply Hin).
      unfold add. rewrite with_marks_add. simpl. apply bool_decide_eq_true.
      apply elem_of_union_r. by apply elem_of_singleton. }
    fold del. apply board_ext.
    { unfold b1. by rewrite !shape_map_cells. }
    intros r c. change (get ?x r c) with (cell_at x (r, c)).
    rewrite get_map_cells by done.
    destruct (decide ((r, c) ∈ selected ∧ isGiven puzzle r c = false ∧
                      is_Some (cell_at b (r, c)))) as [Hd|Hd].
    + rewrite decide_True
        by (destruct Hd as (? & ? & ?);
            split; [done|split; [done|by apply Hsome1]]).
      rewrite Hb1. rewrite decide_True by done.
      destruct Hd as (Hp & _ & _). unfold add, del.
      rewrite with_marks_add. simpl.
      destruct (Hfree _ Hp) as [_ [->|(s & -> & Hn & Hne)]]; simpl.
      * f_equal. unfold with_marks. rewrite decide_True; [done|].
        apply set_eq. intros x.
        rewrite elem_of_difference, elem_of_union, elem_of_singleton.
        split; [|by intros ?%not_elem_of_empty].
        intros [[?%not_elem_of_empty|?] ?]; done.
      * f_equal. unfold with_marks.
        assert ((s ∪ {[digit]}) ∖ {[digit]} = s) as ->.
        { apply set_eq. intros x.
          rewrite elem_of_difference, elem_of_union, elem_of_singleton.
          split; [by intros [[?|?] ?]|]. intros Hx. split; [by left|].
          by intros ->. }
        by rewrite decide_False.
    + rewrite decide_False by (intros (? & ? & ?%Hsome1); by apply Hd).
      rewrite Hb1. by rewrite decide_False by done.
Qed.

End Pencil.

Lemma sample_puzzle_no_empty_set : no_empty_set sample_puzzle.
Proof.
  intros r c.
  do 9 (destruct r as [|r];
        [do 9 (destruct c as [|c]; [done|]); done|]).
  done.
Qed.

Lemma no_empty_set_kept_witness :
  no_empty_set (toggle_candidate sample_puzzle sample_puzzle [(0, 1)] 5) ∧
  no_empty_set (clear_cells sample_puzzle sample_puzzle [(0, 1)]).
Proof.
  apply (no_empty_set_kept sample_puzzle sample_puzzle [(0, 1)] 5).
  apply sample_puzzle_no_empty_set.
Defined.

Lemma toggle_candidate_twice_witness :
  toggle_candidate sample_puzzle
    (toggle_candidate sample_puzzle sample_puzzle [(0, 1)] 5) [(0, 1)] 5
    = sample_puzzle.
Proof.
  apply (toggle_candidate_twice sample_puzzle sample_puzzle [(0, 1)] 5).
  right. intros p ->%list_elem_of_singleton. split; [reflexivity|by left].
Defined.

(** ** Clearing *)

Section Clearing.

Variable puzzle : Board.

(** X14: Backspace or Delete makes every selected cell that is not given
    [null], whatever it held, and leaves every other cell, the given ones
    among them, as it was; pressing the key again changes nothing. *)
Theorem clear_cells_spec (b : Board) (selected : list Coords) :
  (∀ p, cell_at (clear_cells puzzle b selected) p =
     if decide (p ∈ selected ∧ isGiven puzzle p.1 p.2 = false ∧
                is_Some (cell_at b p))
     then Some Null else cell_at b p) ∧
  clear_cells puzzle (clear_cells puzzle b selected) selected =
    clear_cells puzzle b selected.
Proof.
  split.
  - intros p. rewrite clear_cells_write. apply get_write_cells.
  - rewrite !clear_cells_write. apply board_ext.
    { by rewrite !shape_write_cells. }
    intros r c. change (get ?x r c) with (cell_at x (r, c)).
    rewrite get_write_cells. case_decide as Hd; [|done].
    rewrite get_write_cells. rewrite decide_True; [done|].
    destruct Hd as (? & ? & Hs). split; [done|]. split; [done|].
    by apply write_cells_is_Some in Hs.
Qed.

(** X15: after a clear of the selection, placing a digit on the same
    selection never toggles off: every selected cell of the board that is
    not given holds the digit. *)
Theorem clear_then_place (b : Board) (selected : list Coords) digit p :
  p ∈ selected → isGiven puzzle p.1 p.2 = false → is_Some (cell_at b p) →
  cell_at (place_digit puzzle (clear_cells puzzle b selected) selected digit) p
    = Some (Num digit).
Proof.
  intros Hp Hg Hs. rewrite clear_cells_write.
  assert (cell_at (write_cells puzzle Null b selected) p = Some Null) as Hnull.
  { rewrite get_write_cells. by rewrite decide_True. }
  rewrite place_digit_steps.
  - apply place_steps_selected; [done|done|]. rewrite Hnull. eauto.
  - intros Hall. specialize (Hall p Hp). congruence.
Qed.

End Clearing.

Lemma clear_then_place_witness :
  cell_at (place_digit sample_puzzle
             (clear_cells sample_puzzle sample_puzzle [(0, 0); (0, 1)])
             [(0, 0); (0, 1)] 7) (0, 1) = Some (Num 7).
Proof.
  apply (clear_then_place sample_puzzle sample_puzzle [(0, 0); (0, 1)] 7 (0, 1)).
  - apply list_elem_of_further, list_elem_of_here.
  - reflexivity.
  - vm_compute. eauto.
Defined.

(** ** Completion *)

Lemma strict_eq_digit x d : strict_eq x (Some (Num d)) = true ↔ x = Some (Num d).
Proof.
  destruct x as [[|n|s]|]; simpl; try (split; congruence).
  rewrite Nat.eqb_eq. split; congruence.
Qed.

Lemma isPuzzleCompleted_forall (solution b : Board) :
  isPuzzleCompleted solution b = true ↔
  ∀ p, p ∈ all_coords → strict_eq (cell_at b p) (cell_at solution p) = true.
Proof.
  unfold isPuzzleCompleted. rewrite forallb_forall. split.
  - intros H [r c] Hp. apply (H (r, c)). by apply list_elem_of_In.
  - intros H [r c] Hp. apply (H (r, c)). by apply list_elem_of_In.
Qed.

(** X16: when the solution has a digit in each of its 81 cells,
    [isPuzzleCompleted] is true exactly when the board holds the digit of
    the solution in every cell; one empty cell or one cell of candidate
    marks is enough to make it false. *)
Theorem isPuzzleCompleted_spec (solution b : Board) :
  finished solution →
  (isPuzzleCompleted solution b = true ↔
     ∀ p, p ∈ all_coords → cell_at b p = cell_at solution p) ∧
  (isPuzzleCompleted solution b = true → finished b ∧ solved_grid b).
Proof.
  intros Hfin.
  assert (isPuzzleCompleted solution b = true ↔
          ∀ p, p ∈ all_coords → cell_at b p = cell_at solution p) as Hiff.
  { rewrite isPuzzleCompleted_forall. split; intros H p Hp.
    - destruct (finished_digit solution p Hfin Hp) as (d & _ & Hd).
      rewrite Hd. apply strict_eq_digit. rewrite <-Hd. by apply H.
    - destruct (finished_digit solution p Hfin Hp) as (d & _ & Hd).
      rewrite (H p Hp), Hd. by apply strict_eq_digit. }
  split; [done|]. intros Hdone.
  pose proof (proj1 Hiff Hdone) as Hsame.
  assert (finished b) as Hfinb.
  { destruct Hfin as (Hplain & Hcons & Hfull). split; [|split].
    - intros p Hp. rewrite (Hsame p Hp). by apply Hplain.
    - intros p q d Hp Hq Hpeer. rewrite (Hsame p Hp), (Hsame q Hq).
      by apply Hcons.
    - destruct (findEmpty b) as [[r c]|] eqn:E; [|done].
      apply findEmpty_Some in E as (Hnull & Hr & Hc).
      assert ((r, c) ∈ all_coords) as Hp by (by apply elem_of_all_coords).
      specialize (Hsame (r, c) Hp). unfold cell_at in Hsame.
      cbn [fst snd] in Hsame. rewrite Hnull in Hsame.
      by destruct (findEmpty_None solution r c Hfull Hr Hc). }
  split; [done|by apply finished_solved_grid].
Qed.

Lemma isPuzzleCompleted_spec_witness :
  (isPuzzleCompleted sample_solution sample_puzzle = true ↔
     ∀ p, p ∈ all_coords → cell_at sample_puzzle p = cell_at sample_solution p) ∧
  (isPuzzleCompleted sample_solution sample_puzzle = true →
     finished sample_puzzle ∧ solved_grid sample_puzzle).
Proof.
  apply (isPuzzleCompleted_spec sample_solution sample_puzzle).
  apply sample_solution_finished.
Defined.

Section Completed.

Variables puzzle solution : Board.

Lemma completed_onBoardKeyDown st e :
  (completed st = true → isPuzzleCompleted solution (board st) = true) →
  completed (onBoardKeyDown puzzle solution st e) = true →
  isPuzzleCompleted solution (board (onBoardKeyDown puzzle solution st e)) = true.
Proof.
  intros Hinv. unfold onBoardKeyDown.
  destruct (completed st) eqn:Hc; [by intros _; apply Hinv|].
  destruct (length (selectedCells st) =? 0); [by rewrite Hc|].
  destruct (key e) as [| |[digit|]].
  - done.
  - done.
  - destruct ((digit <? 1) || (9 <? digit)); [by rewrite Hc|].
    clear Hinv.
    destruct (isPuzzleCompleted solution _) eqn:Hdone; cbn [completed board];
      [by intros _|done].
  - by rewrite Hc.
Qed.

(** X17: in every state of a session the [completed] flag is set only if
    the board passes [isPuzzleCompleted], and once it is set no key press
    and no selection changes the board any more. *)
Theorem completed_means_complete st :
  reachable puzzle solution st →
  (completed st = true → isPuzzleCompleted solution (board st) = true) ∧
  (completed st = true →
     ∀ a, board (step puzzle solution st a) = board st ∧
          completed (step puzzle solution st a) = true).
Proof.
  intros Hreach. split.
  - induction Hreach as [|st a Hreach IH]; [done|].
    destruct a as [cells| |e]; simpl; try done.
    by apply completed_onBoardKeyDown.
  - intros Hc [cells| |e]; simpl; try done.
    unfold onBoardKeyDown. by rewrite Hc.
Qed.

End Completed.

Lemma completed_means_complete_witness :
  let st :=
    run sample_puzzle sample_solution
      [Select [(0, 1)]; KeyDown (press 2 false)] (initial sample_puzzle) in
  (completed st = true → isPuzzleCompleted sample_solution (board st) = true) ∧
  (completed st = true →
     ∀ a, board (step sample_puzzle sample_solution st a) = board st ∧
          completed (step sample_puzzle sample_solution st a) = true).
Proof.
  apply (completed_means_complete sample_puzzle sample_solution).
  apply reachable_run. constructor.
Defined.

(** ** The selection and the session of the component *)

Lemma isSelected_false (selected : list Coords) r c :
  isSelected selected r c = false → (r, c) ∉ selected.
Proof.
  unfold isSelected. intros Hsel Hin.
  apply not_true_iff_false in Hsel. apply Hsel.
  apply existsb_exists. exists (r, c). split; [by apply list_elem_of_In|].
  simpl. by rewrite !Nat.eqb_refl.
Qed.

Lemma NoDup_deselect (selected : list Coords) r c :
  NoDup selected → NoDup (deselect selected r c).
Proof.
  unfold deselect. induction 1 as [|p l Hp Hl IH]; simpl; [constructor|].
  destruct (negb (p.1 =? r) || negb (p.2 =? c)); [|done].
  constructor; [|done]. intros Hin. apply Hp.
  apply list_elem_of_In, filter_In in Hin as [Hin _]. by apply list_elem_of_In.
Qed.

Lemma not_elem_of_deselect (selected : list Coords) r c :
  (r, c) ∉ deselect selected r c.
Proof.
  unfold deselect. intros Hin. apply list_elem_of_In, filter_In in Hin as [_ H].
  simpl in H. by rewrite !Nat.eqb_refl in H.
Qed.

Lemma NoDup_snoc (selected : list Coords) p :
  NoDup selected → p ∉ selected → NoDup (selected ++ [p]).
Proof.
  intros Hnodup Hp. apply NoDup_app. split; [done|]. split.
  - intros x Hx ->%list_elem_of_singleton. done.
  - apply NoDup_singleton.
Qed.

Lemma onBoardKeyDown_selection puzzle solution st e :
  selectedCells (onBoardKeyDown puzzle solution st e) = selectedCells st ∨
  selectedCells (onBoardKeyDown puzzle solution st e) = [].
Proof.
  unfold onBoardKeyDown.
  destruct (completed st); [by left|].
  destruct (length (selectedCells st) =? 0); [by left|].
  destruct (key e) as [| |[digit|]]; try by left.
  destruct ((digit <? 1) || (9 <? digit)); [by left|].
  destruct (isPuzzleCompleted solution _); [by right|by left].
Qed.

Section MountedProps.

Context {rng : Type} (shuffle : rng → list nat * rng).
Context (random_int : nat → rng → nat * rng).
Hypothesis shuffle_perm : ∀ g, (shuffle g).1 ≡ₚ seq 1 9.

(** X18: no cell is ever selected twice: in every state of the mounted
    component the list [selectedCells] has no duplicates, after any clicks
    with or without Ctrl, drags, touches and key presses; and [dragMode] is
    set only while the mouse button is held. *)
Theorem selection_NoDup cmp :
  ui_reachable shuffle random_int cmp →
  NoDup (selectedCells (game cmp)) ∧
  (is_Some (dragMode cmp) → isMouseDown cmp = true).
Proof.
  induction 1 as [fuel g p s g' Hgen|cmp cmp' Hreach [IH1 IH2] Hstep].
  { split; [apply NoDup_nil_2|]. simpl. by intros [? ?]. }
  destruct Hstep as [cmp r c e Hr Hc|cmp r c Hr Hc|cmp r c w Hr Hc|cmp|cmp
                    |cmp e|cmp|cmp fuel g p s g' Hgen].
  - unfold onCellMouseDown. destruct (completed (game cmp)); [done|].
    destruct (mouseCtrlKey e || mouseMetaKey e).
    + destruct (isSelected (selectedCells (game cmp)) r c) eqn:Hsel; simpl.
      * split; [by apply NoDup_deselect|done].
      * split; [|done]. apply NoDup_snoc; [done|by apply isSelected_false].
    + simpl. split; [apply NoDup_singleton|done].
  - unfold onCellTouchStart. destruct (completed (game cmp)); [done|].
    simpl. split; [apply NoDup_singleton|done].
  - unfold onCellMouseEnter.
    destruct (negb (isMouseDown cmp) || (w <=? 768)); [done|]. simpl.
    split; [|done].
    destruct (dragMode cmp) as [[|]|];
      try (by apply NoDup_deselect);
      (destruct (isSelected (selectedCells (game cmp)) r c) eqn:Hsel; simpl;
       [done|apply NoDup_snoc; [done|by apply isSelected_false]]).
  - simpl. split; [done|]. by intros [? ?].
  - done.
  - simpl. split; [|done].
    destruct (onBoardKeyDown_selection (puzzleAndSolution cmp).1
                (puzzleAndSolution cmp).2 (game cmp) e) as [-> | ->];
      [done|apply NoDup_nil_2].
  - simpl. split; [apply NoDup_nil_2|done].
  - simpl. split; [apply NoDup_nil_2|done].
Qed.

Lemma generated_pair fuel (g g' : rng) (puzzle solution : Board) :
  generateNewPuzzle shuffle random_int fuel g
    = Done (Returns puzzle solution, g') →
  finished solution ∧ agrees puzzle solution.
Proof.
  unfold generateNewPuzzle. intros Hrun.
  destruct (solve shuffle 82 g (cloneBoard emptyBoard))
    as [|[[sol|] g1]] eqn:Hsolve; [done| |done].
  destruct (random_int (50 - 40 + 1) g1) as [x g2].
  destruct (carve random_int fuel g2 (cloneBoard sol) (x + 46))
    as [|[puzzle' g3]] eqn:Hcarve; [done|].
  injection Hrun as -> -> ->.
  rewrite cloneBoard_id in Hsolve, Hcarve. split.
  - eapply (solve_sound shuffle shuffle_perm); [| |done].
    + apply plain_emptyBoard.
    + apply consistent_emptyBoard.
  - apply carved_agrees. eapply carve_carved; [done|apply carved_refl].
Qed.

Lemma isPuzzleCompleted_refl (s : Board) :
  finished s → isPuzzleCompleted s s = true.
Proof.
  intros Hfin. apply isPuzzleCompleted_forall. intros p Hp.
  destruct (finished_digit s p Hfin Hp) as (d & _ & ->).
  by apply strict_eq_digit.
Qed.

(** X19: in every state of the mounted component, through clicks, key
    presses, the Solve button and New Game, the solution of the current
    pair is a finished grid that agrees with the puzzle, every cell given in
    the current puzzle holds its digit on the board, and the [completed]
    flag is set only when the board holds the solution in all 81 cells. *)
Theorem component_session cmp :
  ui_reachable shuffle random_int cmp →
  let puzzle := (puzzleAndSolution cmp).1 in
  let solution := (puzzleAndSolution cmp).2 in
  finished solution ∧ agrees puzzle solution ∧
  givens_kept puzzle (board (game cmp)) ∧
  (completed (game cmp) = true →
     ∀ p, p ∈ all_coords → cell_at (board (game cmp)) p = cell_at solution p).
Proof.
  intros Hreach.
  assert (finished (puzzleAndSolution cmp).2 ∧
          agrees (puzzleAndSolution cmp).1 (puzzleAndSolution cmp).2 ∧
          givens_kept (puzzleAndSolution cmp).1 (board (game cmp)) ∧
          (completed (game cmp) = true →
             isPuzzleCompleted (puzzleAndSolution cmp).2 (board (game cmp))
               = true)) as (Hfin & Hag & Hkept & Hdone).
  { induction Hreach as [fuel g p s g' Hgen|cmp cmp' Hreach IH Hstep].
    { destruct (generated_pair _ _ _ _ _ Hgen) as [Hfin Hag]. simpl.
      rewrite cloneBoard_id. split; [done|]. split; [done|].
      split; [by intros r c d|done]. }
    destruct IH as (Hfin & Hag & Hkept & Hdone).
    destruct Hstep as [cmp r c e Hr Hc|cmp r c Hr Hc|cmp r c w Hr Hc|cmp|cmp
                      |cmp e|cmp|cmp fuel g p s g' Hgen].
    - unfold onCellMouseDown.
      destruct (completed (game cmp)) eqn:E; [by auto|].
      by destruct (mouseCtrlKey e || mouseMetaKey e),
                  (isSelected (selectedCells (game cmp)) r c).
    - unfold onCellTouchStart.
      by destruct (completed (game cmp)) eqn:E; [auto|].
    - unfold onCellMouseEnter.
      by destruct (negb (isMouseDown cmp) || (w <=? 768)).
    - done.
    - done.
    - simpl. split; [done|]. split; [done|]. split.
      + by apply givens_kept_onBoardKeyDown.
      + by apply completed_onBoardKeyDown.
    - simpl. rewrite cloneBoard_id. split; [done|]. split; [done|]. split.
      + intros r c d Hd. by apply Hag.
      + intros _. by apply isPuzzleCompleted_refl.
    - destruct (generated_pair _ _ _ _ _ Hgen) as [Hfin' Hag']. simpl.
      rewrite cloneBoard_id. split; [done|]. split; [done|].
      split; [by intros r c d|done]. }
  split; [done|]. split; [done|]. split; [done|].
  intros Hc p Hp. destruct (finished_digit _ p Hfin Hp) as (d & _ & Hd).
  rewrite Hd. apply strict_eq_digit. rewrite <- Hd.
  by apply isPuzzleCompleted_forall; [apply Hdone|].
Qed.

End MountedProps.

Lemma sample_session_reachable :
  ui_reachable fixed_shuffle scripted_random sample_session.
Proof.
  unfold sample_session.
  eapply ui_next; [|apply ui_key_down].
  eapply ui_next; [|apply ui_mouse_up].
  eapply ui_next; [|apply ui_mouse_enter; lia].
  eapply ui_next; [|apply ui_mouse_down; lia].
  eapply ui_next; [|apply ui_mouse_down; lia].
  eapply ui_mounted. apply sample_generated.
Qed.

Lemma selection_NoDup_witness :
  NoDup (selectedCells (game sample_session)) ∧
  (is_Some (dragMode sample_session) → isMouseDown sample_session = true).
Proof.
  apply (selection_NoDup fixed_shuffle scripted_random sample_session).
  apply sample_session_reachable.
Defined.

Lemma component_session_witness :
  let puzzle := (puzzleAndSolution sample_session).1 in
  let solution := (puzzleAndSolution sample_session).2 in
  finished solution ∧ agrees puzzle solution ∧
  givens_kept puzzle (board (game sample_session)) ∧
  (completed (game sample_session) = true →
     ∀ p, p ∈ all_coords →
       cell_at (board (game sample_session)) p = cell_at solution p).
Proof.
  apply (component_session fixed_shuffle scripted_random
           (λ g, reflexivity _) sample_session).
  apply sample_session_reachable.
Defined.

(** ** The pointer handlers *)

Lemma isSelected_app (selected : list Coords) p r c :
  isSelected (selected ++ [p]) r c
    = isSelected selected r c || bool_decide (p = (r, c)).
Proof.
  unfold isSelected. rewrite existsb_app. f_equal. simpl.
  rewrite orb_false_r. destruct p as [r' c']. simpl.
  apply eq_true_iff_eq. rewrite andb_true_iff, !Nat.eqb_eq, bool_decide_eq_true.
  split; [by intros [-> ->]|]. by intros [= -> ->].
Qed.

Lemma isSelected_deselect (selected : list Coords) r c r' c' :
  isSelected (deselect selected r c) r' c'
    = isSelected selected r' c' && negb (bool_decide ((r', c') = (r, c))).
Proof.
  unfold isSelected, deselect. induction selected as [|[a b] l IH]; [done|].
  cbn [List.filter existsb fst snd].
  destruct (decide ((r', c') = (r, c))) as [[= -> ->]|Hne].
  - rewrite bool_decide_true in * by done. rewrite andb_false_r in *.
    destruct (a =? r) eqn:Ha, (b =? c) eqn:Hb; cbn [negb orb andb existsb fst snd];
      rewrite ?Ha, ?Hb; try done; cbn [andb orb]; done.
  - rewrite bool_decide_false in * by done. rewrite andb_true_r in *.
    destruct (negb (a =? r) || negb (b =? c)) eqn:Hkeep.
    + cbn [existsb fst snd]. by rewrite IH.
    + rewrite IH. apply orb_false_iff in Hkeep as [Ha Hb].
      apply negb_false_iff, Nat.eqb_eq in Ha, Hb. subst a b.
      destruct (r =? r') eqn:Hr, (c =? c') eqn:Hc; try done.
      apply Nat.eqb_eq in Hr, Hc. by subst.
Qed.

(** X20: what a click does while the game is not completed: the mouse
    button counts as held, the board is unchanged, the highlighted number is
    the digit of the clicked cell if it holds one; a plain click leaves
    exactly the clicked cell selected, a click with Ctrl or Cmd flips the
    selection of the clicked cell (all of its entries in the list go) and
    keeps every other cell as it was. A touch leaves the same [game] state
    as a plain click and does not touch the drag state. Once the game is
    completed both do nothing. *)
Theorem onCellMouseDown_spec (cmp : Component) r c e :
  let cmp' := onCellMouseDown cmp r c e in
  let held := mouseCtrlKey e || mouseMetaKey e in
  (completed (game cmp) = true →
     cmp' = cmp ∧ onCellTouchStart cmp r c = cmp) ∧
  (completed (game cmp) = false →
     isMouseDown cmp' = true ∧
     board (game cmp') = board (game cmp) ∧
     highlightNum (game cmp') = number_at (board (game cmp)) r c ∧
     (∀ r' c',
        isSelected (selectedCells (game cmp')) r' c' =
          if decide ((r', c') = (r, c))
          then (if held then negb (isSelected (selectedCells (game cmp)) r c)
                else true)
          else (if held then isSelected (selectedCells (game cmp)) r' c'
                else false)) ∧
     (held = false →
        game (onCellTouchStart cmp r c) = game cmp' ∧
        isMouseDown (onCellTouchStart cmp r c) = isMouseDown cmp ∧
        dragMode (onCellTouchStart cmp r c) = dragMode cmp)).
Proof.
  cbn zeta. unfold onCellMouseDown, onCellTouchStart. split.
  - by intros ->.
  - intros ->. destruct (mouseCtrlKey e || mouseMetaKey e) eqn:Hheld.
    + destruct (isSelected (selectedCells (game cmp)) r c) eqn:Hsel;
        cbn [game board highlightNum selectedCells isMouseDown];
        (split; [done|]); (split; [done|]); (split; [done|]);
        (split; [|done]); intros r' c'.
      * rewrite isSelected_deselect. case_decide as Heq.
        -- rewrite bool_decide_true by done. by rewrite andb_false_r.
        -- rewrite bool_decide_false by done. by rewrite andb_true_r.
      * rewrite isSelected_app. case_decide as Heq.
        -- rewrite bool_decide_true by done. by rewrite orb_true_r.
        -- rewrite bool_decide_false by done. by rewrite orb_false_r.
    + cbn [game board highlightNum selectedCells isMouseDown dragMode].
      split; [done|]. split; [done|]. split; [done|]. split; [|done].
      intros r' c'. unfold isSelected. cbn [existsb fst snd].
      rewrite orb_false_r. case_decide as Heq.
      * injection Heq as -> ->. by rewrite !Nat.eqb_refl.
      * apply andb_false_iff. destruct (decide (r = r')) as [->|Hr].
        -- right. apply Nat.eqb_neq. congruence.
        -- left. by apply Nat.eqb_neq.
Qed.

(** X21: what moving the pointer into a cell does. With the button not
    held, or on a window at most 768 wide, nothing. Otherwise the board, the
    highlighted number and the [completed] flag stay, every other cell keeps
    its selection, and the entered cell ends up deselected when the drag
    began with a Ctrl-click on a selected cell and selected in every other
    case - also after a plain click, and also in a completed game. *)
Theorem onCellMouseEnter_spec (cmp : Component) r c innerWidth :
  let cmp' := onCellMouseEnter cmp r c innerWidth in
  (isMouseDown cmp = false ∨ innerWidth ≤ 768 → cmp' = cmp) ∧
  (isMouseDown cmp = true → 768 < innerWidth →
     board (game cmp') = board (game cmp) ∧
     highlightNum (game cmp') = highlightNum (game cmp) ∧
     completed (game cmp') = completed (game cmp) ∧
     isMouseDown cmp' = true ∧ dragMode cmp' = dragMode cmp ∧
     ∀ r' c',
       isSelected (selectedCells (game cmp')) r' c' =
         if decide ((r', c') = (r, c))
         then match dragMode cmp with Some DragDeselect => false | _ => true end
         else isSelected (selectedCells (game cmp)) r' c').
Proof.
  cbn zeta. unfold onCellMouseEnter. split.
  - intros [-> | Hw]; [done|].
    apply Nat.leb_le in Hw. rewrite Hw. by rewrite orb_true_r.
  - intros Hdown Hw. apply Nat.leb_gt in Hw. rewrite Hdown, Hw.
    cbn [negb orb game board highlightNum completed selectedCells isMouseDown
         dragMode].
    split; [done|]. split; [done|]. split; [done|]. split; [done|].
    split; [done|]. intros r' c'.
    assert (∀ sel, isSelected
              (if negb (isSelected sel r c) then sel ++ [(r, c)] else sel) r' c'
            = if decide ((r', c') = (r, c)) then true else isSelected sel r' c')
      as Hadd.
    { intros sel. destruct (isSelected sel r c) eqn:Hsel; cbn [negb].
      - case_decide as Heq; [|done]. by injection Heq as -> ->.
      - rewrite isSelected_app. case_decide as Heq.
        + rewrite bool_decide_true by done. by rewrite orb_true_r.
        + rewrite bool_decide_false by done. by rewrite orb_false_r. }
    destruct (dragMode cmp) as [[|]|].
    + apply Hadd.
    + rewrite isSelected_deselect. case_decide as Heq.
      * rewrite bool_decide_true by done. by rewrite andb_false_r.
      * rewrite bool_decide_false by done. by rewrite andb_true_r.
    + apply Hadd.
Qed.

Lemma highlightNum_onCellMouseDown (cmp : Component) r c e :
  completed (game cmp) = false →
  highlightNum (game (onCellMouseDown cmp r c e))
    = number_at (board (game cmp)) r c.
Proof.
  intros Hc. unfold onCellMouseDown. rewrite Hc.
  by destruct (mouseCtrlKey e || mouseMetaKey e),
              (isSelected (selectedCells (game cmp)) r c).
Qed.

Lemma isHighlighted_number_at (b : Board) r c (cell : Cell) :
  isHighlighted (number_at b r c) cell = true ↔
  ∃ d, get b r c = Some (Num d) ∧
       (cell = Num d ∨ ∃ s, cell = Marks s ∧ d ∈ s).
Proof.
  unfold number_at, isHighlighted.
  destruct (get b r c) as [[|d|s0]|].
  - split; [done|]. by intros (d & ? & _).
  - destruct cell as [|n|s].
    + split; [done|]. intros (d' & _ & [?|(s & ? & _)]); done.
    + rewrite Nat.eqb_eq. split.
      * intros ->. exists d. split; [done|by left].
      * intros (d' & [= ->] & [[= ->]|(s & ? & _)]); done.
    + rewrite bool_decide_eq_true. split.
      * intros Hin. exists d. split; [done|]. right. by exists s.
      * intros (d' & [= ->] & [?|(s' & [= ->] & Hin)]); done.
  - split; [done|]. by intros (d & ? & _).
  - split; [done|]. by intros (d & ? & _).
Qed.

(** X22: after a click or a touch in a game that is not completed, a cell
    is highlighted exactly when the clicked cell holds a digit and the cell
    holds the same digit, placed or among its candidate marks; a click on an
    empty cell or on a cell of candidate marks highlights nothing. *)
Theorem click_highlight (cmp : Component) r c e (cell : Cell) :
  completed (game cmp) = false →
  let lit := ∃ d, get (board (game cmp)) r c = Some (Num d) ∧
                  (cell = Num d ∨ ∃ s, cell = Marks s ∧ d ∈ s) in
  (isHighlighted (highlightNum (game (onCellMouseDown cmp r c e))) cell = true
     ↔ lit) ∧
  (isHighlighted (highlightNum (game (onCellTouchStart cmp r c))) cell = true
     ↔ lit).
Proof.
  intros Hc. cbn zeta. split.
  - rewrite highlightNum_onCellMouseDown by done.
    apply isHighlighted_number_at.
  - unfold onCellTouchStart. rewrite Hc. cbn [game highlightNum].
    apply isHighlighted_number_at.
Qed.

Lemma click_highlight_witness :
  let cmp := mount (sample_puzzle, sample_solution) in
  let e := {| mouseCtrlKey := false; mouseMetaKey := false |} in
  let cell := Num 5 in
  let lit := ∃ d, get (board (game cmp)) 0 0 = Some (Num d) ∧
                  (cell = Num d ∨ ∃ s, cell = Marks s ∧ d ∈ s) in
  (isHighlighted (highlightNum (game (onCellMouseDown cmp 0 0 e))) cell = true
     ↔ lit) ∧
  (isHighlighted (highlightNum (game (onCellTouchStart cmp 0 0))) cell = true
     ↔ lit).
Proof.
  apply (click_highlight (mount (sample_puzzle, sample_solution)) 0 0
           {| mouseCtrlKey := false; mouseMetaKey := false |} (Num 5)).
  reflexivity.
Defined.

(** ** The clock of the application *)

Lemma padStart_secs k :
  k < 60 → padStart (pretty k) 2 "0" = pretty (k / 10) +:+ pretty (k mod 10).
Proof.
  intros Hk.
  assert (forallb (λ k, bool_decide
            (padStart (pretty k) 2 "0" = pretty (k / 10) +:+ pretty (k mod 10)))
            (seq 0 60) = true) as Hall by (vm_compute; reflexivity).
  rewrite forallb_forall in Hall.
  eapply bool_decide_eq_true_1, Hall, in_seq. lia.
Qed.

Lemma padStart_secs_inj j k :
  j < 60 → k < 60 →
  padStart (pretty j) 2 "0" = padStart (pretty k) 2 "0" → j = k.
Proof.
  intros Hj Hk Heq.
  assert (forallb (λ j, forallb (λ k,
            implb (bool_decide
                     (padStart (pretty j) 2 "0" = padStart (pretty k) 2 "0"))
                  (j =? k)) (seq 0 60)) (seq 0 60) = true) as Hall
    by (vm_compute; reflexivity).
  rewrite forallb_forall in Hall.
  assert (In j (seq 0 60)) as Hinj by (apply in_seq; lia).
  specialize (Hall j Hinj). rewrite forallb_forall in Hall.
  assert (In k (seq 0 60)) as Hink by (apply in_seq; lia).
  specialize (Hall k Hink). rewrite bool_decide_true in Hall by done.
  by apply Nat.eqb_eq.
Qed.

Lemma padStart_secs_length k :
  k < 60 → String.length (padStart (pretty k) 2 "0") = 2.
Proof.
  intros Hk.
  assert (forallb (λ k, String.length (padStart (pretty k) 2 "0") =? 2)
            (seq 0 60) = true) as Hall by (vm_compute; reflexivity).
  rewrite forallb_forall in Hall.
  apply Nat.eqb_eq, Hall, in_seq. lia.
Qed.

Lemma string_length_app (s t : string) :
  String.length (s +:+ t) = String.length s + String.length t.
Proof.
  induction s as [|a s IH]; [done|].
  change (S (String.length (s +:+ t)) = S (String.length s + String.length t)).
  by rewrite IH.
Qed.

Lemma string_app_inj_tail (s1 s2 t1 t2 : string) :
  s1 +:+ t1 = s2 +:+ t2 → String.length t1 = String.length t2 →
  s1 = s2 ∧ t1 = t2.
Proof.
  revert s2. induction s1 as [|a s1 IH]; intros [|b s2] Heq Hlen.
  - done.
  - exfalso. change (t1 = String b (s2 +:+ t2)) in Heq. subst t1.
    cbn [String.length] in Hlen. rewrite string_length_app in Hlen. lia.
  - exfalso. change (String a (s1 +:+ t1) = t2) in Heq. subst t2.
    cbn [String.length] in Hlen. rewrite string_length_app in Hlen. lia.
  - change (String a (s1 +:+ t1) = String b (s2 +:+ t2)) in Heq.
    injection Heq as -> Heq. by destruct (IH s2 Heq Hlen) as [-> ->].
Qed.

(** X23: [formatTime] writes the whole minutes, a colon and the seconds of
    the minute in exactly two digits, tens and units; the text is three
    characters longer than the minutes, and two counts of seconds are
    written alike only if they are equal. *)
Theorem formatTime_spec (seconds : nat) :
  formatTime seconds
    = pretty (seconds / 60) +:+ ":" +:+ pretty (seconds mod 60 / 10)
        +:+ pretty (seconds mod 10) ∧
  String.length (formatTime seconds)
    = String.length (pretty (seconds / 60)) + 3 ∧
  ∀ t, formatTime seconds = formatTime t ↔ seconds = t.
Proof.
  assert (seconds mod 60 < 60) as Hs by (apply Nat.mod_upper_bound; lia).
  split; [|split].
  - unfold formatTime. cbn zeta. rewrite padStart_secs by done.
    replace (seconds mod 60 mod 10) with (seconds mod 10); [done|].
    rewrite (Nat.Div0.mod_mul_r seconds 10 6) at 1.
    rewrite (Nat.mul_comm 10), Nat.Div0.mod_add. by rewrite Nat.Div0.mod_mod.
  - unfold formatTime. cbn zeta. rewrite !string_length_app.
    rewrite padStart_secs_length by done. simpl. lia.
  - intros t. split; [|by intros ->].
    assert (t mod 60 < 60) as Ht by (apply Nat.mod_upper_bound; lia).
    unfold formatTime. cbn zeta. intros Heq.
    apply string_app_inj_tail in Heq as [Hm Hsec].
    2: { rewrite !string_length_app, !padStart_secs_length by done. done. }
    apply (inj pretty) in Hm.
    apply String.app_inj in Hsec.
    apply padStart_secs_inj in Hsec; [|done..].
    rewrite (Nat.div_mod_eq seconds 60), (Nat.div_mod_eq t 60). congruence.
Qed.

(** ** The timer of the application *)

Lemma one_timer_cleared (a : App) (w : Timers) :
  one_timer (a, w) → active (clear_if_set (intervalId a) w) = ∅.
Proof.
  intros (Hact & _ & Hid). cbn [fst snd] in *. apply set_eq. intros id.
  rewrite elem_of_empty. split; [|done].
  destruct (intervalId a) as [old|] eqn:Hold; cbn [clear_if_set].
  - destruct (Hid old eq_refl) as [Hpos _].
    destruct (old =? 0) eqn:E; [apply Nat.eqb_eq in E; lia|].
    cbn [clearInterval active]. rewrite elem_of_difference, elem_of_singleton.
    intros [Hin Hne]. apply Hne. specialize (Hact id Hin). congruence.
  - intros Hin. by specialize (Hact id Hin).
Qed.

Lemma issued_clear_if_set o w : issued (clear_if_set o w) = issued w.
Proof. destruct o as [[|id]|]; done. Qed.

Lemma active_clear_if_set o w : active (clear_if_set o w) ⊆ active w.
Proof.
  destruct o as [[|id]|]; cbn [clear_if_set Nat.eqb]; try done.
  cbn [clearInterval active]. intros x.
  rewrite elem_of_difference. by intros [? _].
Qed.

Lemma one_timer_step (s : App * Timers) (ev : AppEvent) :
  one_timer s → one_timer (app_step s ev).
Proof.
  destruct s as [a w]. intros Hinv.
  pose proof (one_timer_cleared a w Hinv) as Hclear.
  destruct Hinv as (Hact & Hrange & Hid). cbn [fst snd] in *.
  assert (∀ started', one_timer (app_newGame started' a w)) as Hnew.
  { intros started'. unfold app_newGame, setInterval, effect_cleanup.
    rewrite Hclear, issued_clear_if_set. cbn [intervalId].
    assert (∀ id, id ∈ active (clear_if_set (intervalId a)
                     {| active := ∅ ∪ {[S (issued w)]};
                        issued := S (issued w) |}) →
                  id = S (issued w)) as Hone.
    { intros id Hin. apply active_clear_if_set in Hin. cbn [active] in Hin.
      apply elem_of_union in Hin as [Hin|Hin]; [by apply elem_of_empty in Hin|].
      by apply elem_of_singleton in Hin. }
    case_decide as Hsame.
    - split; [|split]; cbn [fst snd active issued intervalId].
      + intros id Hin. apply elem_of_union in Hin as [Hin|Hin];
          [by apply elem_of_empty in Hin|].
        by apply elem_of_singleton in Hin as ->.
      + intros id Hin. apply elem_of_union in Hin as [Hin|Hin];
          [by apply elem_of_empty in Hin|].
        apply elem_of_singleton in Hin as ->. lia.
      + intros id [= <-]. lia.
    - split; [|split]; cbn [fst snd intervalId].
      + intros id Hin. by rewrite (Hone id Hin).
      + intros id Hin. rewrite (Hone id Hin), issued_clear_if_set.
        cbn [issued]. lia.
      + intros id [= <-]. rewrite issued_clear_if_set. cbn [issued]. lia. }
  destruct ev as [| | |id]; cbn [app_step fst snd].
  - apply Hnew.
  - apply Hnew.
  - unfold onPuzzleComplete, effect_cleanup. cbn [intervalId].
    assert (∀ id, id ∉ active (clear_if_set (intervalId a)
                                 (clear_if_set (intervalId a) w))) as Hnone.
    { intros id Hin. apply active_clear_if_set in Hin.
      rewrite Hclear in Hin. by apply elem_of_empty in Hin. }
    case_decide as Hsame; (split; [|split]); cbn [fst snd intervalId].
    + intros id Hin. rewrite Hclear in Hin. by apply elem_of_empty in Hin.
    + intros id Hin. rewrite Hclear in Hin. by apply elem_of_empty in Hin.
    + done.
    + intros id Hin. by destruct (Hnone id).
    + intros id Hin. by destruct (Hnone id).
    + done.
  - unfold tick. case_bool_decide; (split; [|split]); cbn [fst snd intervalId];
      done.
Qed.

Lemma one_timer_initial n : one_timer (app_initial n).
Proof.
  split; [|split]; cbn [app_initial fst snd active intervalId].
  - intros id Hin. by apply elem_of_empty in Hin.
  - intros id Hin. by apply elem_of_empty in Hin.
  - done.
Qed.

Lemma one_timer_run n (evs : list AppEvent) : one_timer (app_run n evs).
Proof.
  unfold app_run. apply fold_left_preserves; [|apply one_timer_initial].
  intros s ev. apply one_timer_step.
Qed.

(** X24: when each handler of the application sees the state left by the
    one before it, at most one interval is running at any time, and it is
    the one stored in [intervalId]; after [onPuzzleComplete] none is
    running and the time stands still until the next game, and a new game
    starts the time at 0 with exactly one interval running. *)
Theorem app_one_timer n (evs : list AppEvent) :
  let s := app_run n evs in
  (∀ id, id ∈ active s.2 → intervalId s.1 = Some id) ∧
  (let s' := app_step s PuzzleComplete in
   active s'.2 = ∅ ∧ time s'.1 = time s.1 ∧
   ∀ id, app_step s' (Tick id) = s') ∧
  (let s' := app_step s NewGame in
   time s'.1 = 0 ∧ ∃ id, intervalId s'.1 = Some id ∧ active s'.2 = {[id]}).
Proof.
  cbn zeta. pose proof (one_timer_run n evs) as Hinv.
  destruct (app_run n evs) as [a w].
  pose proof (one_timer_cleared a w Hinv) as Hclear.
  destruct Hinv as (Hact & Hrange & Hid). cbn [fst snd] in *.
  split; [done|]. split.
  - cbn [app_step fst snd].
    assert (active (onPuzzleComplete a w).2 = ∅) as Hnone.
    { unfold onPuzzleComplete, effect_cleanup. cbn [snd intervalId].
      case_decide as Hsame; [done|].
      apply set_eq. intros id. rewrite elem_of_empty. split; [|done].
      intros Hin. apply active_clear_if_set in Hin.
      rewrite Hclear in Hin. by apply elem_of_empty in Hin. }
    split; [done|]. split; [done|]. intros id. unfold tick.
    rewrite Hnone. rewrite bool_decide_false by apply not_elem_of_empty.
    by destruct (onPuzzleComplete a w).
  - cbn [app_step fst snd]. unfold app_newGame, setInterval, effect_cleanup.
    rewrite Hclear, issued_clear_if_set. cbn [fst snd time intervalId].
    split; [done|]. exists (S (issued w)). split; [done|].
    case_decide as Hsame; cbn [active]; [by rewrite (left_id_L ∅ (∪))|].
    destruct (intervalId a) as [old|] eqn:Hold; cbn [clear_if_set];
      [|by rewrite (left_id_L ∅ (∪))].
    destruct (Hid old eq_refl) as [Hpos Hle].
    destruct (old =? 0); cbn [clearInterval active];
      rewrite (left_id_L ∅ (∪)); [done|].
    apply set_eq. intros id.
    rewrite elem_of_difference, !elem_of_singleton. split; [by intros [? _]|].
    intros ->. split; [done|]. lia.
Qed.
